(** * Alignment-and-playback core of the practice-scoring client

    A shallow embedding of the functions of [lib/speechace.ts] and
    [app/page.tsx] that extract the per-word score list of a scoring
    response, resolve a time interval per score record, tokenize the
    reference text, align word tokens with score records and drive the
    playback of one interval of the recording.  The last parts cover the
    helpers of the page (the word count, the score bands, the mean and the
    grouping of the history) and the word functions of [lib/exercises.ts].

    ECMAScript numbers are IEEE 754 binary64 values: they are modelled by
    Rocq's primitive floats, whose operations are the processor's.  Strings
    are sequences of UTF-16 code units.  Code that can throw is embedded in
    an outcome monad. *)

From Stdlib Require Import ZArith NArith Ascii String Bool Lia Floats List.
From Equations Require Import Equations.
Import ListNotations.

Set Warnings "-inexact-float,-register-all".

(** ** ECMAScript values and the built-in operations the program uses *)

Module JS.

(** A string is a sequence of UTF-16 code units. *)
Definition code_unit := N.
Definition jsstring := list code_unit.

(** The code units of an ASCII literal. *)
Fixpoint str (s : string) : jsstring :=
  match s with
  | EmptyString => []
  | String c s' => N_of_ascii c :: str s'
  end.

(** [a === b] on strings. *)
Fixpoint jsstring_eqb (a b : jsstring) : bool :=
  match a, b with
  | [], [] => true
  | x :: a', y :: b' => (x =? y)%N && jsstring_eqb a' b'
  | _, _ => false
  end.

(** The values a parsed response is made of, and [undefined], which is
    what reading an absent property or an index out of range gives. *)
Inductive value : Type :=
| Undefined
| Null
| Bool (b : bool)
| Num (n : float)
| Str (s : jsstring)
| Arr (items : list value)
| Obj (fields : list (string * value)).

Inductive exn : Type := TypeError.

Inductive outcome (A : Type) : Type :=
| Returns (a : A)
| Throws (e : exn).
Arguments Returns {A} a.
Arguments Throws {A} e.

Definition bind {A B} (m : outcome A) (k : A -> outcome B) : outcome B :=
  match m with
  | Returns a => k a
  | Throws e => Throws e
  end.

(** [x == null]: true of [null] and [undefined] only. *)
Definition nullish (v : value) : bool :=
  match v with
  | Undefined | Null => true
  | _ => false
  end.

(** ToBoolean. *)
Definition truthy (v : value) : bool :=
  match v with
  | Undefined | Null => false
  | Bool b => b
  | Num n => negb (is_nan n || is_zero n)
  | Str s => match s with [] => false | _ => true end
  | Arr _ | Obj _ => true
  end.

(** [a ?? b] and [a || b] on values that are already evaluated. *)
Definition coalesce (a b : value) : value := if nullish a then b else a.
Definition or_else (a b : value) : value := if truthy a then a else b.

Fixpoint lookup (k : string) (fields : list (string * value)) : value :=
  match fields with
  | [] => Undefined
  | (k', v) :: rest => if String.eqb k k' then v else lookup k rest
  end.

(** [v.k] for the property names this program reads ([word],
    [word_score_list], [extent], [start_time], ...): none of them is a
    property of a string, a number, a boolean or an array, so only an
    object can hold them; on [null] and [undefined] the access throws. *)
Definition get (v : value) (k : string) : outcome value :=
  match v with
  | Undefined | Null => Throws TypeError
  | Obj fields => Returns (lookup k fields)
  | _ => Returns Undefined
  end.

(** [v?.k]. *)
Definition oget (v : value) (k : string) : value :=
  match v with
  | Obj fields => lookup k fields
  | _ => Undefined
  end.

(** [xs[i]] on an array. *)
Definition index (xs : list value) (i : nat) : value := nth i xs Undefined.

(** Math.max of two numbers, as ECMAScript defines it: NaN when an
    argument is NaN; otherwise the running maximum from -Infinity, where
    +0 counts as larger than -0. *)
Definition is_pos_zero (x : float) : bool :=
  match classify x with PZero => true | _ => false end.
Definition is_neg_zero (x : float) : bool :=
  match classify x with NZero => true | _ => false end.

Definition max_step (highest number : float) : float :=
  if is_pos_zero number && is_neg_zero highest then number
  else if (highest <? number)%float then number
  else highest.

Definition Math_max (a b : float) : float :=
  if is_nan a || is_nan b then nan
  else max_step (max_step neg_infinity a) b.

(** White space and line terminators: what [\s] matches and what
    [String.prototype.trim] removes. *)
Definition isSpace (c : code_unit) : bool :=
  ((9 <=? c) && (c <=? 13) || (c =? 32) || (c =? 160) || (c =? 5760)
   || (8192 <=? c) && (c <=? 8202) || (c =? 8232) || (c =? 8233)
   || (c =? 8239) || (c =? 8287) || (c =? 12288) || (c =? 65279))%N.

Fixpoint dropWhile (p : code_unit -> bool) (s : jsstring) : jsstring :=
  match s with
  | [] => []
  | c :: s' => if p c then dropWhile p s' else s
  end.

Definition trim (s : jsstring) : jsstring :=
  rev (dropWhile isSpace (rev (dropWhile isSpace s))).

End JS.
Import JS.

(** ** lib/speechace.ts *)

Module Speechace.

Record WordTiming := { startSec : float; endSec : float }.

(** Try to find word_score_list across multiple SpeechAce response shapes. *)
Definition getWordScoreList (speechace : value) : list value :=
  let candidates :=
    coalesce (oget (oget (oget speechace "text_score") "speechace_score") "word_score_list")
      (coalesce (oget (oget speechace "text_score") "word_score_list")
         (coalesce (oget (oget speechace "speechace_score") "word_score_list")
            (coalesce (oget speechace "word_score_list") Null))) in
  match candidates with
  | Arr items => items
  | _ => []
  end.

Section Timing.

(** [Number(s)] on a string: ECMAScript's StringToNumber. *)
Variable StringToNumber : jsstring -> float.

Definition toNumberSec (x : value) : option float :=
  if nullish x then None
  else
    let n := match x with
             | Str s => StringToNumber s
             | Num n => n
             | _ => nan
             end in
    if negb (is_finite n) then None
    else if (1000 <? n)%float then Some (n / 1000)%float
    else Some n.

Definition timingFromItem (item : value) : outcome (option WordTiming) :=
  bind (get item "start_time") (fun st =>
  bind (if nullish st then get item "start" else Returns st) (fun sv =>
  let s := toNumberSec sv in
  bind (get item "end_time") (fun et =>
  bind (if nullish et then get item "end" else Returns et) (fun ev =>
  let e := toNumberSec ev in
  match s, e with
  | Some s, Some e =>
      Returns (Some {| startSec := Math_max 0 s; endSec := Math_max 0 e |})
  | _, _ => Returns None
  end)))).

End Timing.

End Speechace.
Import Speechace.

(** ** app/page.tsx: tokenizer, timing from phone extents, aligner *)

Module Page.

(** The character classes of the two regular expressions. *)
Definition isAlnum (c : code_unit) : bool :=
  ((48 <=? c) && (c <=? 57) || (65 <=? c) && (c <=? 90)
   || (97 <=? c) && (c <=? 122))%N.

(** ['\u2019]: the ASCII apostrophe and U+2019. *)
Definition isApos (c : code_unit) : bool := ((c =? 39) || (c =? 8217))%N.

(** [^A-Za-z0-9\s] *)
Definition isOther (c : code_unit) : bool := negb (isAlnum c) && negb (isSpace c).

(** A greedy [X+] or [X*] at the head of the input: the longest prefix
    in the class, and what is left. *)
Fixpoint span (p : code_unit -> bool) (s : jsstring) : jsstring * jsstring :=
  match s with
  | [] => ([], [])
  | c :: s' =>
      if p c then let (run, rest) := span p s' in (c :: run, rest)
      else ([], s)
  end.

(** [X+] at the head of the input. *)
Definition plus (p : code_unit -> bool) (s : jsstring) : option (jsstring * jsstring) :=
  match span p s with
  | ([], _) => None
  | (run, rest) => Some (run, rest)
  end.

(** [[A-Za-z0-9]+(?:['\u2019][A-Za-z0-9]+)?] at the head of the input.  The
    optional group is greedy: it is taken when an apostrophe and at
    least one letter or digit follow. *)
Definition matchWord (s : jsstring) : option (jsstring * jsstring) :=
  match plus isAlnum s with
  | None => None
  | Some (w, rest) =>
      match rest with
      | c :: rest' =>
          if isApos c then
            match plus isAlnum rest' with
            | Some (w', rest'') => Some (w ++ c :: w', rest'')
            | None => Some (w, rest)
            end
          else Some (w, rest)
      | [] => Some (w, rest)
      end
  end.

(** Which capture group of the tokenizer's expression took part. *)
Inductive group := G1 | G2 | G3.

(** [(\s+)|([A-Za-z0-9]+(?:['\u2019][A-Za-z0-9]+)?)|([^A-Za-z0-9\s]+)] at the
    head of the input: the alternatives are tried in order. *)
Definition matchToken (s : jsstring) : option ((group * jsstring) * jsstring) :=
  match plus isSpace s with
  | Some (m, rest) => Some ((G1, m), rest)
  | None =>
      match matchWord s with
      | Some (m, rest) => Some ((G2, m), rest)
      | None =>
          match plus isOther s with
          | Some (m, rest) => Some ((G3, m), rest)
          | None => None
          end
      end
  end.

(** [re.exec] from the current position: the leftmost position at or
    after it where the expression matches. *)
Fixpoint exec {T} (matchAt : jsstring -> option (T * jsstring)) (s : jsstring)
  : option (T * jsstring) :=
  match matchAt s with
  | Some r => Some r
  | None =>
      match s with
      | [] => None
      | _ :: s' => exec matchAt s'
      end
  end.

(** Every match of these expressions is non-empty, so a loop over
    [exec] moves strictly forward in the input. *)
Lemma span_length p s :
  length (fst (span p s)) + length (snd (span p s)) = length s.
Proof.
  induction s as [|c s IH]; simpl; auto.
  destruct (p c); simpl; auto.
  destruct (span p s); simpl in *; lia.
Qed.

Lemma plus_consumes p s m rest :
  plus p s = Some (m, rest) -> length rest < length s.
Proof.
  unfold plus. pose proof (span_length p s) as H.
  destruct (span p s) as [[|c run] r]; [discriminate|].
  intros [= <- <-]. simpl in *. lia.
Qed.

Lemma matchWord_consumes s m rest :
  matchWord s = Some (m, rest) -> length rest < length s.
Proof.
  unfold matchWord. destruct (plus isAlnum s) as [[w r]|] eqn:E; [|discriminate].
  apply plus_consumes in E. destruct r as [|c r'].
  - intros [= <- <-]. auto.
  - destruct (isApos c).
    + destruct (plus isAlnum r') as [[w' r'']|] eqn:E'.
      * apply plus_consumes in E'. intros [= <- <-]. simpl in *. lia.
      * intros [= <- <-]. auto.
    + intros [= <- <-]. auto.
Qed.

Lemma matchToken_consumes s t rest :
  matchToken s = Some (t, rest) -> length rest < length s.
Proof.
  unfold matchToken.
  destruct (plus isSpace s) as [[m r]|] eqn:E1.
  { intros [= <- <-]. eapply plus_consumes; eauto. }
  destruct (matchWord s) as [[m r]|] eqn:E2.
  { intros [= <- <-]. eapply matchWord_consumes; eauto. }
  destruct (plus isOther s) as [[m r]|] eqn:E3; [|discriminate].
  intros [= <- <-]. eapply plus_consumes; eauto.
Qed.

Lemma exec_consumes T (f : jsstring -> option (T * jsstring)) :
  (forall s t r, f s = Some (t, r) -> length r < length s) ->
  forall s t r, exec f s = Some (t, r) -> length r < length s.
Proof.
  intros Hf s. induction s as [|c s IH]; simpl; intros t r.
  - destruct (f []) as [[t' r']|] eqn:E; [|discriminate].
    intros [= <- <-]. exact (Hf _ _ _ E).
  - destruct (f (c :: s)) as [[t' r']|] eqn:E.
    + intros [= <- <-]. exact (Hf _ _ _ E).
    + intros H. apply IH in H. simpl. lia.
Qed.

Definition inspect {A} (x : A) : { y : A | x = y } := exist _ x eq_refl.

(** [usedText.match(/[A-Za-z0-9]+(?:['\u2019][A-Za-z0-9]+)?/g) || []]: every
    match, left to right. *)
Equations matchAllWords (s : jsstring) : list jsstring by wf (length s) lt :=
  matchAllWords s with inspect (exec matchWord s) := {
    | exist _ None _ => [];
    | exist _ (Some (w, rest)) H => w :: matchAllWords rest }.
Next Obligation.
  eapply exec_consumes; eauto using matchWord_consumes.
Qed.

Record WordPhone := {
  phone : jsstring;
  phoneQuality : option float;
  soundMostLike : option jsstring;
  extent : option (list value)
}.

Record WordDisplay := {
  idx : nat;
  word : jsstring;
  quality : option float;
  phones : list WordPhone;
  timing : option WordTiming
}.

Inductive Token :=
| space (text : jsstring)
| punct (text : jsstring)
| word_ (text : jsstring) (attach : option WordDisplay).

Definition tokenText (t : Token) : jsstring :=
  match t with
  | space text | punct text | word_ text _ => text
  end.

(** The [while ((m = re.exec(text)) !== null)] loop of
    [tokenizeAndAttach]; [wi] counts the word tokens seen so far, and
    [wordDisplays?.[wi] || null] is the display at that position if there
    is one. *)
Equations tokenLoop (wordDisplays : list WordDisplay) (s : jsstring) (wi : nat)
  : list Token by wf (length s) lt :=
  tokenLoop wordDisplays s wi with inspect (exec matchToken s) := {
    | exist _ None _ => [];
    | exist _ (Some ((G1, m), rest)) H => space m :: tokenLoop wordDisplays rest wi;
    | exist _ (Some ((G2, m), rest)) H =>
        word_ m (nth_error wordDisplays wi) :: tokenLoop wordDisplays rest (S wi);
    | exist _ (Some ((G3, m), rest)) H => punct m :: tokenLoop wordDisplays rest wi }.
Next Obligation.
  eapply exec_consumes; eauto using matchToken_consumes.
Qed.
Next Obligation.
  eapply exec_consumes; eauto using matchToken_consumes.
Qed.
Next Obligation.
  eapply exec_consumes; eauto using matchToken_consumes.
Qed.

Definition tokenizeAndAttach (text : jsstring) (wordDisplays : list WordDisplay)
  : list Token :=
  match text with
  | [] => []
  | _ => tokenLoop wordDisplays text 0
  end.

(** Replacing every match of [/[X]/g] or of [/[X]+/g] by the empty
    string: both delete every code unit of the class X. *)
Definition removeAll (p : code_unit -> bool) (s : jsstring) : jsstring :=
  filter (fun c => negb (p c)) s.

(** The class of the first replacement: the double quote, the
    apostrophe, the backquote and the curly quotes U+201C, U+201D,
    U+2018 and U+2019. *)
Definition isQuote (c : code_unit) : bool :=
  ((c =? 8220) || (c =? 8221) || (c =? 34) || (c =? 8216) || (c =? 8217)
   || (c =? 39) || (c =? 96))%N.

(** [[^a-z0-9]] under the [i] flag (without [u]): a code unit is in
    [a-z0-9] up to case when it is an ASCII letter or digit; no code
    unit outside ASCII is canonicalized into ASCII. *)
Definition isNotAlnumI (c : code_unit) : bool := negb (isAlnum c).

(** Timing from the extents of the first and last phone, in units of
    10 ms. *)
Definition timingFromPhoneExtents (phoneScoreList : value) : option WordTiming :=
  match phoneScoreList with
  | Arr l =>
      if (length l <? 1)%nat then None
      else
        let first := index l 0 in
        let last := index l (length l - 1) in
        let s := match oget first "extent" with Arr a => Some a | _ => None end in
        let e := match oget last "extent" with Arr a => Some a | _ => None end in
        match s, e with
        | Some s, Some e =>
            let start10ms := match index s 0 with Num n => Some n | _ => None end in
            let end10ms := match index e 1 with Num n => Some n | _ => None end in
            match start10ms, end10ms with
            | Some start10ms, Some end10ms =>
                let startSec := Math_max 0 (start10ms * 0.01)%float in
                let endSec := Math_max (startSec + 0.02)%float (end10ms * 0.01)%float in
                Some {| startSec := startSec; endSec := endSec |}
            | _, _ => None
            end
        | _, _ => None
        end
  | _ => None
  end.

Section Aligner.

(** The built-ins whose full definition lies outside the program:
    [String.prototype.toLowerCase], [Number] on a string and [String]
    on a value. *)
Variable toLowerCase : jsstring -> jsstring.
Variable StringToNumber : jsstring -> float.
Variable ToString : value -> jsstring.

Definition normalizeString (s : jsstring) : jsstring :=
  trim (removeAll isNotAlnumI (removeAll isQuote (toLowerCase s))).

(** [normalizeWord(s)]: [s], or the empty string when [s] is falsy,
    is a string or a truthy value that has no [toLowerCase] method. *)
Definition normalizeWord (s : value) : outcome jsstring :=
  match or_else s (Str []) with
  | Str t => Returns (normalizeString t)
  | _ => Throws TypeError
  end.

(** The lookahead loop [for (k = j; k < Math.min(lst.length, j + 4); k++)],
    with [n] iterations left. *)
Fixpoint scan (lst : list value) (norm : jsstring) (k n : nat)
  : outcome (option (value * nat)) :=
  match n with
  | O => Returns None
  | S n' =>
      bind (normalizeWord (or_else (oget (index lst k) "word") (Str [])))
        (fun candidateWord =>
           if negb (jsstring_eqb candidateWord []) && jsstring_eqb candidateWord norm
           then Returns (Some (index lst k, k))
           else scan lst norm (S k) n')
  end.

(** Lines 219-240 of the loop body: the record picked for the word
    [raw] with the cursor at [j], and the cursor afterwards.
    [pickedIndex] starts at -1 and is assigned on both paths before it
    is read. *)
Definition pickRecord (lst : list value) (raw : jsstring) (j : nat)
  : outcome (value * nat) :=
  bind (normalizeWord (Str raw)) (fun norm =>
  bind (scan lst norm j (Nat.min (length lst) (j + 4) - j)) (fun found =>
  let '(picked, pickedIndex) :=
    match found with
    | Some (picked, pickedIndex) =>
        if truthy picked then (picked, pickedIndex)
        else (or_else (index lst j) Null, j)
    | None => (or_else (index lst j) Null, j)
    end in
  Returns (picked, if (j <=? pickedIndex)%nat then pickedIndex + 1 else j))).

Definition numberOr (v : value) (otherwise : option float) : option float :=
  match v with
  | Num n => Some n
  | _ => otherwise
  end.

Definition toPhone (p : value) : WordPhone :=
  {| phone := ToString (or_else (oget p "phone") (or_else (oget p "symbol") (Str [])));
     phoneQuality :=
       numberOr (oget p "quality_score") (numberOr (oget p "quality") None);
     soundMostLike :=
       if truthy (oget p "sound_most_like")
       then Some (ToString (oget p "sound_most_like"))
       else None;
     extent := match oget p "extent" with Arr a => Some a | _ => None end |}.

(** Lines 242-273 of the loop body: the display of word [i]. *)
Definition makeDisplay (i : nat) (raw : jsstring) (picked : value)
  : outcome WordDisplay :=
  let quality :=
    numberOr (oget picked "quality_score")
      (numberOr (oget picked "quality") (numberOr (oget picked "score") None)) in
  let phonesRaw :=
    match oget picked "phone_score_list" with Arr l => l | _ => [] end in
  let phones := map toPhone phonesRaw in
  bind (match timingFromPhoneExtents (Arr phonesRaw) with
        | Some t => Returns (Some t)
        | None => timingFromItem StringToNumber picked
        end)
    (fun timing =>
       Returns {| idx := i; word := raw; quality := quality;
                  phones := phones; timing := timing |}).

(** The loop over [wordsInText], from word number [i] with the
    cursor at [j]: the cursor after the last word and the displays
    pushed. *)
Fixpoint alignLoop (lst : list value) (wordsInText : list jsstring) (i j : nat)
  : outcome (nat * list WordDisplay) :=
  match wordsInText with
  | [] => Returns (j, [])
  | raw :: rest =>
      bind (pickRecord lst raw j) (fun '(picked, j') =>
      bind (makeDisplay i raw picked) (fun d =>
      bind (alignLoop lst rest (S i) j') (fun '(jend, out) =>
      Returns (jend, d :: out))))
  end.

Definition buildWordDisplays (usedText : jsstring) (speechace : value)
  : outcome (list WordDisplay) :=
  let lst := getWordScoreList speechace in
  match trim usedText, lst with
  | [], _ | _, [] => Returns []
  | _, _ =>
      bind (alignLoop lst (matchAllWords usedText) 0 0) (fun '(_, out) =>
      Returns out)
  end.

End Aligner.

End Page.
Import Page.

(** ** app/page.tsx: playback of one interval of the recording *)

Module Playback.

(** The calls made on the audio element. *)
Inductive AudioCall :=
| Pause
| Play
| SetCurrentTime (t : float)
| SetSrc (url : jsstring)
| Load.

(** The error shown through [updateTaskState({ err })]: the word has no
    timing, so it cannot be played on its own. *)
Inductive Message := NoTimingForWord.

(** [segmentRef.current] *)
Record Segment := { seg_endSec : float; seg_token : nat }.

(** A timeout that was set and has neither fired nor been cleared: its
    id, and the token and delay its callback closes over. *)
Record Timeout := { timeout_id : positive; timeout_token : nat; timeout_ms : float }.

(** A call of [playSegment] suspended at one of its [await]s. *)
Record Request := { req_token : nat; req_startSec : float; req_endSec : float }.

Record State := {
  audioRef : bool;                  (* the audio element is mounted *)
  audioCalls : list AudioCall;      (* the calls made so far, newest first *)
  playTokenRef : nat;
  segmentRef : option Segment;
  segmentTimerRef : option positive;
  timeouts : list Timeout;
  nextTimeout : positive;
  suspended : list Request;
  audioKey : option jsstring;       (* result?.audioKey *)
  audioUrl : option jsstring;
  audioUrlAt : option float;
  err : option Message;
  ttsSpeaking : bool
}.

Definition with_player (st : State) (calls : list AudioCall) (token : nat)
  (seg : option Segment) (timer : option positive) (ts : list Timeout) : State :=
  {| audioRef := audioRef st; audioCalls := calls; playTokenRef := token;
     segmentRef := seg; segmentTimerRef := timer; timeouts := ts;
     nextTimeout := nextTimeout st; suspended := suspended st;
     audioKey := audioKey st; audioUrl := audioUrl st;
     audioUrlAt := audioUrlAt st; err := err st; ttsSpeaking := ttsSpeaking st |}.

Definition with_loop (st : State) (next : positive) (reqs : list Request) : State :=
  {| audioRef := audioRef st; audioCalls := audioCalls st;
     playTokenRef := playTokenRef st; segmentRef := segmentRef st;
     segmentTimerRef := segmentTimerRef st; timeouts := timeouts st;
     nextTimeout := next; suspended := reqs;
     audioKey := audioKey st; audioUrl := audioUrl st;
     audioUrlAt := audioUrlAt st; err := err st; ttsSpeaking := ttsSpeaking st |}.

Definition with_ui (st : State) (key url : option jsstring) (at_ : option float)
  (e : option Message) (tts : bool) : State :=
  {| audioRef := audioRef st; audioCalls := audioCalls st;
     playTokenRef := playTokenRef st; segmentRef := segmentRef st;
     segmentTimerRef := segmentTimerRef st; timeouts := timeouts st;
     nextTimeout := nextTimeout st; suspended := suspended st;
     audioKey := key; audioUrl := url; audioUrlAt := at_; err := e;
     ttsSpeaking := tts |}.

(** A call on the audio element, when there is one. *)
Definition call (c : AudioCall) (st : State) : State :=
  if audioRef st
  then with_player st (c :: audioCalls st) (playTokenRef st) (segmentRef st)
         (segmentTimerRef st) (timeouts st)
  else st.

Definition clearTimeout (id : positive) (ts : list Timeout) : list Timeout :=
  filter (fun t => negb (Pos.eqb (timeout_id t) id)) ts.

Definition stopSegmentTimer (st : State) : State :=
  match segmentTimerRef st with
  | Some id =>
      with_player st (audioCalls st) (playTokenRef st) (segmentRef st) None
        (clearTimeout id (timeouts st))
  | None => st
  end.

Definition setSegment (seg : option Segment) (st : State) : State :=
  with_player st (audioCalls st) (playTokenRef st) seg (segmentTimerRef st)
    (timeouts st).

Definition stopTts (st : State) : State :=
  with_ui st (audioKey st) (audioUrl st) (audioUrlAt st) (err st) false.

Definition setErr (e : option Message) (st : State) : State :=
  with_ui st (audioKey st) (audioUrl st) (audioUrlAt st) e (ttsSpeaking st).

(** [playSegment] up to its first [await]: it mints the next token and
    leaves the rest of the call suspended. *)
Definition playSegment (startSec endSec : float) (st : State) : State :=
  if negb (audioRef st) then st
  else
    let st := setSegment None (stopSegmentTimer st) in
    let token := playTokenRef st + 1 in
    let st := with_player st (audioCalls st) token (segmentRef st)
                (segmentTimerRef st) (timeouts st) in
    let st := call Pause st in
    with_loop st (nextTimeout st)
      ({| req_token := token; req_startSec := startSec; req_endSec := endSec |}
         :: suspended st).

(** The callback given to [setTimeout] by the request [token]. *)
Definition stopTimer (token : nat) (st : State) : State :=
  match segmentRef st with
  | None => st
  | Some seg =>
      if negb (seg_token seg =? token)%nat then st
      else
        let st := call Pause st in
        with_player st (audioCalls st) (playTokenRef st) None None (timeouts st)
  end.

Section WithRound.

(** [Math.round] *)
Variable Math_round : float -> float.

(** [doSeekPlay] of the request [r]. *)
Definition doSeekPlay (r : Request) (st : State) : State :=
  let token := req_token r in
  if negb (token =? playTokenRef st)%nat then st
  else
    let st := call (SetCurrentTime (Math_max 0 (req_startSec r))) st in
    let st := setSegment (Some {| seg_endSec := req_endSec r; seg_token := token |}) st in
    let st := call Play st in
    let ms := Math_max 80 (Math_round ((req_endSec r - req_startSec r) * 1000) + 60)%float in
    let id := nextTimeout st in
    let st := with_player st (audioCalls st) (playTokenRef st) (segmentRef st)
                (Some id)
                ({| timeout_id := id; timeout_token := token; timeout_ms := ms |}
                   :: timeouts st) in
    with_loop st (Pos.succ id) (suspended st).

(** The [timeupdate] listener. *)
Definition onTime (currentTime : float) (st : State) : State :=
  match segmentRef st with
  | None => st
  | Some seg =>
      if negb (playTokenRef st =? seg_token seg)%nat then st
      else if (seg_endSec seg <=? currentTime)%float
           then stopSegmentTimer (setSegment None (call Pause st))
           else st
  end.

Definition resetRunState (st : State) : State :=
  let st := with_ui st None None None None (ttsSpeaking st) in
  let st := setSegment None (stopSegmentTimer st) in
  stopTts (call Pause st).

Definition toggleTts (st : State) : State :=
  if ttsSpeaking st then stopTts st
  else
    let st := setSegment None (stopSegmentTimer (call Pause st)) in
    with_ui st (audioKey st) (audioUrl st) (audioUrlAt st) (err st) true.

(** What the outside world answers during [ensureFreshAudioUrl]: the
    clock at its two readings and the result of the fetch, which fails
    or gives [j?.url || null]. *)
Inductive Fetched := FetchFails | FetchGives (url : option jsstring).
Record World := { now : float; nowAfter : float; fetched : Fetched }.

Definition truthyString (s : option jsstring) : bool :=
  match s with
  | Some (_ :: _) => true
  | _ => false
  end.

Definition truthyNumber (n : option float) : bool :=
  match n with
  | Some n => negb (is_nan n || is_zero n)
  | None => false
  end.

Definition ensureFreshAudioUrl (w : World) (st : State) : State * option jsstring :=
  if negb (truthyString (audioKey st)) then (st, None)
  else if truthyString (audioUrl st) && truthyNumber (audioUrlAt st)
          && match audioUrlAt st with
             | Some t => (now w - t <? 50000)%float
             | None => false
             end
  then (st, audioUrl st)
  else
    match fetched w with
    | FetchGives got =>
        let url := if truthyString got then got else None in
        let st := with_ui st (audioKey st) url
                    (if truthyString url then Some (nowAfter w) else None)
                    (err st) (ttsSpeaking st) in
        let st := match url with
                  | Some u => call Load (call (SetSrc u) st)
                  | None => st
                  end in
        (st, url)
    | FetchFails => (st, if truthyString (audioUrl st) then audioUrl st else None)
    end.

(** [playWord] after [await ensureFreshAudioUrl()] has given [url]. *)
Definition playWordWith (url : option jsstring) (w : WordDisplay) (st : State) : State :=
  match url with
  | None => st
  | Some _ =>
      let st := stopSegmentTimer (stopTts st) in
      match timing w with
      | None => setErr (Some NoTimingForWord) st
      | Some t =>
          let start := Math_max 0 (startSec t - 0.05)%float in
          let end_ := Math_max (start + 0.02)%float (endSec t) in
          playSegment start end_ st
      end
  end.

Definition playWord (world : World) (w : WordDisplay) (st : State) : State :=
  let (st, url) := ensureFreshAudioUrl world st in
  playWordWith url w st.

(** One turn of the event loop. *)
Inductive Event :=
| CallPlaySegment (startSec endSec : float)
| Resume (token : nat)
| GiveUp (token : nat)
| TimeoutFires (id : positive)
| TimeUpdate (currentTime : float)
| CallEnsureFreshAudioUrl (world : World)
| ResumePlayWord (url : option jsstring) (w : WordDisplay)
| CallResetRunState
| CallToggleTts.

Definition takeRequest (token : nat) (st : State) : option Request * State :=
  match find (fun r => (req_token r =? token)%nat) (suspended st) with
  | Some r =>
      (Some r,
       with_loop st (nextTimeout st)
         (filter (fun r => negb (req_token r =? token)%nat) (suspended st)))
  | None => (None, st)
  end.

Definition takeTimeout (id : positive) (st : State) : option Timeout * State :=
  match find (fun t => Pos.eqb (timeout_id t) id) (timeouts st) with
  | Some t =>
      (Some t,
       with_player st (audioCalls st) (playTokenRef st) (segmentRef st)
         (segmentTimerRef st) (clearTimeout id (timeouts st)))
  | None => (None, st)
  end.

Definition step (st : State) (e : Event) : State :=
  match e with
  | CallPlaySegment startSec endSec => playSegment startSec endSec st
  | Resume token =>
      match takeRequest token st with
      | (Some r, st) => doSeekPlay r st
      | (None, st) => st
      end
  | GiveUp token => snd (takeRequest token st)
  | TimeoutFires id =>
      match takeTimeout id st with
      | (Some t, st) => stopTimer (timeout_token t) st
      | (None, st) => st
      end
  | TimeUpdate currentTime => if audioRef st then onTime currentTime st else st
  | CallEnsureFreshAudioUrl world => fst (ensureFreshAudioUrl world st)
  | ResumePlayWord url w => playWordWith url w st
  | CallResetRunState => resetRunState st
  | CallToggleTts => toggleTts st
  end.

Definition run (st : State) (events : list Event) : State :=
  fold_left step events st.

End WithRound.

(** The state when the page is first rendered. *)
Definition initial (mounted : bool) (key : option jsstring) : State :=
  {| audioRef := mounted; audioCalls := []; playTokenRef := 0;
     segmentRef := None; segmentTimerRef := None; timeouts := [];
     nextTimeout := 1%positive; suspended := [];
     audioKey := key; audioUrl := None; audioUrlAt := None; err := None;
     ttsSpeaking := false |}.

End Playback.
Import Playback.

(** ** Definitions used to state the properties *)

Local Open Scope string_scope.
Local Open Scope list_scope.

(** The four places where a response may hold the list, in the order the
    extractor reads them. *)
Definition candidatePaths (speechace : value) : list value :=
  [ oget (oget (oget speechace "text_score") "speechace_score") "word_score_list";
    oget (oget speechace "text_score") "word_score_list";
    oget (oget speechace "speechace_score") "word_score_list";
    oget speechace "word_score_list" ].

Definition isArray (v : value) : bool :=
  match v with Arr _ => true | _ => false end.

Definition itemsOf (v : option value) : list value :=
  match v with Some (Arr items) => items | _ => [] end.

(** The extractor as the specification words it: the first candidate that
    is a list. *)
Definition firstListCandidate (speechace : value) : list value :=
  itemsOf (find isArray (candidatePaths speechace)).

(** What the extractor does: the first candidate that is neither null nor
    undefined, when that one is a list. *)
Definition firstPresentCandidate (speechace : value) : list value :=
  itemsOf (find (fun v => negb (nullish v)) (candidatePaths speechace)).

(** A value that JSON.parse can give: no [undefined] inside, and every
    number finite. *)
Fixpoint parsed (v : value) : bool :=
  match v with
  | Undefined => false
  | Num n => is_finite n
  | Arr items => forallb parsed items
  | Obj fields => forallb (fun kv => parsed (snd kv)) fields
  | _ => true
  end.

(** A stand-in for [Number] on the strings of the examples: the value of
    a string of decimal digits (exact below 2^53), 0 for the empty string
    and NaN for any other string. *)
Fixpoint digitsToNumber (acc : float) (s : jsstring) : float :=
  match s with
  | [] => acc
  | c :: s' =>
      if ((48 <=? c) && (c <=? 57))%N
      then digitsToNumber (acc * 10 + of_uint63 (Uint63.of_Z (Z.of_N (c - 48))))%float s'
      else nan
  end.
Definition decimalToNumber (s : jsstring) : float := digitsToNumber 0%float s.

Definition numberOf (StringToNumber : jsstring -> float) (x : value) : float :=
  match x with
  | Str s => StringToNumber s
  | Num n => n
  | _ => nan
  end.

(** The unit heuristic: above 1000 a bound is in milliseconds. *)
Definition seconds (n : float) : float :=
  if (1000 <? n)%float then (n / 1000)%float else n.

(** A bound that is present and is a finite number. *)
Definition usable (StringToNumber : jsstring -> float) (x : value) : bool :=
  negb (nullish x) && is_finite (numberOf StringToNumber x).

Definition phoneWithExtent (a b : float) : value :=
  Obj [("phone", Str (str "ah")); ("extent", Arr [Num a; Num b])].

Definition misplacedList : value :=
  Obj [("text_score",
        Obj [("speechace_score", Obj [("word_score_list", Str (str "n/a"))]);
             ("word_score_list", Arr [Obj [("word", Str (str "cat"))]])])].


Definition negativeStart : value := Obj [("start", Num (-5)); ("end", Num 3)].
Definition reversedBounds : value := Obj [("start", Num 5); ("end", Num 2)].

(** The texts of the word tokens, and the displays attached to them, in
    order. *)
Definition wordTexts (tokens : list Token) : list jsstring :=
  flat_map (fun t => match t with word_ text _ => [text] | _ => [] end) tokens.

Definition attachments (tokens : list Token) : list (option WordDisplay) :=
  flat_map (fun t => match t with word_ _ attach => [attach] | _ => [] end) tokens.

(** The upper-case ASCII letters, and the lower-case ASCII letters and
    digits. *)
Definition isUpper (c : code_unit) : bool := ((65 <=? c) && (c <=? 90))%N.
Definition isLowerAlnum (c : code_unit) : bool :=
  ((48 <=? c) && (c <=? 57) || (97 <=? c) && (c <=? 122))%N.

(** A stand-in for [toLowerCase] on the strings of the examples: it
    agrees with the built-in on ASCII strings. *)
Definition asciiLower (s : jsstring) : jsstring :=
  map (fun c => if isUpper c then (c + 32)%N else c) s.

(** A stand-in for [String] on the values of the examples: it agrees
    with the built-in on strings. *)
Definition stringOf (v : value) : jsstring :=
  match v with
  | Str s => s
  | _ => []
  end.

(** The string a record offers as its word: [record?.word], or the empty
    string when that is falsy. *)
Definition offeredWord (record : value) : value :=
  or_else (oget record "word") (Str []).

(** A score record: an object whose word, when there is one, is a
    string. *)
Definition scoreRecord (record : value) : bool :=
  match record, offeredWord record with
  | Obj _, Str _ => true
  | _, _ => false
  end.

(** The normalized word of a score record. *)
Definition candidateWord (toLowerCase : jsstring -> jsstring) (record : value) : jsstring :=
  match offeredWord record with
  | Str t => normalizeString toLowerCase t
  | _ => []
  end.


Definition wordRecord (w : string) (q : float) : value :=
  Obj [("word", Str (str w)); ("quality_score", Num q)].

(** Five records for "the", "uh", "cat", "sat" and "mat". *)
Definition fiveRecords : list value :=
  [wordRecord "the" 90; wordRecord "uh" 10; wordRecord "Cat." 40;
   wordRecord "sat" 95; wordRecord "mat" 70].

Definition oneRecord : value := Obj [("word_score_list", Arr [wordRecord "the" 90])].

(** A stand-in for [Math.round] on the delays of the examples: it agrees
    with the built-in on whole numbers. *)
Definition roundWhole (x : float) : float := x.

(** The calls that move or start the audio. *)
Definition seeksOrPlays (c : AudioCall) : bool :=
  match c with
  | Play | SetCurrentTime _ => true
  | _ => false
  end.

Definition untimedWord : WordDisplay :=
  {| idx := 0; word := str "cat"; quality := None; phones := []; timing := None |}.

Definition quietWorld : World :=
  {| now := 1000; nowAfter := 1001; fetched := FetchGives (Some (str "blob:rec")) |}.

Definition timedRecord (w : string) (q a b : float) : value :=
  Obj [("word", Str (str w)); ("quality_score", Num q);
       ("phone_score_list", Arr [phoneWithExtent a b])].

(** The response of the scenario: "the", "cat" and "sat" with qualities
    90, 40 and 95 and extents [0,50], [50,150] and [150,220]. *)
Definition scenario : value :=
  Obj [("text_score",
        Obj [("word_score_list",
              Arr [timedRecord "the" 90 0 50; timedRecord "cat" 40 50 150;
                   timedRecord "sat" 95 150 220])])].

(** ** Facts about binary64 arithmetic, from the specification of the
    primitive operations *)

Module FloatFacts.

Local Open Scope float_scope.

(** Zero or above, as a specification float: a zero of either sign, a
    positive finite number or +Infinity. *)
Definition SFnonneg (x : spec_float) : bool :=
  match x with
  | S754_zero _ => true
  | S754_infinity s | S754_finite s _ _ => negb s
  | S754_nan => false
  end.

Definition SFfinite (x : spec_float) : bool :=
  match x with
  | S754_zero _ | S754_finite _ _ _ => true
  | _ => false
  end.

Definition SFnot_nan (x : spec_float) : bool :=
  match x with S754_nan => false | _ => true end.

Lemma compare_cont_refl m : Pos.compare_cont Eq m m = Eq.
Proof. apply Pos.compare_cont_refl. Qed.

Lemma SFcompare_refl x : SFnot_nan x = true -> SFcompare x x = Some Eq.
Proof.
  destruct x as [s|s| |s m e]; simpl; try discriminate; intros _.
  - reflexivity.
  - destruct s; reflexivity.
  - rewrite Z.compare_refl, compare_cont_refl. destruct s; reflexivity.
Qed.

Lemma SFcompare_antisym x y :
  SFcompare y x = option_map CompOpp (SFcompare x y).
Proof.
  destruct x as [s|s| |s m e], y as [s'|s'| |s' m' e']; simpl; try reflexivity;
    try (destruct s; reflexivity); try (destruct s'; reflexivity);
    try (destruct s, s'; reflexivity).
  assert (Hm : Pos.compare_cont Eq m' m = CompOpp (Pos.compare_cont Eq m m')).
  { symmetry. apply (Pos.compare_cont_antisym m m' Eq). }
  destruct s, s'; simpl; try reflexivity;
    rewrite (Z.compare_antisym e e'), Hm;
    destruct (e ?= e')%Z; simpl; try reflexivity;
    destruct (Pos.compare_cont Eq m m'); reflexivity.
Qed.

Lemma SFcompare_total x y :
  SFnot_nan x = true -> SFnot_nan y = true -> exists c, SFcompare x y = Some c.
Proof.
  destruct x, y; simpl; try discriminate; eauto.
Qed.

Lemma is_nan_spec x : is_nan x = negb (SFnot_nan (Prim2SF x)).
Proof.
  unfold is_nan. rewrite eqb_spec. unfold SFeqb.
  destruct (Prim2SF x) as [s|s| |s m e] eqn:E; simpl; try reflexivity.
  - destruct s; reflexivity.
  - rewrite Z.compare_refl, compare_cont_refl. destruct s; reflexivity.
Qed.

Lemma leb_not_nan a b :
  (a <=? b) = true -> is_nan a = false /\ is_nan b = false.
Proof.
  rewrite leb_spec, !is_nan_spec. unfold SFleb.
  destruct (Prim2SF a), (Prim2SF b); simpl; try discriminate; auto.
Qed.

Lemma ltb_not_nan a b :
  (a <? b) = true -> is_nan a = false /\ is_nan b = false.
Proof.
  rewrite ltb_spec, !is_nan_spec. unfold SFltb.
  destruct (Prim2SF a), (Prim2SF b); simpl; try discriminate; auto.
Qed.

Lemma ltb_leb a b : (a <? b) = true -> (a <=? b) = true.
Proof.
  rewrite ltb_spec, leb_spec. unfold SFltb, SFleb.
  destruct (SFcompare _ _) as [[]|]; auto.
Qed.

Lemma leb_ltb_false a b : (b <=? a) = true -> (a <? b) = false.
Proof.
  rewrite ltb_spec, leb_spec. unfold SFltb, SFleb.
  rewrite (SFcompare_antisym (Prim2SF b) (Prim2SF a)).
  destruct (SFcompare (Prim2SF b) (Prim2SF a)) as [[]|]; simpl; auto; discriminate.
Qed.

Lemma leb_refl a : is_nan a = false -> (a <=? a) = true.
Proof.
  rewrite is_nan_spec, leb_spec. unfold SFleb. intros H.
  rewrite SFcompare_refl; auto. now destruct (SFnot_nan _).
Qed.

Lemma eqb_refl a : is_nan a = false -> (a =? a) = true.
Proof. unfold is_nan. now destruct (a =? a). Qed.

Lemma ltb_total a b :
  is_nan a = false -> is_nan b = false -> (a <? b) = false -> (b <=? a) = true.
Proof.
  rewrite !is_nan_spec, ltb_spec, leb_spec. unfold SFltb, SFleb.
  rewrite (SFcompare_antisym (Prim2SF a) (Prim2SF b)).
  intros Ha Hb.
  destruct (SFcompare_total (Prim2SF a) (Prim2SF b)) as [c ->].
  - now destruct (SFnot_nan (Prim2SF a)).
  - now destruct (SFnot_nan (Prim2SF b)).
  - destruct c; simpl; auto; discriminate.
Qed.

Lemma zero_leb x : (0 <=? x) = SFnonneg (Prim2SF x).
Proof.
  rewrite leb_spec. change (Prim2SF 0) with (S754_zero false).
  unfold SFleb. destruct (Prim2SF x) as [s|s| |s m e]; simpl; auto; destruct s; auto.
Qed.

Lemma zero_ltb_nonneg x : (0 <? x) = true -> SFnonneg (Prim2SF x) = true.
Proof. intros H. apply ltb_leb in H. now rewrite zero_leb in H. Qed.

(** Above a number that is zero or more. *)
Lemma SFltb_nonneg x y :
  SFnonneg x = true -> SFltb x y = true -> SFnonneg y = true.
Proof.
  unfold SFltb.
  destruct x as [s|s| |s m e], y as [s'|s'| |s' m' e']; simpl; try discriminate; auto;
    destruct s; try discriminate; destruct s'; simpl; auto; discriminate.
Qed.

(** ** Rounding keeps the sign *)

Definition signed (s : bool) (x : spec_float) : Prop :=
  match x with
  | S754_zero s' | S754_infinity s' | S754_finite s' _ _ => s' = s
  | S754_nan => False
  end.

Lemma shr_1_nonneg mrs : (0 <= shr_m mrs)%Z -> (0 <= shr_m (shr_1 mrs))%Z.
Proof.
  destruct mrs as [m r s]. simpl. destruct m as [|p|p]; simpl; try lia.
  destruct p; simpl; lia.
Qed.

Lemma iter_shr_1_nonneg p mrs :
  (0 <= shr_m mrs)%Z -> (0 <= shr_m (iter_pos shr_1 p mrs))%Z.
Proof.
  revert mrs. induction p as [p IH|p IH|]; simpl; intros mrs H.
  - apply IH, IH, shr_1_nonneg, H.
  - apply IH, IH, H.
  - apply shr_1_nonneg, H.
Qed.

Lemma shr_fexp_nonneg prec emax m e l :
  (0 <= m)%Z -> (0 <= shr_m (fst (shr_fexp prec emax m e l)))%Z.
Proof.
  intros H. unfold shr_fexp, shr.
  assert (H0 : (0 <= shr_m (shr_record_of_loc m l))%Z).
  { destruct l as [|[]]; simpl; exact H. }
  destruct (fexp prec emax (Zdigits2 m + e) - e)%Z; simpl; auto.
  now apply iter_shr_1_nonneg.
Qed.

Lemma round_nearest_even_nonneg m l :
  (0 <= m)%Z -> (0 <= round_nearest_even m l)%Z.
Proof.
  intros H. destruct l as [|[]]; simpl; try lia. destruct (Z.even m); lia.
Qed.

Lemma binary_round_aux_signed prec emax s m e l :
  (0 <= m)%Z -> signed s (binary_round_aux prec emax s m e l).
Proof.
  intros H. unfold binary_round_aux.
  pose proof (shr_fexp_nonneg prec emax m e l H) as H1.
  destruct (shr_fexp prec emax m e l) as [mrs' e']. simpl in H1.
  pose proof (shr_fexp_nonneg prec emax _ e' loc_Exact
                (round_nearest_even_nonneg _ (loc_of_shr_record mrs') H1)) as H2.
  destruct (shr_fexp prec emax _ e' loc_Exact) as [mrs'' e'']. simpl in H2.
  destruct (shr_m mrs'') as [|p|p]; simpl; [reflexivity| |lia].
  destruct (e'' <=? emax - prec)%Z; reflexivity.
Qed.

Lemma binary_round_signed prec emax s m e :
  signed s (binary_round prec emax s m e).
Proof.
  unfold binary_round. destruct (shl_align _ _ _) as [mz ez].
  apply binary_round_aux_signed. lia.
Qed.

Lemma signed_nonneg x : signed false x -> SFnonneg x = true.
Proof. destruct x; simpl; intros H; try rewrite H; auto. Qed.

Lemma nonneg_not_nan x : SFnonneg x = true -> SFnot_nan x = true.
Proof. destruct x; simpl; auto. Qed.

(** ** Sums, products and quotients of numbers that are zero or more *)

Lemma SFadd_nonneg prec emax x y :
  SFnonneg x = true -> SFnonneg y = true ->
  SFnonneg (SFadd prec emax x y) = true.
Proof.
  destruct x as [s|s| |s m e], y as [s'|s'| |s' m' e']; simpl; try discriminate; auto;
    try (destruct s; try discriminate; destruct s'; try discriminate; simpl; auto; fail);
    try (destruct s, s'; simpl; auto; fail).
  destruct s; try discriminate. destruct s'; try discriminate. intros _ _.
  simpl. apply signed_nonneg.
  destruct (shl_align m e (Z.min e e')) as [m1 e1].
  destruct (shl_align m' e' (Z.min e e')) as [m2 e2]. simpl.
  apply binary_round_signed.
Qed.

Lemma SFmul_finite prec emax x y :
  SFfinite x = true -> SFfinite y = true ->
  SFnot_nan (SFmul prec emax x y) = true.
Proof.
  destruct x as [s|s| |s m e], y as [s'|s'| |s' m' e']; simpl; try discriminate; auto.
  intros _ _.
  pose proof (binary_round_aux_signed prec emax (xorb s s') (Z.pos (m * m')) (e + e')
                loc_Exact ltac:(lia)) as H.
  destruct (binary_round_aux _ _ _ _ _ _); simpl in *; auto.
Qed.

Lemma SFdiv_core_nonneg prec emax m1 e1 m2 e2 :
  (0 <= fst (fst (SFdiv_core_binary prec emax (Z.pos m1) e1 (Z.pos m2) e2)))%Z.
Proof.
  unfold SFdiv_core_binary.
  set (s := (e1 - e2 - _)%Z).
  set (m' := match s with Z0 => Z.pos m1 | Z.pos _ => Z.shiftl (Z.pos m1) s | Z.neg _ => 0%Z end).
  assert (Hm : (0 <= m')%Z).
  { subst m'. destruct s; try lia. apply Z.shiftl_nonneg. lia. }
  pose proof (Z_div_mod m' (Z.pos m2) ltac:(lia)) as H.
  destruct (Z.div_eucl m' (Z.pos m2)) as [q r]. simpl.
  destruct H as [H1 H2]. nia.
Qed.

Lemma SFdiv_nonneg prec emax x y :
  SFnonneg x = true -> SFfinite x = true ->
  SFnonneg y = true -> SFfinite y = true -> y <> S754_zero false -> y <> S754_zero true ->
  SFnonneg (SFdiv prec emax x y) = true.
Proof.
  destruct x as [s|s| |s m e], y as [s'|s'| |s' m' e']; simpl; try discriminate; auto;
    try (intros; destruct s'; congruence).
  destruct s; try discriminate. destruct s'; try discriminate. intros _ _ _ _ _ _.
  pose proof (SFdiv_core_nonneg prec emax m e m' e') as H.
  destruct (SFdiv_core_binary _ _ _ _ _ _) as [[mz ez] lz]. simpl in H.
  apply signed_nonneg. simpl. now apply binary_round_aux_signed.
Qed.

Definition SFpos_finite (x : spec_float) : bool :=
  match x with S754_finite false _ _ => true | _ => false end.

Lemma SFadd_signed prec emax x y :
  SFnonneg x = true -> SFpos_finite y = true ->
  signed false (SFadd prec emax x y).
Proof.
  destruct y as [s'|s'| |s' m' e']; simpl; try discriminate.
  destruct s'; try discriminate. intros Hx _.
  destruct x as [s|s| |s m e]; simpl in *; try discriminate; auto.
  - now destruct s.
  - destruct s; try discriminate. simpl.
    destruct (shl_align m e (Z.min e e')) as [m1 e1].
    destruct (shl_align m' e' (Z.min e e')) as [m2 e2]. simpl.
    apply binary_round_signed.
Qed.

(** ** The order of the comparison is a lexicographic order *)

Definition key (x : spec_float) : Z * Z * Z :=
  match x with
  | S754_infinity true => (-2, 0, 0)
  | S754_finite true m e => (-1, - e, - Z.pos m)
  | S754_zero _ | S754_nan => (0, 0, 0)
  | S754_finite false m e => (1, e, Z.pos m)
  | S754_infinity false => (2, 0, 0)
  end%Z.

Definition lex (k k' : Z * Z * Z) : comparison :=
  let '(a, b, c) := k in
  let '(a', b', c') := k' in
  match (a ?= a')%Z with
  | Eq => match (b ?= b')%Z with Eq => (c ?= c')%Z | r => r end
  | r => r
  end.

Lemma SFcompare_key x y :
  SFnot_nan x = true -> SFnot_nan y = true ->
  SFcompare x y = Some (lex (key x) (key y)).
Proof.
  destruct x as [s|s| |s m e], y as [s'|s'| |s' m' e']; simpl; try discriminate;
    intros _ _; try (destruct s; reflexivity); try (destruct s'; reflexivity);
    try (destruct s, s'; reflexivity).
  destruct s, s'; simpl; try reflexivity.
  rewrite Z.compare_opp, (Z.compare_antisym e e').
  destruct (e ?= e')%Z; reflexivity.
Qed.

Definition lexlt (k k' : Z * Z * Z) : Prop :=
  let '(a, b, c) := k in
  let '(a', b', c') := k' in
  (a < a' \/ (a = a' /\ (b < b' \/ (b = b' /\ c < c'))))%Z.

Definition lexle (k k' : Z * Z * Z) : Prop :=
  let '(a, b, c) := k in
  let '(a', b', c') := k' in
  (a < a' \/ (a = a' /\ (b < b' \/ (b = b' /\ c <= c'))))%Z.

Lemma lex_lt k k' : lex k k' = Lt <-> lexlt k k'.
Proof.
  destruct k as [[a b] c], k' as [[a' b'] c']. simpl.
  destruct (Z.compare_spec a a'), (Z.compare_spec b b'), (Z.compare_spec c c');
    split; intros ?; try discriminate; try reflexivity; try lia.
Qed.

Lemma lex_le k k' : lex k k' <> Gt <-> lexle k k'.
Proof.
  destruct k as [[a b] c], k' as [[a' b'] c']. simpl.
  destruct (Z.compare_spec a a'), (Z.compare_spec b b'), (Z.compare_spec c c');
    split; intros ?; try discriminate; try congruence; try lia.
Qed.

Lemma SFltb_key x y : SFltb x y = true <-> SFnot_nan x = true /\ SFnot_nan y = true /\ lexlt (key x) (key y).
Proof.
  unfold SFltb. split.
  - intros H.
    assert (Hx : SFnot_nan x = true) by (destruct x, y; simpl in *; auto; discriminate).
    assert (Hy : SFnot_nan y = true) by (destruct x, y; simpl in *; auto; discriminate).
    rewrite (SFcompare_key x y Hx Hy) in H. repeat split; auto.
    apply lex_lt. now destruct (lex _ _).
  - intros (Hx & Hy & H). rewrite (SFcompare_key x y Hx Hy).
    apply lex_lt in H. now rewrite H.
Qed.

Lemma SFleb_key x y : SFleb x y = true <-> SFnot_nan x = true /\ SFnot_nan y = true /\ lexle (key x) (key y).
Proof.
  unfold SFleb. split.
  - intros H.
    assert (Hx : SFnot_nan x = true) by (destruct x, y; simpl in *; auto; discriminate).
    assert (Hy : SFnot_nan y = true) by (destruct x, y; simpl in *; auto; discriminate).
    rewrite (SFcompare_key x y Hx Hy) in H. repeat split; auto.
    apply lex_le. destruct (lex _ _); congruence.
  - intros (Hx & Hy & H). rewrite (SFcompare_key x y Hx Hy).
    apply lex_le in H. destruct (lex _ _); congruence.
Qed.

Lemma lexlt_le_trans k1 k2 k3 : lexlt k1 k2 -> lexle k2 k3 -> lexlt k1 k3.
Proof.
  destruct k1 as [[a b] c], k2 as [[a' b'] c'], k3 as [[a'' b''] c'']. simpl. lia.
Qed.

Lemma lexle_trans k1 k2 k3 : lexle k1 k2 -> lexle k2 k3 -> lexle k1 k3.
Proof.
  destruct k1 as [[a b] c], k2 as [[a' b'] c'], k3 as [[a'' b''] c'']. simpl. lia.
Qed.

Lemma ltb_leb_trans a b c :
  (a <? b) = true -> (b <=? c) = true -> (a <? c) = true.
Proof.
  rewrite !ltb_spec, leb_spec, !SFltb_key, SFleb_key.
  intros (Ha & Hb & H1) (_ & Hc & H2). repeat split; auto.
  eapply lexlt_le_trans; eauto.
Qed.

Lemma leb_trans a b c :
  (a <=? b) = true -> (b <=? c) = true -> (a <=? c) = true.
Proof.
  rewrite !leb_spec, !SFleb_key.
  intros (Ha & Hb & H1) (_ & Hc & H2). repeat split; auto.
  eapply lexle_trans; eauto.
Qed.

(** ** The primitive operations *)

Lemma is_finite_spec x : is_finite x = SFfinite (Prim2SF x).
Proof.
  unfold is_finite, is_infinity. rewrite is_nan_spec, eqb_spec, abs_spec.
  change (Prim2SF infinity) with (S754_infinity false).
  unfold SFeqb. destruct (Prim2SF x) as [s|s| |s m e]; reflexivity.
Qed.

Lemma finite_not_nan x : is_finite x = true -> is_nan x = false.
Proof.
  rewrite is_finite_spec, is_nan_spec. now destruct (Prim2SF x).
Qed.

Lemma is_neg_zero_spec x :
  is_neg_zero x = match Prim2SF x with S754_zero true => true | _ => false end.
Proof.
  unfold is_neg_zero. rewrite classify_spec. unfold SF64classify, SFclassify.
  destruct (Prim2SF x) as [[]|[]| |[] m e]; try reflexivity;
    destruct (Z.pos (digits2_pos m) =? prec)%Z; reflexivity.
Qed.

Lemma is_pos_zero_spec x :
  is_pos_zero x = match Prim2SF x with S754_zero false => true | _ => false end.
Proof.
  unfold is_pos_zero. rewrite classify_spec. unfold SF64classify, SFclassify.
  destruct (Prim2SF x) as [[]|[]| |[] m e]; try reflexivity;
    destruct (Z.pos (digits2_pos m) =? prec)%Z; reflexivity.
Qed.

Lemma mul_not_nan a b :
  is_finite a = true -> is_finite b = true -> is_nan (a * b) = false.
Proof.
  rewrite !is_finite_spec, is_nan_spec, mul_spec. intros Ha Hb.
  unfold SF64mul. now rewrite SFmul_finite.
Qed.

Lemma add_nan_l a b : is_nan (a + b) = false -> is_nan a = false.
Proof.
  rewrite !is_nan_spec, add_spec. unfold SF64add.
  destruct (Prim2SF a); simpl; auto.
Qed.

Lemma add_nonneg a b :
  (0 <=? a) = true -> (0 <=? b) = true -> (0 <=? a + b) = true.
Proof.
  rewrite !zero_leb, add_spec. apply SFadd_nonneg.
Qed.

Lemma add_positive_not_neg_zero a b :
  (0 <=? a) = true -> SFpos_finite (Prim2SF b) = true ->
  is_neg_zero (a + b) = false.
Proof.
  rewrite zero_leb, is_neg_zero_spec, add_spec. intros Ha Hb.
  pose proof (SFadd_signed prec emax _ _ Ha Hb) as H. unfold SF64add.
  destruct (SFadd _ _ _ _) as [[]|[]| |[] m e]; simpl in *; auto; discriminate.
Qed.

Lemma div_nonneg a b :
  is_finite a = true -> (0 <=? a) = true -> SFpos_finite (Prim2SF b) = true ->
  (0 <=? a / b) = true.
Proof.
  rewrite is_finite_spec, !zero_leb, div_spec. intros Hf Ha Hb.
  unfold SF64div. apply SFdiv_nonneg; auto;
    destruct (Prim2SF b) as [[]|[]| |[] m e]; simpl in *; auto; discriminate.
Qed.

(** ** Math.max *)

Lemma neg_infinity_ltb a :
  is_nan a = false -> (neg_infinity <? a) = false -> a = neg_infinity.
Proof.
  rewrite is_nan_spec, ltb_spec. change (Prim2SF neg_infinity) with (S754_infinity true).
  intros Hn H. apply Prim2SF_inj. change (Prim2SF neg_infinity) with (S754_infinity true).
  unfold SFltb in H.
  destruct (Prim2SF a) as [s|[]| |[] m e]; simpl in *; try discriminate; reflexivity.
Qed.

Lemma max_step_first a : is_nan a = false -> max_step neg_infinity a = a.
Proof.
  intros Hn. unfold max_step.
  change (is_neg_zero neg_infinity) with false. rewrite andb_false_r.
  destruct (neg_infinity <? a) eqn:E; auto.
  symmetry. now apply neg_infinity_ltb.
Qed.

Lemma Math_max_eq a b :
  Math_max a b =
    if is_nan a || is_nan b then nan
    else if is_pos_zero b && is_neg_zero a then b
    else if a <? b then b else a.
Proof.
  unfold Math_max. destruct (is_nan a) eqn:Ha; simpl; auto.
  destruct (is_nan b); auto. now rewrite max_step_first.
Qed.

Lemma Math_max_zero x :
  Math_max 0 x = if is_nan x then nan else if 0 <? x then x else 0.
Proof.
  rewrite Math_max_eq. change (is_nan 0) with false. change (is_neg_zero 0) with false.
  simpl. now rewrite andb_false_r.
Qed.

Lemma Math_max_zero_nonneg x :
  is_nan x = false -> (0 <=? Math_max 0 x) = true.
Proof.
  intros H. rewrite Math_max_zero, H.
  destruct (0 <? x) eqn:E; [now apply ltb_leb | reflexivity].
Qed.

Lemma Math_max_not_nan a b :
  is_nan a = false -> is_nan b = false -> is_nan (Math_max a b) = false.
Proof.
  intros Ha Hb. rewrite Math_max_eq, Ha, Hb. simpl.
  destruct (is_pos_zero b && is_neg_zero a); auto. destruct (a <? b); auto.
Qed.

Lemma Math_max_nan a b : is_nan (Math_max a b) = false -> is_nan a = false /\ is_nan b = false.
Proof.
  rewrite Math_max_eq. destruct (is_nan a), (is_nan b); simpl; auto.
Qed.

Lemma Math_max_ge_l a b :
  is_nan a = false -> is_nan b = false -> (a <=? Math_max a b) = true.
Proof.
  intros Ha Hb. rewrite Math_max_eq, Ha, Hb. simpl.
  destruct (is_pos_zero b && is_neg_zero a) eqn:Z.
  - apply andb_prop in Z. destruct Z as [Zb Za].
    rewrite is_pos_zero_spec in Zb. rewrite is_neg_zero_spec in Za.
    rewrite leb_spec.
    destruct (Prim2SF a) as [[]|[]| |[] m e]; try discriminate.
    destruct (Prim2SF b) as [[]|[]| |[] m e]; try discriminate. reflexivity.
  - destruct (a <? b) eqn:E; [now apply ltb_leb | now apply leb_refl].
Qed.

(** The floor: a second argument at or below the first is absorbed. *)
Lemma Math_max_floor a b :
  is_neg_zero a = false -> (b <=? a) = true -> Math_max a b = a.
Proof.
  intros Hz H. rewrite Math_max_eq.
  destruct (leb_not_nan _ _ H) as [Hb Ha]. rewrite Ha, Hb, Hz, andb_false_r. simpl.
  now rewrite (leb_ltb_false _ _ H).
Qed.

End FloatFacts.
Import FloatFacts.

(** ** The score extractor *)

Lemma oget_get v k :
  nullish v = false -> get v k = Returns (oget v k).
Proof. destruct v; simpl; try discriminate; reflexivity. Qed.

Lemma oget_nullish v k : nullish v = true -> oget v k = Undefined.
Proof. destruct v; simpl; try discriminate; reflexivity. Qed.

(** C5 as stated fails: when the first path holds a string and the
    second a list, the extractor returns the empty list, not the list. *)
Lemma getWordScoreList_skips_later_list :
  getWordScoreList misplacedList = []
  /\ firstListCandidate misplacedList = [Obj [("word", Str (str "cat"))]].
Proof. split; reflexivity. Qed.

(** C5, amended: for every response, the extractor reads its four paths
    in order (under text_score.speechace_score, under text_score, under
    speechace_score and at the top level), takes the first candidate that
    is neither null nor undefined, and returns it when it is a list and the
    empty list otherwise, also when no path holds a value. It is a total
    function of the response: it is made of optional accesses only, which
    never throw. *)
Theorem getWordScoreList_first_present speechace :
  getWordScoreList speechace = firstPresentCandidate speechace.
Proof.
  unfold getWordScoreList, firstPresentCandidate, candidatePaths, coalesce. simpl.
  repeat match goal with |- context [nullish ?v] => destruct (nullish v) eqn:? end; simpl; try reflexivity.
Qed.

(** ** The timing resolver *)

Section TimingFacts.

Local Open Scope float_scope.
Variable StringToNumber : jsstring -> float.

Lemma toNumberSec_eq x :
  toNumberSec StringToNumber x =
    if usable StringToNumber x then Some (seconds (numberOf StringToNumber x)) else None.
Proof.
  unfold toNumberSec, usable, seconds, numberOf.
  destruct (nullish x); simpl; auto.
  destruct (is_finite _); simpl; auto.
  destruct (1000 <? _); auto.
Qed.

Lemma seconds_nonneg_or n :
  is_finite n = true -> is_nan (seconds n) = false.
Proof.
  intros Hf. unfold seconds. destruct (1000 <? n) eqn:E.
  - assert (H0 : (0 <=? n) = true).
    { apply ltb_leb in E. eapply leb_trans; [|exact E]. reflexivity. }
    pose proof (div_nonneg n 1000 Hf H0 eq_refl) as H.
    now destruct (leb_not_nan _ _ H).
  - now apply finite_not_nan.
Qed.

Lemma toNumberSec_not_nan x s :
  toNumberSec StringToNumber x = Some s -> is_nan s = false.
Proof.
  rewrite toNumberSec_eq. unfold usable.
  destruct (nullish x); simpl; try discriminate.
  destruct (is_finite _) eqn:E; try discriminate.
  intros [= <-]. now apply seconds_nonneg_or.
Qed.

Lemma timingFromItem_eq item :
  nullish item = false ->
  timingFromItem StringToNumber item =
    Returns
      (match toNumberSec StringToNumber (coalesce (oget item "start_time") (oget item "start")),
             toNumberSec StringToNumber (coalesce (oget item "end_time") (oget item "end")) with
       | Some s, Some e => Some {| startSec := Math_max 0 s; endSec := Math_max 0 e |}
       | _, _ => None
       end).
Proof.
  intros H. unfold timingFromItem, coalesce.
  rewrite !(oget_get _ _ H). simpl.
  destruct (nullish (oget item "start_time")); simpl;
    destruct (nullish (oget item "end_time")); simpl;
    repeat match goal with |- context [toNumberSec ?f ?x] => destruct (toNumberSec f x) end;
    reflexivity.
Qed.

Lemma timingFromItem_throws item :
  nullish item = true -> timingFromItem StringToNumber item = Throws TypeError.
Proof. destruct item; simpl; try discriminate; reflexivity. Qed.

End TimingFacts.

Section PhoneExtents.

Local Open Scope float_scope.

Lemma timingFromPhoneExtents_inv phones t :
  timingFromPhoneExtents phones = Some t ->
  exists l s e s0 e1,
    phones = Arr l /\ l <> []
    /\ oget (index l 0) "extent" = Arr s
    /\ oget (index l (length l - 1)) "extent" = Arr e
    /\ index s 0 = Num s0 /\ index e 1 = Num e1
    /\ t = {| startSec := Math_max 0 (s0 * 0.01);
              endSec := Math_max (Math_max 0 (s0 * 0.01) + 0.02) (e1 * 0.01) |}.
Proof.
  unfold timingFromPhoneExtents.
  destruct phones as [| | | | |l|]; try discriminate.
  destruct l as [|p l]; [discriminate|].
  change (length (p :: l) <? 1)%nat with false. cbv iota.
  set (l0 := p :: l).
  destruct (oget (index l0 0) "extent") as [| | | | |s|] eqn:Es; try discriminate.
  destruct (oget (index l0 (length l0 - 1)) "extent") as [| | | | |e|] eqn:Ee;
    try discriminate.
  cbv zeta.
  destruct (index s 0) as [| | |s0| | |] eqn:E0; try discriminate.
  destruct (index e 1) as [| | |e1| | |] eqn:E1; try discriminate.
  intros [= <-]. exists l0, s, e, s0, e1. repeat split; auto. discriminate.
Qed.

Lemma parsed_index l i :
  forallb parsed l = true -> index l i = Undefined \/ parsed (index l i) = true.
Proof.
  unfold index. revert i. induction l as [|v l IH]; intros [|i]; simpl; auto.
  - intros H. apply andb_prop in H. tauto.
  - intros H. apply andb_prop in H. apply IH. tauto.
Qed.

Lemma parsed_lookup k fields :
  forallb (fun kv => parsed (snd kv)) fields = true ->
  lookup k fields = Undefined \/ parsed (lookup k fields) = true.
Proof.
  induction fields as [|[k' v] fields IH]; simpl; auto.
  intros H. apply andb_prop in H. destruct H as [Hv H].
  destruct (String.eqb k k'); auto.
Qed.

Lemma parsed_oget v k :
  v = Undefined \/ parsed v = true ->
  oget v k = Undefined \/ parsed (oget v k) = true.
Proof.
  intros [->|H]; [now left|].
  destruct v; simpl in *; auto. now apply parsed_lookup.
Qed.

(** In a parsed list of phones the two bounds that give the timing are
    finite numbers. *)
Lemma parsed_extent_bound l k i a n :
  forallb parsed l = true ->
  oget (index l k) "extent" = Arr a -> index a i = Num n -> is_finite n = true.
Proof.
  intros Hl Ha Hn.
  destruct (parsed_oget (index l k) "extent" (parsed_index l k Hl)) as [H|H];
    rewrite Ha in H; [discriminate|].
  simpl in H. destruct (parsed_index a i H) as [H'|H']; rewrite Hn in H';
    [discriminate | exact H'].
Qed.

End PhoneExtents.

(** C3: when the list of phones is not empty, the extent of the first
    phone is a list whose first element is the number [s0] and the extent of
    the last phone is a list whose second element is the number [e1], the
    resolver returns [startSec = max(0, s0 * 0.01)] and
    [endSec = max(startSec + 0.02, e1 * 0.01)]; and when [e1 * 0.01] is at
    most [startSec + 0.02], [endSec] is [startSec + 0.02] exactly. *)
Theorem timingFromPhoneExtents_formula (l s e : list value) (s0 e1 : float) :
  l <> [] ->
  oget (index l 0) "extent" = Arr s ->
  oget (index l (length l - 1)) "extent" = Arr e ->
  index s 0 = Num s0 ->
  index e 1 = Num e1 ->
  let start := Math_max 0 (s0 * 0.01)%float in
  let rawEnd := (e1 * 0.01)%float in
  timingFromPhoneExtents (Arr l)
    = Some {| startSec := start; endSec := Math_max (start + 0.02)%float rawEnd |}
  /\ ((rawEnd <=? start + 0.02)%float = true ->
      Math_max (start + 0.02)%float rawEnd = (start + 0.02)%float).
Proof.
  intros Hl Hs He H0 H1 start rawEnd. split.
  - unfold timingFromPhoneExtents.
    destruct l as [|p l]; [contradiction|].
    change (length (p :: l) <? 1)%nat with false. cbv iota.
    rewrite Hs, He. cbv zeta. rewrite H0, H1. reflexivity.
  - intros Hle. apply Math_max_floor; [|exact Hle].
    destruct (leb_not_nan _ _ Hle) as [_ Hn].
    apply add_positive_not_neg_zero; [|reflexivity].
    apply Math_max_zero_nonneg.
    apply add_nan_l in Hn. now destruct (Math_max_nan _ _ Hn).
Qed.

(** The extents [0,50] and [50,120] resolve to 0 s and 1.2 s, and the
    extents [100,100] and [100,101], whose raw end 1.01 is below the floor,
    to 1 s and 1.02 s. *)
Lemma timingFromPhoneExtents_formula_examples :
  timingFromPhoneExtents (Arr [phoneWithExtent 0 50; phoneWithExtent 50 120])
    = Some {| startSec := 0; endSec := 1.2 |}
  /\ Math_max (Math_max 0 (100 * 0.01) + 0.02) (101 * 0.01) = (1 + 0.02)%float.
Proof.
  split.
  - exact (proj1 (timingFromPhoneExtents_formula
                    [phoneWithExtent 0 50; phoneWithExtent 50 120]
                    [Num 0; Num 50] [Num 50; Num 120] 0 120
                    ltac:(discriminate) eq_refl eq_refl eq_refl eq_refl)).
  - exact (proj2 (timingFromPhoneExtents_formula
                    [phoneWithExtent 100 100; phoneWithExtent 100 101]
                    [Num 100; Num 100] [Num 100; Num 101] 100 101
                    ltac:(discriminate) eq_refl eq_refl eq_refl eq_refl) eq_refl).
Defined.

(** C6 as stated fails: a bound of -5 is not above 1000, yet it is not
    kept: the resolved start is 0. *)
Lemma timingFromItem_clamps_negative_start :
  oget negativeStart "start" = Num (-5)
  /\ (1000 <? -5)%float = false
  /\ timingFromItem decimalToNumber negativeStart
     = Returns (Some {| startSec := 0; endSec := 3 |})
  /\ (0 =? -5)%float = false.
Proof. repeat split. Qed.

(** C6, amended: on an item that is not null or undefined, each bound is
    read under its first name, or under its second name when the first is
    null or absent; a string is converted to a number; the resolver returns
    no interval unless both bounds are present and finite; a value above
    1000 is divided by 1000 and any other value is kept; and the result is
    then clamped below at 0, so that a value above 0 is unchanged and a
    value at or below 0 resolves to 0. *)
Theorem timingFromItem_units (StringToNumber : jsstring -> float) (item : value) :
  nullish item = false ->
  let startBound := coalesce (oget item "start_time") (oget item "start") in
  let endBound := coalesce (oget item "end_time") (oget item "end") in
  timingFromItem StringToNumber item
  = Returns
      (if usable StringToNumber startBound && usable StringToNumber endBound
       then Some {| startSec := Math_max 0 (seconds (numberOf StringToNumber startBound));
                    endSec := Math_max 0 (seconds (numberOf StringToNumber endBound)) |}
       else None)
  /\ (forall n, is_nan n = false ->
        Math_max 0 n = if (0 <? n)%float then n else 0%float).
Proof.
  intros H startBound endBound. split.
  - rewrite (timingFromItem_eq StringToNumber item H), !toNumberSec_eq.
    fold startBound endBound.
    destruct (usable StringToNumber startBound); simpl; auto.
    destruct (usable StringToNumber endBound); auto.
  - intros n Hn. now rewrite Math_max_zero, Hn.
Qed.

(** 1500 and 2300 resolve to 1.5 s and 2.3 s, as numbers and as strings;
    1.5 and 2.3 are unchanged; an item without an end has no interval. *)
Lemma timingFromItem_units_examples :
  timingFromItem decimalToNumber (Obj [("start", Num 1500); ("end", Num 2300)])
    = Returns (Some {| startSec := 1.5; endSec := 2.3 |})
  /\ timingFromItem decimalToNumber
       (Obj [("start_time", Str (str "1500")); ("end_time", Str (str "2300"))])
     = Returns (Some {| startSec := 1.5; endSec := 2.3 |})
  /\ timingFromItem decimalToNumber (Obj [("start", Num 1.5); ("end", Num 2.3)])
     = Returns (Some {| startSec := 1.5; endSec := 2.3 |})
  /\ timingFromItem decimalToNumber (Obj [("start", Num 1.5)]) = Returns None.
Proof.
  split; [|split; [|split]].
  - exact (proj1 (timingFromItem_units decimalToNumber
                    (Obj [("start", Num 1500); ("end", Num 2300)]) eq_refl)).
  - exact (proj1 (timingFromItem_units decimalToNumber
                    (Obj [("start_time", Str (str "1500")); ("end_time", Str (str "2300"))])
                    eq_refl)).
  - exact (proj1 (timingFromItem_units decimalToNumber
                    (Obj [("start", Num 1.5); ("end", Num 2.3)]) eq_refl)).
  - exact (proj1 (timingFromItem_units decimalToNumber (Obj [("start", Num 1.5)]) eq_refl)).
Defined.

(** C7 as stated fails on the item-level path: bounds given in the wrong
    order are returned in that order. *)
Lemma timingFromItem_keeps_reversed_bounds :
  timingFromItem decimalToNumber reversedBounds
    = Returns (Some {| startSec := 5; endSec := 2 |})
  /\ (5 <? 2)%float = false.
Proof. split; reflexivity. Qed.

(** On the phone-extent path the floor of 0.02 s is added in binary64: at
    10^18 s it is absorbed, and the interval is empty. *)
Lemma timingFromPhoneExtents_absorbed_floor :
  timingFromPhoneExtents (Arr [phoneWithExtent 1e20 1e20])
    = Some {| startSec := 1e18; endSec := 1e18 |}.
Proof. reflexivity. Qed.

(** C7, amended: every interval the resolver returns has [startSec >= 0]
    and [endSec >= 0] (on the phone-extent path, for phones that come from a
    parsed response); on the phone-extent path [endSec] is at least
    [startSec + 0.02] as computed in binary64, so that [startSec < endSec]
    whenever adding 0.02 to [startSec] gives a larger number. The item-level
    path does not order its two bounds. *)
Theorem timing_bounds (StringToNumber : jsstring -> float) :
  (forall item t,
      timingFromItem StringToNumber item = Returns (Some t) ->
      (0 <=? startSec t)%float = true /\ (0 <=? endSec t)%float = true)
  /\ (forall phones t,
         parsed phones = true ->
         timingFromPhoneExtents phones = Some t ->
         (0 <=? startSec t)%float = true
         /\ (0 <=? endSec t)%float = true
         /\ (startSec t + 0.02 <=? endSec t)%float = true
         /\ ((startSec t <? startSec t + 0.02)%float = true ->
             (startSec t <? endSec t)%float = true)).
Proof.
  split.
  - intros item t H.
    destruct (nullish item) eqn:Hi.
    { rewrite (timingFromItem_throws StringToNumber item Hi) in H. discriminate. }
    rewrite (timingFromItem_eq StringToNumber item Hi) in H.
    destruct (toNumberSec _ (coalesce (oget item "start_time") _)) as [s|] eqn:Es;
      [|discriminate].
    destruct (toNumberSec _ (coalesce (oget item "end_time") _)) as [e|] eqn:Ee;
      [|discriminate].
    injection H as <-. simpl. split; apply Math_max_zero_nonneg;
      eapply toNumberSec_not_nan; eauto.
  - intros phones t Hp H.
    destruct (timingFromPhoneExtents_inv phones t H)
      as (l & s & e & s0 & e1 & -> & _ & Hs & He & H0 & H1 & ->).
    change (forallb parsed l = true) in Hp. simpl.
    assert (Hs0 : is_finite s0 = true)
      by exact (parsed_extent_bound l 0 0 s s0 Hp Hs H0).
    assert (He1 : is_finite e1 = true)
      by exact (parsed_extent_bound l (length l - 1) 1 e e1 Hp He H1).
    assert (Hstart : (0 <=? Math_max 0 (s0 * 0.01))%float = true).
    { apply Math_max_zero_nonneg. now apply mul_not_nan. }
    assert (Hfloor : (0 <=? Math_max 0 (s0 * 0.01) + 0.02)%float = true).
    { now apply add_nonneg. }
    assert (Hge : (Math_max 0 (s0 * 0.01) + 0.02
                   <=? Math_max (Math_max 0 (s0 * 0.01) + 0.02) (e1 * 0.01))%float = true).
    { apply Math_max_ge_l.
      - now destruct (leb_not_nan _ _ Hfloor).
      - now apply mul_not_nan. }
    repeat split; auto.
    + eapply leb_trans; eauto.
    + intros Hlt. eapply ltb_leb_trans; eauto.
Qed.

(** An item with bounds 1.5 and 2.3, and phones with extents [0,50] and
    [50,120]. *)
Lemma timing_bounds_examples :
  ((0 <=? 1.5)%float = true /\ (0 <=? 2.3)%float = true)
  /\ ((0 <=? 0)%float = true /\ (0 <=? 1.2)%float = true
      /\ (0 + 0.02 <=? 1.2)%float = true
      /\ ((0 <? 0 + 0.02)%float = true -> (0 <? 1.2)%float = true)).
Proof.
  split.
  - exact (proj1 (timing_bounds decimalToNumber)
             (Obj [("start", Num 1.5); ("end", Num 2.3)])
             {| startSec := 1.5; endSec := 2.3 |} eq_refl).
  - exact (proj2 (timing_bounds decimalToNumber)
             (Arr [phoneWithExtent 0 50; phoneWithExtent 50 120])
             {| startSec := 0; endSec := 1.2 |} eq_refl eq_refl).
Defined.

(** ** The tokenizer *)

Lemma span_app p s : fst (span p s) ++ snd (span p s) = s.
Proof.
  induction s as [|c s IH]; simpl; auto.
  destruct (p c); simpl; auto.
  destruct (span p s); simpl in *. now rewrite IH.
Qed.

Lemma span_all p s : forallb p (fst (span p s)) = true.
Proof.
  induction s as [|c s IH]; simpl; auto.
  destruct (p c) eqn:E; simpl; auto.
  destruct (span p s); simpl in *. now rewrite E, IH.
Qed.

Lemma plus_app p s m rest : plus p s = Some (m, rest) -> m ++ rest = s.
Proof.
  unfold plus. pose proof (span_app p s) as H.
  destruct (span p s) as [[|c run] r]; [discriminate|].
  intros [= <- <-]. exact H.
Qed.

Lemma plus_all p s m rest : plus p s = Some (m, rest) -> forallb p m = true.
Proof.
  unfold plus. pose proof (span_all p s) as H.
  destruct (span p s) as [[|c run] r]; [discriminate|].
  intros [= <- <-]. exact H.
Qed.

Lemma plus_head p c s : p c = true -> plus p (c :: s) <> None.
Proof.
  intros H. unfold plus. simpl. rewrite H. destruct (span p s). discriminate.
Qed.

Lemma plus_no_head p c s : p c = false -> plus p (c :: s) = None.
Proof. intros H. unfold plus. simpl. now rewrite H. Qed.

Lemma matchWord_app s m rest : matchWord s = Some (m, rest) -> m ++ rest = s.
Proof.
  unfold matchWord. destruct (plus isAlnum s) as [[w r]|] eqn:E; [|discriminate].
  apply plus_app in E. destruct r as [|c r'].
  - intros [= <- <-]. exact E.
  - destruct (isApos c).
    + destruct (plus isAlnum r') as [[w' r'']|] eqn:E'.
      * apply plus_app in E'. intros [= <- <-]. subst s r'.
        now rewrite <- app_assoc.
      * intros [= <- <-]. exact E.
    + intros [= <- <-]. exact E.
Qed.

Lemma matchWord_head c s : isAlnum c = true -> matchWord (c :: s) <> None.
Proof.
  intros H. unfold matchWord. pose proof (plus_head isAlnum c s H) as Hp.
  destruct (plus isAlnum (c :: s)) as [[w r]|]; [|contradiction].
  destruct r as [|c' r']; [discriminate|].
  destruct (isApos c'); [|discriminate].
  destruct (plus isAlnum r') as [[w' r'']|]; discriminate.
Qed.

Lemma matchWord_no_head c s : isAlnum c = false -> matchWord (c :: s) = None.
Proof. intros H. unfold matchWord. now rewrite plus_no_head. Qed.

Lemma matchToken_app s g m rest : matchToken s = Some ((g, m), rest) -> m ++ rest = s.
Proof.
  unfold matchToken.
  destruct (plus isSpace s) as [[m1 r1]|] eqn:E1.
  { intros [= _ <- <-]. eapply plus_app; eauto. }
  destruct (matchWord s) as [[m2 r2]|] eqn:E2.
  { intros [= _ <- <-]. eapply matchWord_app; eauto. }
  destruct (plus isOther s) as [[m3 r3]|] eqn:E3; [|discriminate].
  intros [= _ <- <-]. eapply plus_app; eauto.
Qed.

(** Every code unit starts a token: the three classes cover the
    alphabet. *)
Lemma matchToken_head c s : matchToken (c :: s) <> None.
Proof.
  unfold matchToken.
  destruct (isSpace c) eqn:Es.
  { pose proof (plus_head isSpace c s Es).
    destruct (plus isSpace (c :: s)) as [[m r]|]; [discriminate|contradiction]. }
  rewrite (plus_no_head isSpace c s Es).
  destruct (isAlnum c) eqn:Ea.
  { pose proof (matchWord_head c s Ea).
    destruct (matchWord (c :: s)) as [[m r]|]; [discriminate|contradiction]. }
  rewrite (matchWord_no_head c s Ea).
  assert (Ho : isOther c = true) by (unfold isOther; now rewrite Es, Ea).
  pose proof (plus_head isOther c s Ho).
  destruct (plus isOther (c :: s)) as [[m r]|]; [discriminate|contradiction].
Qed.

Lemma exec_matchToken s : exec matchToken s = matchToken s.
Proof.
  destruct s as [|c s]; [reflexivity|]. simpl.
  pose proof (matchToken_head c s).
  destruct (matchToken (c :: s)); [reflexivity|contradiction].
Qed.

Lemma tokenLoop_eq wordDisplays s wi :
  tokenLoop wordDisplays s wi =
    match matchToken s with
    | None => []
    | Some ((G1, m), rest) => space m :: tokenLoop wordDisplays rest wi
    | Some ((G2, m), rest) =>
        word_ m (nth_error wordDisplays wi) :: tokenLoop wordDisplays rest (S wi)
    | Some ((G3, m), rest) => punct m :: tokenLoop wordDisplays rest wi
    end.
Proof.
  rewrite tokenLoop_equation_1.
  destruct (inspect (exec matchToken s)) as [o e].
  pose proof e as e'. rewrite exec_matchToken in e'.
  destruct o as [[[[] m] rest]|]; rewrite e'; reflexivity.
Qed.

Lemma matchToken_nil_iff s : matchToken s = None -> s = [].
Proof.
  destruct s as [|c s]; auto. intros H. now apply matchToken_head in H.
Qed.

Lemma tokenLoop_text wordDisplays n :
  forall s wi, length s <= n ->
               concat (map tokenText (tokenLoop wordDisplays s wi)) = s.
Proof.
  induction n as [|n IH]; intros s wi Hn; rewrite tokenLoop_eq.
  - destruct s; [reflexivity | simpl in Hn; lia].
  - destruct (matchToken s) as [[[g m] rest]|] eqn:E.
    + pose proof (matchToken_app _ _ _ _ E) as Happ.
      pose proof (matchToken_consumes _ _ _ E) as Hlt.
      destruct g; simpl; rewrite IH by lia; exact Happ.
    + symmetry. now apply matchToken_nil_iff.
Qed.

(** C8: for every input string, the texts of the tokens, concatenated in
    order, are the input string. *)
Theorem tokenizeAndAttach_reconstructs (text : jsstring) (wordDisplays : list WordDisplay) :
  concat (map tokenText (tokenizeAndAttach text wordDisplays)) = text.
Proof.
  unfold tokenizeAndAttach. destruct text as [|c text]; [reflexivity|].
  now apply (tokenLoop_text wordDisplays (length (c :: text))).
Qed.

(** *** The word tokens are the matches of the aligner's expression *)

Lemma matchAllWords_eq s :
  matchAllWords s =
    match exec matchWord s with
    | None => []
    | Some (w, rest) => w :: matchAllWords rest
    end.
Proof.
  rewrite matchAllWords_equation_1.
  destruct (inspect (exec matchWord s)) as [o e].
  pose proof e as e'.
  destruct o as [[w rest]|]; unfold matchAllWords_unfold_clause_1; rewrite e';
    reflexivity.
Qed.

Lemma exec_matchWord_skip m rest :
  forallb (fun c => negb (isAlnum c)) m = true ->
  exec matchWord (m ++ rest) = exec matchWord rest.
Proof.
  induction m as [|c m IH]; simpl; auto.
  intros H. apply andb_prop in H. destruct H as [Hc Hm].
  rewrite matchWord_no_head by (now destruct (isAlnum c)).
  now apply IH.
Qed.

Lemma isAlnum_range c :
  isAlnum c = true <-> (48 <= c <= 57 \/ 65 <= c <= 90 \/ 97 <= c <= 122)%N.
Proof.
  unfold isAlnum. rewrite !orb_true_iff, !andb_true_iff, !N.leb_le. tauto.
Qed.

Lemma isSpace_range c :
  isSpace c = true -> (c <= 32 \/ 160 <= c)%N.
Proof.
  unfold isSpace. rewrite !orb_true_iff, !andb_true_iff, !N.leb_le, !N.eqb_eq. lia.
Qed.

Lemma isSpace_not_alnum c : isSpace c = true -> negb (isAlnum c) = true.
Proof.
  intros H. apply isSpace_range in H.
  destruct (isAlnum c) eqn:E; auto. apply isAlnum_range in E. lia.
Qed.

Lemma isOther_not_alnum c : isOther c = true -> negb (isAlnum c) = true.
Proof. unfold isOther. now destruct (isAlnum c). Qed.

Lemma forallb_impl {A} (p q : A -> bool) l :
  (forall a, p a = true -> q a = true) -> forallb p l = true -> forallb q l = true.
Proof.
  intros H. induction l as [|a l IH]; simpl; auto.
  intros Hl. apply andb_prop in Hl. destruct Hl as [Ha Hl].
  now rewrite (H a Ha), IH.
Qed.

Lemma exec_matchWord_head s w rest :
  matchWord s = Some (w, rest) -> exec matchWord s = Some (w, rest).
Proof.
  intros H. destruct s as [|c s]; [discriminate|].
  change (exec matchWord (c :: s))
    with (match matchWord (c :: s) with
          | Some r => Some r
          | None => exec matchWord s
          end).
  now rewrite H.
Qed.

Lemma tokenLoop_words wordDisplays n :
  forall s wi, length s <= n ->
               wordTexts (tokenLoop wordDisplays s wi) = matchAllWords s
               /\ attachments (tokenLoop wordDisplays s wi)
                  = map (fun i => nth_error wordDisplays (wi + i))
                      (seq 0 (length (matchAllWords s))).
Proof.
  induction n as [|n IH]; intros s wi Hn; rewrite tokenLoop_eq, matchAllWords_eq.
  - destruct s; [split; reflexivity | simpl in Hn; lia].
  - unfold matchToken.
    destruct (plus isSpace s) as [[m rest]|] eqn:E1.
    { pose proof (plus_app _ _ _ _ E1) as Happ. pose proof (plus_consumes _ _ _ _ E1) as Hlt.
      pose proof (plus_all _ _ _ _ E1) as Hall.
      rewrite <- Happ, exec_matchWord_skip
        by (eapply forallb_impl; [apply isSpace_not_alnum | exact Hall]).
      rewrite <- matchAllWords_eq. simpl. apply IH. lia. }
    destruct (matchWord s) as [[m rest]|] eqn:E2.
    { pose proof (matchWord_consumes _ _ _ E2) as Hlt.
      rewrite (exec_matchWord_head _ _ _ E2). simpl.
      destruct (IH rest (S wi) ltac:(lia)) as [IH1 IH2].
      rewrite IH1, IH2. split; [reflexivity|].
      rewrite Nat.add_0_r. f_equal.
      rewrite <- seq_shift, map_map. apply map_ext. intros i.
      now rewrite Nat.add_succ_r. }
    destruct (plus isOther s) as [[m rest]|] eqn:E3.
    { pose proof (plus_app _ _ _ _ E3) as Happ. pose proof (plus_consumes _ _ _ _ E3) as Hlt.
      pose proof (plus_all _ _ _ _ E3) as Hall.
      rewrite <- Happ, exec_matchWord_skip
        by (eapply forallb_impl; [apply isOther_not_alnum | exact Hall]).
      rewrite <- matchAllWords_eq. simpl. apply IH. lia. }
    assert (Hs : s = []).
    { apply matchToken_nil_iff. unfold matchToken. now rewrite E1, E2, E3. }
    subst s. split; reflexivity.
Qed.

(** The word tokens of the tokenizer are, in order, the words the aligner
    finds in the same text, and the i-th of them carries the i-th
    display. *)
Lemma tokenizeAndAttach_words text wordDisplays :
  wordTexts (tokenizeAndAttach text wordDisplays) = matchAllWords text
  /\ attachments (tokenizeAndAttach text wordDisplays)
     = map (fun i => nth_error wordDisplays i) (seq 0 (length (matchAllWords text))).
Proof.
  unfold tokenizeAndAttach. destruct text as [|c text].
  - rewrite matchAllWords_eq. split; reflexivity.
  - apply (tokenLoop_words wordDisplays (length (c :: text)) (c :: text) 0). lia.
Qed.

(** ** Word normalization *)

Section Normalization.

Variable toLowerCase : jsstring -> jsstring.

(** What the program relies on from [toLowerCase]: its result holds no
    upper-case ASCII letter, and it leaves a string of lower-case ASCII
    letters and digits as it is. *)
Hypothesis toLowerCase_no_upper :
  forall s c, In c (toLowerCase s) -> isUpper c = false.
Hypothesis toLowerCase_fixes_lower :
  forall s, forallb isLowerAlnum s = true -> toLowerCase s = s.

Lemma filter_id {A} (p : A -> bool) l : forallb p l = true -> filter p l = l.
Proof.
  induction l as [|a l IH]; simpl; auto.
  intros H. apply andb_prop in H. destruct H as [Ha Hl]. now rewrite Ha, IH.
Qed.

Lemma forallb_filter {A} (p : A -> bool) l : forallb p (filter p l) = true.
Proof.
  induction l as [|a l IH]; simpl; auto.
  destruct (p a) eqn:E; simpl; auto. now rewrite E.
Qed.

Lemma forallb_rev {A} (p : A -> bool) l : forallb p (rev l) = forallb p l.
Proof.
  induction l as [|a l IH]; simpl; auto.
  rewrite forallb_app, IH. simpl. rewrite andb_true_r. apply andb_comm.
Qed.

Lemma dropWhile_none p s :
  forallb (fun c => negb (p c)) s = true -> dropWhile p s = s.
Proof.
  destruct s as [|c s]; simpl; auto.
  intros H. apply andb_prop in H. destruct H as [Hc _]. now destruct (p c).
Qed.

Lemma trim_none s : forallb (fun c => negb (isSpace c)) s = true -> trim s = s.
Proof.
  intros H. unfold trim. rewrite (dropWhile_none isSpace s H).
  rewrite dropWhile_none by (now rewrite forallb_rev).
  apply rev_involutive.
Qed.

Lemma isAlnum_cases c : isAlnum c = isLowerAlnum c || isUpper c.
Proof.
  unfold isAlnum, isLowerAlnum, isUpper.
  destruct ((48 <=? c) && (c <=? 57))%N, ((65 <=? c) && (c <=? 90))%N,
    ((97 <=? c) && (c <=? 122))%N; reflexivity.
Qed.

Lemma isLowerAlnum_not_space c : isLowerAlnum c = true -> negb (isSpace c) = true.
Proof.
  intros H. destruct (isSpace c) eqn:E; auto.
  apply isSpace_not_alnum in E. rewrite isAlnum_cases, H in E. discriminate.
Qed.

Lemma isLowerAlnum_not_quote c : isLowerAlnum c = true -> negb (isQuote c) = true.
Proof.
  unfold isLowerAlnum, isQuote. intros H.
  repeat match goal with
         | |- context [(?a =? ?b)%N] => destruct (N.eqb_spec a b)
         end; simpl; auto; subst c; discriminate.
Qed.

(** After the two replacements only lower-case ASCII letters and digits
    are left. *)
Lemma stripped_lower s :
  forallb isLowerAlnum
    (removeAll isNotAlnumI (removeAll isQuote (toLowerCase s))) = true.
Proof.
  apply forallb_forall. intros c Hc.
  unfold removeAll in Hc. apply filter_In in Hc. destruct Hc as [Hc Ha].
  apply filter_In in Hc. destruct Hc as [Hc _].
  unfold isNotAlnumI in Ha. rewrite negb_involutive, isAlnum_cases in Ha.
  rewrite (toLowerCase_no_upper s c Hc), orb_false_r in Ha. exact Ha.
Qed.

Lemma normalizeString_lower s :
  forallb isLowerAlnum (normalizeString toLowerCase s) = true.
Proof.
  unfold normalizeString. rewrite trim_none; [apply stripped_lower|].
  eapply forallb_impl; [apply isLowerAlnum_not_space | apply stripped_lower].
Qed.

Lemma normalizeString_fixes_lower s :
  forallb isLowerAlnum s = true -> normalizeString toLowerCase s = s.
Proof.
  intros H. unfold normalizeString, removeAll.
  rewrite (toLowerCase_fixes_lower s H).
  rewrite (filter_id (fun c => negb (isQuote c)) s)
    by (eapply forallb_impl; [apply isLowerAlnum_not_quote | exact H]).
  rewrite (filter_id (fun c => negb (isNotAlnumI c)) s).
  - apply trim_none. eapply forallb_impl; [apply isLowerAlnum_not_space | exact H].
  - eapply forallb_impl; [|exact H]. intros c Hc. unfold isNotAlnumI.
    now rewrite negb_involutive, isAlnum_cases, Hc.
Qed.

(** C10: normalizing a normalized word gives the same word, for every
    string, both on the string and through [normalizeWord], which returns
    on every string. *)
Theorem normalizeWord_idempotent (s : jsstring) :
  normalizeString toLowerCase (normalizeString toLowerCase s)
    = normalizeString toLowerCase s
  /\ bind (normalizeWord toLowerCase (Str s))
          (fun t => normalizeWord toLowerCase (Str t))
     = normalizeWord toLowerCase (Str s)
  /\ exists t, normalizeWord toLowerCase (Str s) = Returns t.
Proof.
  assert (H : normalizeString toLowerCase (normalizeString toLowerCase s)
              = normalizeString toLowerCase s).
  { apply normalizeString_fixes_lower, normalizeString_lower. }
  split; [exact H|].
  assert (Hw : forall t, normalizeWord toLowerCase (Str t)
                         = Returns (normalizeString toLowerCase t)).
  { intros t. unfold normalizeWord, or_else. destruct t; reflexivity. }
  split; [|eauto]. rewrite Hw. simpl. now rewrite Hw, H.
Qed.

End Normalization.

Lemma asciiLower_no_upper s c : In c (asciiLower s) -> isUpper c = false.
Proof.
  unfold asciiLower. rewrite in_map_iff. intros (c0 & <- & _).
  unfold isUpper.
  destruct (N.leb_spec 65 c0), (N.leb_spec c0 90); simpl;
    repeat match goal with
           | |- context [(?a <=? ?b)%N] => destruct (N.leb_spec a b)
           end; simpl; auto; lia.
Qed.

Lemma asciiLower_fixes_lower s : forallb isLowerAlnum s = true -> asciiLower s = s.
Proof.
  unfold asciiLower. induction s as [|c s IH]; simpl; auto.
  intros H. apply andb_prop in H. destruct H as [Hc Hs]. rewrite (IH Hs).
  assert (Hu : isUpper c = false).
  { destruct (isUpper c) eqn:E; auto. revert Hc E. unfold isLowerAlnum, isUpper.
    repeat match goal with
           | |- context [(?a <=? ?b)%N] => destruct (N.leb_spec a b)
           end; simpl; try discriminate; lia. }
  now rewrite Hu.
Qed.

(** The normalized form of "Don't" and of "Mr. O'Neil-2nd" is stable. *)
Lemma normalizeWord_idempotent_examples :
  normalizeString asciiLower (normalizeString asciiLower (str "Don't"))
    = normalizeString asciiLower (str "Don't")
  /\ normalizeString asciiLower (str "Mr. O'Neil-2nd") = str "mroneil2nd".
Proof.
  split.
  - exact (proj1 (normalizeWord_idempotent asciiLower asciiLower_no_upper
                    asciiLower_fixes_lower (str "Don't"))).
  - reflexivity.
Defined.

(** ** The aligner *)

Lemma jsstring_eqb_eq a b : jsstring_eqb a b = true <-> a = b.
Proof.
  revert b. induction a as [|x a IH]; intros [|y b]; simpl; split; intros H;
    try discriminate; auto.
  - apply andb_prop in H. destruct H as [Hx Hab].
    apply N.eqb_eq in Hx. apply IH in Hab. now subst.
  - injection H as -> ->. rewrite N.eqb_refl. now apply IH.
Qed.

Lemma jsstring_eqb_neq a b : jsstring_eqb a b = false <-> a <> b.
Proof.
  split.
  - intros H E. apply jsstring_eqb_eq in E. congruence.
  - intros H. destruct (jsstring_eqb a b) eqn:E; auto.
    apply jsstring_eqb_eq in E. contradiction.
Qed.

Section Aligner.

Variable toLowerCase : jsstring -> jsstring.
Variable StringToNumber : jsstring -> float.
Variable ToString : value -> jsstring.


Lemma normalizeWord_Str t : (normalizeWord toLowerCase) (Str t) = Returns ((normalizeString toLowerCase) t).
Proof. unfold normalizeWord, or_else. destruct t; reflexivity. Qed.

Lemma scoreRecord_index lst q :
  forallb scoreRecord lst = true -> q < length lst ->
  scoreRecord (index lst q) = true.
Proof.
  intros H Hq. rewrite forallb_forall in H. apply H. now apply nth_In.
Qed.

Lemma scoreRecord_offered r :
  scoreRecord r = true ->
  (normalizeWord toLowerCase) (offeredWord r) = Returns ((candidateWord toLowerCase) r)
  /\ truthy r = true /\ nullish r = false.
Proof.
  unfold scoreRecord, candidateWord.
  destruct r; try discriminate.
  destruct (offeredWord (Obj fields)) eqn:E; try discriminate.
  intros _. now rewrite normalizeWord_Str.
Qed.

(** The position of the first record that matches, among the [n]
    positions from [k]. *)
Definition firstMatch (lst : list value) (norm : jsstring) (k n : nat) : option nat :=
  find (fun q => jsstring_eqb ((candidateWord toLowerCase) (index lst q)) norm) (seq k n).

Lemma scan_firstMatch lst norm :
  forallb scoreRecord lst = true -> norm <> [] ->
  forall n k, k + n <= length lst ->
              (scan toLowerCase) lst norm k n
              = Returns (option_map (fun p => (index lst p, p)) (firstMatch lst norm k n)).
Proof.
  intros Hl Hnorm. induction n as [|n IH]; intros k Hk; [reflexivity|].
  simpl. fold (offeredWord (index lst k)).
  destruct (scoreRecord_offered (index lst k)) as (-> & _ & _).
  { apply scoreRecord_index; auto. lia. }
  simpl. unfold firstMatch. simpl.
  destruct (jsstring_eqb ((candidateWord toLowerCase) (index lst k)) norm) eqn:E.
  - apply jsstring_eqb_eq in E. rewrite E.
    now rewrite (proj2 (jsstring_eqb_neq norm []) Hnorm).
  - rewrite andb_false_r. apply IH. lia.
Qed.

Lemma firstMatch_some lst norm k n p :
  firstMatch lst norm k n = Some p ->
  k <= p < k + n /\ (candidateWord toLowerCase) (index lst p) = norm.
Proof.
  unfold firstMatch. intros H. apply find_some in H. destruct H as [Hin Hp].
  apply in_seq in Hin. apply jsstring_eqb_eq in Hp. split; auto.
Qed.

Lemma firstMatch_first lst norm n :
  forall k p,
    k <= p < k + n ->
    (candidateWord toLowerCase) (index lst p) = norm ->
    (forall q, k <= q < p -> (candidateWord toLowerCase) (index lst q) <> norm) ->
    firstMatch lst norm k n = Some p.
Proof.
  unfold firstMatch. induction n as [|n IH]; intros k p Hp Hm Hfirst; [lia|].
  simpl. destruct (Nat.eq_dec k p) as [->|Hne].
  - now rewrite (proj2 (jsstring_eqb_eq _ _) Hm).
  - rewrite (proj2 (jsstring_eqb_neq _ _) (Hfirst k ltac:(lia))).
    apply IH; auto; try lia. intros q Hq. apply Hfirst. lia.
Qed.

Lemma firstMatch_none lst norm n :
  forall k,
    (forall q, k <= q < k + n -> (candidateWord toLowerCase) (index lst q) <> norm) ->
    firstMatch lst norm k n = None.
Proof.
  unfold firstMatch. induction n as [|n IH]; intros k H; [reflexivity|].
  simpl. rewrite (proj2 (jsstring_eqb_neq _ _) (H k ltac:(lia))).
  apply IH. intros q Hq. apply H. lia.
Qed.

Lemma index_nth_error lst q :
  index lst q = match nth_error lst q with Some r => r | None => Undefined end.
Proof.
  unfold index. revert q. induction lst as [|v lst IH]; intros [|q]; simpl; auto.
Qed.

(** The record picked and the cursor afterwards, from the first match
    in the window. *)
Lemma pickRecord_firstMatch lst raw j :
  forallb scoreRecord lst = true ->
  (normalizeString toLowerCase) raw <> [] ->
  (pickRecord toLowerCase) lst raw j
  = Returns
      (match firstMatch lst ((normalizeString toLowerCase) raw) j (Nat.min (length lst) (j + 4) - j) with
       | Some p => (index lst p, p + 1)
       | None => (match nth_error lst j with Some r => r | None => Null end, j + 1)
       end).
Proof.
  intros Hl Hnorm. unfold pickRecord. rewrite normalizeWord_Str. simpl.
  assert (Hfall : or_else (index lst j) Null
                  = match nth_error lst j with Some r => r | None => Null end).
  { rewrite index_nth_error. destruct (nth_error lst j) as [r|] eqn:E; [|reflexivity].
    assert (Hr : scoreRecord r = true).
    { rewrite forallb_forall in Hl. apply Hl. eapply nth_error_In; eauto. }
    unfold or_else. now destruct (scoreRecord_offered r Hr) as (_ & -> & _). }
  destruct (Nat.le_gt_cases (length lst) j) as [Hout|Hin].
  - replace (Nat.min (length lst) (j + 4) - j) with 0 by lia. simpl.
    rewrite Hfall, Nat.leb_refl. reflexivity.
  - rewrite scan_firstMatch by (auto; lia). simpl.
    destruct (firstMatch _ _ _ _) as [p|] eqn:E; simpl.
    + apply firstMatch_some in E. destruct E as [Hp _].
      destruct (scoreRecord_offered (index lst p)) as (_ & -> & _).
      { apply scoreRecord_index; auto. lia. }
      now rewrite (proj2 (Nat.leb_le j p)) by lia.
    + now rewrite Hfall, Nat.leb_refl.
Qed.

Lemma scan_index_ge lst norm n :
  forall k v p, (scan toLowerCase) lst norm k n = Returns (Some (v, p)) -> k <= p.
Proof.
  induction n as [|n IH]; intros k v p; simpl; [discriminate|].
  destruct ((normalizeWord toLowerCase) _) as [cw|]; simpl; [|discriminate].
  destruct (negb (jsstring_eqb cw []) && jsstring_eqb cw norm).
  - intros [= _ <-]. lia.
  - intros H. apply IH in H. lia.
Qed.

Lemma pickRecord_advances lst raw j picked j' :
  (pickRecord toLowerCase) lst raw j = Returns (picked, j') -> j < j'.
Proof.
  unfold pickRecord. rewrite normalizeWord_Str. simpl.
  destruct ((scan toLowerCase) lst _ j _) as [[[v p]|]|] eqn:E; simpl; try discriminate.
  - apply scan_index_ge in E.
    destruct (truthy v).
    + rewrite (proj2 (Nat.leb_le j p) E). intros [= _ <-]. lia.
    + rewrite Nat.leb_refl. intros [= _ <-]. lia.
  - rewrite Nat.leb_refl. intros [= _ <-]. lia.
Qed.

Lemma scan_window lst lst' norm n :
  forall k, (forall q, k <= q < k + n -> index lst' q = index lst q) ->
            (scan toLowerCase) lst' norm k n = (scan toLowerCase) lst norm k n.
Proof.
  induction n as [|n IH]; intros k H; [reflexivity|].
  simpl. rewrite (H k ltac:(lia)).
  destruct ((normalizeWord toLowerCase) _); simpl; auto.
  destruct (_ && _); auto. apply IH. intros q Hq. apply H. lia.
Qed.

Lemma pickRecord_window_only lst lst' raw j :
  (forall q, j <= q < j + 4 -> nth_error lst' q = nth_error lst q) ->
  (pickRecord toLowerCase) lst' raw j = (pickRecord toLowerCase) lst raw j.
Proof.
  intros H. unfold pickRecord. rewrite normalizeWord_Str. simpl.
  assert (Hidx : forall q, j <= q < j + 4 -> index lst' q = index lst q).
  { intros q Hq. now rewrite !index_nth_error, (H q Hq). }
  assert (Hlen : forall q, j <= q < j + 4 -> (q < length lst' <-> q < length lst)).
  { intros q Hq. rewrite <- !nth_error_Some, (H q Hq). tauto. }
  assert (Hn : Nat.min (length lst') (j + 4) - j = Nat.min (length lst) (j + 4) - j).
  { pose proof (Hlen j ltac:(lia)). pose proof (Hlen (j + 1) ltac:(lia)).
    pose proof (Hlen (j + 2) ltac:(lia)). pose proof (Hlen (j + 3) ltac:(lia)). lia. }
  rewrite Hn, (Hidx j ltac:(lia)).
  rewrite (scan_window lst lst'); [reflexivity|].
  intros q Hq. apply Hidx. lia.
Qed.

Lemma alignLoop_cursor lst wordsInText :
  forall i j jend out,
    (alignLoop toLowerCase StringToNumber ToString) lst wordsInText i j = Returns (jend, out) ->
    j + length wordsInText <= jend
    /\ length out = length wordsInText
    /\ map word out = wordsInText.
Proof.
  induction wordsInText as [|raw rest IH]; intros i j jend out; simpl.
  - intros [= <- <-]. simpl. repeat split. lia.
  - destruct ((pickRecord toLowerCase) lst raw j) as [[picked j']|] eqn:Ep; simpl; [|discriminate].
    apply pickRecord_advances in Ep.
    unfold makeDisplay.
    destruct (match timingFromPhoneExtents _ with Some t => _ | None => _ end)
      as [timing|]; simpl; [|discriminate].
    destruct ((alignLoop toLowerCase StringToNumber ToString) lst rest (S i) j') as [[jend' out']|] eqn:El; simpl;
      [|discriminate].
    intros [= <- <-]. apply IH in El. destruct El as (Hc & Hlen & Hw).
    simpl. repeat split; [lia | now rewrite Hlen | now rewrite Hw].
Qed.

End Aligner.

(** C4: on a list of score records and for a word whose normalized text
    is not empty, with the cursor at [j]: the record picked is the earliest
    one among the positions [j .. j+3] of the list whose normalized word is
    the normalized text of the word, and the cursor moves to one past it;
    when no position of the window matches, the record at [j] is picked, if
    there is one, and the cursor moves to [j+1]; no position outside the
    window is read; the cursor after a word is beyond the cursor before it,
    and the cursor at the end of a pass is at or beyond the cursor at its
    start. *)
Theorem pickRecord_window
  (toLowerCase : jsstring -> jsstring) (StringToNumber : jsstring -> float)
  (ToString : value -> jsstring) (lst : list value) (raw : jsstring) (j : nat) :
  forallb scoreRecord lst = true ->
  normalizeString toLowerCase raw <> [] ->
  let inWindow p := j <= p < j + 4 /\ p < length lst in
  let matches p :=
    candidateWord toLowerCase (index lst p) = normalizeString toLowerCase raw in
  (forall p, inWindow p -> matches p -> (forall q, j <= q < p -> ~ matches q) ->
             pickRecord toLowerCase lst raw j = Returns (index lst p, p + 1))
  /\ ((forall q, inWindow q -> ~ matches q) ->
      pickRecord toLowerCase lst raw j
      = Returns (match nth_error lst j with Some r => r | None => Null end, j + 1))
  /\ (forall lst',
         (forall q, j <= q < j + 4 -> nth_error lst' q = nth_error lst q) ->
         pickRecord toLowerCase lst' raw j = pickRecord toLowerCase lst raw j)
  /\ (forall picked j',
         pickRecord toLowerCase lst raw j = Returns (picked, j') -> j < j')
  /\ (forall wordsInText i jend out,
         alignLoop toLowerCase StringToNumber ToString lst wordsInText i j
         = Returns (jend, out) ->
         j <= jend).
Proof.
  intros Hl Hnorm inWindow matches.
  pose proof (pickRecord_firstMatch toLowerCase lst raw j Hl Hnorm) as Hpick.
  repeat split.
  - intros p [Hp Hlen] Hm Hfirst. rewrite Hpick.
    rewrite (firstMatch_first toLowerCase lst (normalizeString toLowerCase raw)
               (Nat.min (length lst) (j + 4) - j) j p); auto. lia.
  - intros Hnone. rewrite Hpick. rewrite firstMatch_none; auto.
    intros q Hq. apply Hnone. unfold inWindow. lia.
  - intros lst' H. now apply pickRecord_window_only.
  - intros picked j'. apply pickRecord_advances.
  - intros wordsInText i jend out H.
    apply alignLoop_cursor in H. lia.
Qed.

(** With the cursor at 0 the word "cat" skips two records and is given
    the third; with the cursor at 1 the word "mat", beyond the window of the
    second to fourth records... is given the record at the cursor. *)
Lemma pickRecord_window_examples :
  pickRecord asciiLower fiveRecords (str "cat") 0
    = Returns (wordRecord "Cat." 40, 3)
  /\ pickRecord asciiLower fiveRecords (str "dog") 1
     = Returns (wordRecord "uh" 10, 2).
Proof.
  pose proof (pickRecord_window asciiLower decimalToNumber stringOf fiveRecords
                (str "cat") 0 eq_refl ltac:(discriminate)) as H1.
  pose proof (pickRecord_window asciiLower decimalToNumber stringOf fiveRecords
                (str "dog") 1 eq_refl ltac:(discriminate)) as H2.
  split.
  - refine (proj1 H1 2 _ eq_refl _).
    + simpl. lia.
    + intros q Hq. assert (Hc : q = 0 \/ q = 1) by lia.
      destruct Hc as [-> | ->]; discriminate.
  - refine (proj1 (proj2 H2) _).
    intros q [Hq Hlen]. simpl in Hlen.
    assert (Hc : q = 1 \/ q = 2 \/ q = 3 \/ q = 4) by lia.
    destruct Hc as [-> | [-> | [-> | ->]]]; discriminate.
Defined.

Section Pass.

Variable toLowerCase : jsstring -> jsstring.
Variable StringToNumber : jsstring -> float.
Variable ToString : value -> jsstring.






(** Past the end of the list nothing is picked, and the display of the
    word is not built: reading the timing of [null] throws. *)
Lemma alignLoop_exhausted lst raw rest i j :
  length lst <= j -> (alignLoop toLowerCase StringToNumber ToString) lst (raw :: rest) i j = Throws TypeError.
Proof.
  intros Hj. simpl. unfold pickRecord. rewrite normalizeWord_Str. simpl.
  replace (Nat.min (length lst) (j + 4) - j) with 0 by lia. simpl.
  unfold index. rewrite nth_overflow by exact Hj. reflexivity.
Qed.

Lemma dropWhile_nil p s : dropWhile p s = [] -> forallb p s = true.
Proof.
  induction s as [|c s IH]; simpl; auto.
  destruct (p c); [exact IH | discriminate].
Qed.

Lemma dropWhile_all p s : forallb p s = true -> dropWhile p s = [].
Proof.
  induction s as [|c s IH]; simpl; auto.
  intros H. apply andb_prop in H. destruct H as [-> Hs]. auto.
Qed.

Lemma dropWhile_head p s c s' : dropWhile p s = c :: s' -> p c = false.
Proof.
  induction s as [|c0 s IH]; simpl; [discriminate|].
  destruct (p c0) eqn:E; auto. intros [= <- _]. exact E.
Qed.

(** A text that trims to the empty string is white space only, and has
    no word. *)
Lemma trim_nil_blank s : trim s = [] -> forallb isSpace s = true.
Proof.
  unfold trim. intros H.
  apply (f_equal (@rev code_unit)) in H. rewrite rev_involutive in H. simpl in H.
  apply dropWhile_nil in H. rewrite forallb_rev in H.
  destruct (dropWhile isSpace s) as [|c s'] eqn:E.
  - now apply dropWhile_nil.
  - apply dropWhile_head in E. simpl in H. now rewrite E in H.
Qed.

Lemma blank_no_words s : forallb isSpace s = true -> matchAllWords s = [].
Proof.
  intros H. rewrite matchAllWords_eq.
  rewrite <- (app_nil_r s), exec_matchWord_skip.
  - reflexivity.
  - eapply forallb_impl; [apply isSpace_not_alnum | exact H].
Qed.


End Pass.


(** With one record and two words, the second word finds the list
    exhausted and the pass throws. *)
Lemma buildWordDisplays_exhausted_throws :
  buildWordDisplays asciiLower decimalToNumber stringOf (str "The cat") oneRecord
    = Throws TypeError.
Proof. reflexivity. Qed.



(** What the pass computes on the scenario: qualities 90, 40 and 95; the
    last end, 220 * 0.01, is 2.2000000000000002 in binary64. *)
Lemma buildWordDisplays_scenario_values :
  match buildWordDisplays asciiLower decimalToNumber stringOf (str "The cat sat.")
          scenario with
  | Returns out =>
      map quality out = [Some 90; Some 40; Some 95]%float
      /\ map timing out
         = [Some {| startSec := 0; endSec := 0.5 |};
            Some {| startSec := 0.5; endSec := 1.5 |};
            Some {| startSec := 1.5; endSec := 2.2000000000000002 |}]
  | Throws _ => False
  end.
Proof. vm_compute. split; reflexivity. Qed.

(** ** The playback scheduler *)

Section Scheduler.

Variable Math_round : float -> float.


(** The segment in play, when there is one, belongs to the current
    token. *)
Definition segmentCurrent (st : State) : Prop :=
  forall seg, segmentRef st = Some seg -> seg_token seg = playTokenRef st.

(** A turn that keeps the token, and keeps or drops the segment. *)
Definition quiet (st st' : State) : Prop :=
  audioRef st' = audioRef st
  /\ playTokenRef st' = playTokenRef st
  /\ (segmentRef st' = segmentRef st \/ segmentRef st' = None).

(** A turn that keeps or raises the token, and keeps the segment
    current. *)
Definition advances (st st' : State) : Prop :=
  audioRef st' = audioRef st
  /\ playTokenRef st <= playTokenRef st'
  /\ (segmentCurrent st -> segmentCurrent st').

Lemma quiet_refl st : quiet st st.
Proof. unfold quiet. auto. Qed.

Lemma quiet_trans st1 st2 st3 : quiet st1 st2 -> quiet st2 st3 -> quiet st1 st3.
Proof.
  unfold quiet. intros (Ha & Ht & Hs) (Ha' & Ht' & Hs').
  repeat split; try congruence.
  destruct Hs' as [Hs'|Hs']; [|now right].
  destruct Hs as [Hs|Hs]; [left|right]; congruence.
Qed.

Lemma quiet_advances st st' : quiet st st' -> advances st st'.
Proof.
  unfold quiet, advances, segmentCurrent. intros (Ha & Ht & Hs).
  repeat split; auto; [lia|].
  intros H seg Hseg. rewrite Ht. apply H.
  destruct Hs as [Hs|Hs]; congruence.
Qed.

Lemma advances_trans st1 st2 st3 :
  advances st1 st2 -> advances st2 st3 -> advances st1 st3.
Proof.
  unfold advances. intros (Ha & Ht & Hs) (Ha' & Ht' & Hs').
  repeat split; auto; [congruence | lia].
Qed.

Lemma quiet_call c st : quiet st (call c st).
Proof. unfold quiet, call. destruct (audioRef st) eqn:E; simpl; auto. Qed.

Lemma quiet_stopSegmentTimer st : quiet st (stopSegmentTimer st).
Proof. unfold quiet, stopSegmentTimer. destruct (segmentTimerRef st); simpl; auto. Qed.

Lemma quiet_dropSegment st : quiet st (setSegment None st).
Proof. unfold quiet. simpl. auto. Qed.

Lemma quiet_with_ui st key url at_ e tts : quiet st (with_ui st key url at_ e tts).
Proof. unfold quiet. simpl. auto. Qed.

Lemma quiet_with_loop st next reqs : quiet st (with_loop st next reqs).
Proof. unfold quiet. simpl. auto. Qed.

Lemma quiet_stopTts st : quiet st (stopTts st).
Proof. apply quiet_with_ui. Qed.

Lemma quiet_setErr e st : quiet st (setErr e st).
Proof. apply quiet_with_ui. Qed.

Lemma quiet_stopTimer token st : quiet st (stopTimer token st).
Proof.
  unfold stopTimer. destruct (segmentRef st) as [seg|] eqn:E; [|apply quiet_refl].
  destruct (negb _); [apply quiet_refl|].
  destruct (quiet_call Pause st) as (Ha & Ht & _).
  unfold quiet. simpl. auto.
Qed.

Lemma quiet_onTime currentTime st : quiet st (onTime currentTime st).
Proof.
  unfold onTime. destruct (segmentRef st) as [seg|]; [|apply quiet_refl].
  destruct (negb _); [apply quiet_refl|].
  destruct (_ <=? _)%float; [|apply quiet_refl].
  eapply quiet_trans; [apply quiet_call|].
  eapply quiet_trans; [apply quiet_dropSegment|]. apply quiet_stopSegmentTimer.
Qed.

Lemma quiet_resetRunState st : quiet st (resetRunState st).
Proof.
  unfold resetRunState.
  eapply quiet_trans; [apply quiet_with_ui|].
  eapply quiet_trans; [apply quiet_stopSegmentTimer|].
  eapply quiet_trans; [apply quiet_dropSegment|].
  eapply quiet_trans; [apply quiet_call|]. apply quiet_stopTts.
Qed.

Lemma quiet_toggleTts st : quiet st (toggleTts st).
Proof.
  unfold toggleTts. destruct (ttsSpeaking st); [apply quiet_stopTts|].
  eapply quiet_trans; [apply quiet_call|].
  eapply quiet_trans; [apply quiet_stopSegmentTimer|].
  eapply quiet_trans; [apply quiet_dropSegment|]. apply quiet_with_ui.
Qed.

Lemma quiet_ensureFreshAudioUrl world st :
  quiet st (fst (ensureFreshAudioUrl world st)).
Proof.
  unfold ensureFreshAudioUrl.
  destruct (negb _); [apply quiet_refl|].
  destruct (_ && _); [apply quiet_refl|].
  destruct (fetched world) as [|got]; [apply quiet_refl|]. simpl.
  destruct (if truthyString got then got else None) as [u|].
  - eapply quiet_trans; [apply quiet_with_ui|].
    eapply quiet_trans; apply quiet_call.
  - apply quiet_with_ui.
Qed.

Lemma quiet_takeRequest token st : quiet st (snd (takeRequest token st)).
Proof.
  unfold takeRequest. destruct (find _ _); simpl;
    [apply quiet_with_loop | apply quiet_refl].
Qed.

Lemma quiet_takeTimeout id st : quiet st (snd (takeTimeout id st)).
Proof.
  unfold takeTimeout. destruct (find _ _); simpl; [|apply quiet_refl].
  unfold quiet. simpl. auto.
Qed.

Lemma playSegment_mints startSec endSec st :
  audioRef st = true ->
  playTokenRef (playSegment startSec endSec st) = playTokenRef st + 1.
Proof.
  intros H. unfold playSegment. rewrite H. simpl.
  destruct (quiet_stopSegmentTimer st) as (Ha & Ht & _).
  unfold call. simpl. rewrite Ha, H. simpl. now rewrite Ht.
Qed.

Lemma advances_playSegment startSec endSec st :
  advances st (playSegment startSec endSec st).
Proof.
  destruct (audioRef st) eqn:H.
  - pose proof (playSegment_mints startSec endSec st H) as Hm.
    unfold advances. revert Hm. unfold playSegment. rewrite H. simpl.
    destruct (quiet_stopSegmentTimer st) as (Ha & Ht & _).
    unfold call. simpl. rewrite Ha, H. simpl. intros Hm.
    split; [congruence|]. split; [lia|]. intros _ seg Hseg. discriminate.
  - unfold playSegment. rewrite H. apply quiet_advances, quiet_refl.
Qed.

Lemma advances_doSeekPlay r st : advances st (doSeekPlay Math_round r st).
Proof.
  unfold doSeekPlay. destruct (Nat.eqb_spec (req_token r) (playTokenRef st)) as [E|E];
    simpl; [|apply quiet_advances, quiet_refl].
  unfold advances, call. simpl.
  destruct (audioRef st) eqn:H; simpl; rewrite ?H; simpl;
    repeat split; auto; intros _ seg [= <-]; simpl; exact E.
Qed.

Lemma advances_playWordWith url w st : advances st (playWordWith url w st).
Proof.
  unfold playWordWith. destruct url; [|apply quiet_advances, quiet_refl].
  assert (Hq : quiet st (stopSegmentTimer (stopTts st))).
  { eapply quiet_trans; [apply quiet_stopTts | apply quiet_stopSegmentTimer]. }
  destruct (timing w).
  - eapply advances_trans; [apply quiet_advances, Hq | apply advances_playSegment].
  - apply quiet_advances. eapply quiet_trans; [exact Hq | apply quiet_setErr].
Qed.

Lemma advances_step st e : advances st (step Math_round st e).
Proof.
  destruct e; simpl.
  - apply advances_playSegment.
  - pose proof (quiet_takeRequest token st) as Hq.
    destruct (takeRequest token st) as [[r|] st']; simpl in Hq.
    + eapply advances_trans; [apply quiet_advances, Hq | apply advances_doSeekPlay].
    + apply quiet_advances, Hq.
  - apply quiet_advances, quiet_takeRequest.
  - pose proof (quiet_takeTimeout id st) as Hq.
    destruct (takeTimeout id st) as [[t|] st']; simpl in Hq.
    + apply quiet_advances. eapply quiet_trans; [exact Hq | apply quiet_stopTimer].
    + apply quiet_advances, Hq.
  - destruct (audioRef st); apply quiet_advances;
      [apply quiet_onTime | apply quiet_refl].
  - apply quiet_advances, quiet_ensureFreshAudioUrl.
  - apply advances_playWordWith.
  - apply quiet_advances, quiet_resetRunState.
  - apply quiet_advances, quiet_toggleTts.
Qed.

Lemma step_audioRef st e : audioRef (step Math_round st e) = audioRef st.
Proof. apply advances_step. Qed.


Lemma step_segmentCurrent st e :
  segmentCurrent st -> segmentCurrent (step Math_round st e).
Proof. apply advances_step. Qed.

Lemma run_audioRef events : forall st, audioRef ((run Math_round) st events) = audioRef st.
Proof.
  induction events as [|e events IH]; intros st; simpl; auto.
  now rewrite IH, step_audioRef.
Qed.


Lemma run_segmentCurrent events :
  forall st, segmentCurrent st -> segmentCurrent ((run Math_round) st events).
Proof.
  induction events as [|e events IH]; intros st H; simpl; auto.
  apply IH, step_segmentCurrent, H.
Qed.

Lemma initial_segmentCurrent mounted key : segmentCurrent (initial mounted key).
Proof. intros seg H. discriminate. Qed.


Lemma takeTimeout_some id st t st' :
  takeTimeout id st = (Some t, st') ->
  In t (timeouts st) /\ timeout_id t = id
  /\ audioCalls st' = audioCalls st /\ segmentRef st' = segmentRef st
  /\ playTokenRef st' = playTokenRef st.
Proof.
  unfold takeTimeout.
  destruct (find _ (timeouts st)) as [t0|] eqn:E; [|discriminate].
  intros [= <- <-]. apply find_some in E. destruct E as [Hin Hid].
  apply Pos.eqb_eq in Hid. simpl. auto.
Qed.

Lemma takeTimeout_none id st st' : takeTimeout id st = (None, st') -> st' = st.
Proof.
  unfold takeTimeout. destruct (find _ (timeouts st)); [discriminate|].
  now intros [= <-].
Qed.


End Scheduler.


(** A is played from 0.5 s to 1.5 s and B from 1.5 s to 2.5 s before A's
    timer has fired: A's callback does nothing, and B's timeout pauses. *)
Lemma superseded_stop_timer_example :
  let st :=
    run roundWhole (initial true (Some (str "rec")))
      [CallPlaySegment 0.5 1.5; Resume 1; CallPlaySegment 1.5 2.5; Resume 2] in
  stopTimer 1 st = st
  /\ map timeout_token (timeouts st) = [2]
  /\ audioCalls (step roundWhole st (TimeoutFires 2)) = Pause :: audioCalls st
  /\ audioCalls st
     = [Play; SetCurrentTime 1.5; Pause; Play; SetCurrentTime 0.5; Pause].
Proof. vm_compute. repeat split. Qed.

(** *** Playing a word *)

(** A turn without seek or play, that keeps the error, the token and
    the suspended requests. *)
Definition silent (st st' : State) : Prop :=
  filter seeksOrPlays (audioCalls st') = filter seeksOrPlays (audioCalls st)
  /\ err st' = err st
  /\ playTokenRef st' = playTokenRef st
  /\ suspended st' = suspended st.

Lemma silent_refl st : silent st st.
Proof. unfold silent. auto. Qed.

Lemma silent_trans st1 st2 st3 : silent st1 st2 -> silent st2 st3 -> silent st1 st3.
Proof.
  unfold silent. intros (H1 & H2 & H3 & H4) (H1' & H2' & H3' & H4').
  repeat split; congruence.
Qed.

Lemma silent_call c st : seeksOrPlays c = false -> silent st (call c st).
Proof.
  intros Hc. unfold silent, call. destruct (audioRef st); simpl; auto.
  now rewrite Hc.
Qed.

Lemma silent_with_ui st key url at_ tts :
  silent st (with_ui st key url at_ (err st) tts).
Proof. unfold silent. simpl. auto. Qed.

Lemma silent_stopSegmentTimer st : silent st (stopSegmentTimer st).
Proof.
  unfold silent, stopSegmentTimer. destruct (segmentTimerRef st); simpl; auto.
Qed.

Lemma silent_ensureFreshAudioUrl world st :
  silent st (fst (ensureFreshAudioUrl world st)).
Proof.
  unfold ensureFreshAudioUrl.
  destruct (negb _); [apply silent_refl|].
  destruct (_ && _); [apply silent_refl|].
  destruct (fetched world) as [|got]; [apply silent_refl|]. simpl.
  destruct (if truthyString got then got else None) as [u|].
  - eapply silent_trans; [apply silent_with_ui|].
    eapply silent_trans; apply silent_call; reflexivity.
  - apply silent_with_ui.
Qed.

(** C9 as stated fails: without an audio key, playing a word that has no
    timing returns without setting the error. *)
Lemma playWord_no_audio_no_signal :
  timing untimedWord = None
  /\ err (playWord quietWorld untimedWord (initial true None)) = None.
Proof. split; reflexivity. Qed.

(** C9, amended: when a word without timing is played and
    [ensureFreshAudioUrl] gives a URL, the error "no timing for this word"
    is set; when it gives no URL the call ends with the error as it was;
    either way no seek and no play is made on the audio element, no token is
    minted and no request is left suspended. *)
Theorem playWord_without_timing (world : World) (w : WordDisplay) (st : State) :
  timing w = None ->
  let url := snd (ensureFreshAudioUrl world st) in
  let st' := playWord world w st in
  (url <> None -> err st' = Some NoTimingForWord)
  /\ (url = None -> err st' = err st)
  /\ filter seeksOrPlays (audioCalls st') = filter seeksOrPlays (audioCalls st)
  /\ playTokenRef st' = playTokenRef st
  /\ suspended st' = suspended st.
Proof.
  intros Hw. unfold playWord.
  pose proof (silent_ensureFreshAudioUrl world st) as Hs.
  destruct (ensureFreshAudioUrl world st) as [st1 url]. simpl in *.
  unfold playWordWith. rewrite Hw. destruct url as [u|].
  - assert (Hq : silent st (stopSegmentTimer (stopTts st1))).
    { eapply silent_trans; [exact Hs|].
      eapply silent_trans; [apply (silent_with_ui st1)|].
      apply silent_stopSegmentTimer. }
    destruct Hq as (H1 & H2 & H3 & H4).
    repeat split; auto; congruence.
  - destruct Hs as (H1 & H2 & H3 & H4). repeat split; auto. congruence.
Qed.

(** With an audio key and a URL fetched, the word without timing sets
    the error, and the only calls on the audio element are the ones that
    load the recording. *)
Lemma playWord_without_timing_example :
  let st' := playWord quietWorld untimedWord (initial true (Some (str "rec"))) in
  err st' = Some NoTimingForWord
  /\ audioCalls st' = [Load; SetSrc (str "blob:rec")]
  /\ filter seeksOrPlays (audioCalls st') = [].
Proof.
  pose proof (playWord_without_timing quietWorld untimedWord
                (initial true (Some (str "rec"))) eq_refl) as (H1 & _ & H3 & _).
  split; [|split].
  - apply H1. discriminate.
  - reflexivity.
  - exact H3.
Defined.

(** ** More on the aligner *)

Section PickFacts.

Variable toLowerCase : jsstring -> jsstring.
Variable StringToNumber : jsstring -> float.
Variable ToString : value -> jsstring.

Lemma scan_member lst norm n :
  forall k v p,
    scan toLowerCase lst norm k n = Returns (Some (v, p)) ->
    v = index lst p /\ k <= p < k + n.
Proof.
  induction n as [|n IH]; intros k v p; simpl; [discriminate|].
  destruct (normalizeWord toLowerCase _) as [cw|]; simpl; [|discriminate].
  destruct (negb (jsstring_eqb cw []) && jsstring_eqb cw norm).
  - intros [= <- <-]. split; [reflexivity | lia].
  - intros H. apply IH in H. destruct H as [Hv Hp]. split; [exact Hv | lia].
Qed.

Lemma index_truthy_in lst q : truthy (index lst q) = true -> In (index lst q) lst.
Proof.
  intros H. destruct (Nat.lt_ge_cases q (length lst)) as [Hq|Hq].
  - now apply nth_In.
  - unfold index in H. now rewrite nth_overflow in H.
Qed.

(** What one word picks: a record of the list, or null; and the cursor
    afterwards, one to four positions further. *)
Lemma pickRecord_picks lst raw j picked j' :
  pickRecord toLowerCase lst raw j = Returns (picked, j') ->
  (picked = Null \/ In picked lst) /\ j < j' <= j + 4.
Proof.
  unfold pickRecord. rewrite normalizeWord_Str. simpl.
  assert (Hfall : or_else (index lst j) Null = Null
                  \/ In (or_else (index lst j) Null) lst).
  { unfold or_else. destruct (truthy (index lst j)) eqn:E; auto.
    right. now apply index_truthy_in. }
  destruct (scan toLowerCase lst _ j _) as [[[v p]|]|] eqn:E; simpl; try discriminate.
  - apply scan_member in E. destruct E as [-> Hp].
    destruct (truthy (index lst p)) eqn:Et.
    + rewrite (proj2 (Nat.leb_le j p)) by lia. intros [= <- <-].
      split; [right; now apply index_truthy_in | lia].
    + rewrite Nat.leb_refl. intros [= <- <-]. split; [exact Hfall | lia].
  - rewrite Nat.leb_refl. intros [= <- <-]. split; [exact Hfall | lia].
Qed.

Lemma alignLoop_cursor_bounds lst wordsInText :
  forall i j jend out,
    alignLoop toLowerCase StringToNumber ToString lst wordsInText i j
    = Returns (jend, out) ->
    j + length wordsInText <= jend <= j + 4 * length wordsInText.
Proof.
  induction wordsInText as [|raw rest IH]; intros i j jend out; simpl.
  - intros [= <- <-]. lia.
  - destruct (pickRecord toLowerCase lst raw j) as [[picked j']|] eqn:Ep; simpl;
      [|discriminate].
    apply pickRecord_picks in Ep. destruct Ep as [_ Hj].
    destruct (makeDisplay StringToNumber ToString i raw picked) as [d|]; simpl;
      [|discriminate].
    destruct (alignLoop toLowerCase StringToNumber ToString lst rest (S i) j')
      as [[jend' out']|] eqn:El; simpl; [|discriminate].
    intros [= <- <-]. apply IH in El. lia.
Qed.

(** When the words outnumber what is left of the list, the pass
    throws. *)
Lemma alignLoop_too_few lst wordsInText :
  forall i j,
    wordsInText <> [] ->
    length lst < j + length wordsInText ->
    alignLoop toLowerCase StringToNumber ToString lst wordsInText i j
    = Throws TypeError.
Proof.
  induction wordsInText as [|raw rest IH]; intros i j Hne Hlen; [contradiction|].
  destruct (Nat.le_gt_cases (length lst) j) as [Hout|Hin].
  { now apply alignLoop_exhausted. }
  simpl.
  destruct (pickRecord toLowerCase lst raw j) as [[picked j']|[]] eqn:Ep; simpl;
    [|reflexivity].
  apply pickRecord_picks in Ep. destruct Ep as [_ Hj].
  destruct (makeDisplay StringToNumber ToString i raw picked) as [d|[]]; simpl;
    [|reflexivity].
  rewrite IH; [reflexivity| |simpl in Hlen; lia].
  destruct rest; [simpl in Hlen; lia | discriminate].
Qed.

End PickFacts.

(** X1: the record picked for a word is an element of the score list or
    null: the aligner attaches no record of its own making. *)
Theorem pickRecord_no_fabrication
  (toLowerCase : jsstring -> jsstring) (lst : list value) (raw : jsstring)
  (j : nat) (picked : value) (j' : nat) :
  pickRecord toLowerCase lst raw j = Returns (picked, j') ->
  picked = Null \/ In picked lst.
Proof. intros H. now apply pickRecord_picks in H. Qed.

Lemma pickRecord_no_fabrication_example :
  wordRecord "Cat." 40 = Null \/ In (wordRecord "Cat." 40) fiveRecords.
Proof.
  exact (pickRecord_no_fabrication asciiLower fiveRecords (str "cat") 0
           (wordRecord "Cat." 40) 3 eq_refl).
Defined.

(** X2: each word moves the cursor forward by one to four positions, so
    a pass over n words that starts at 0 ends with the cursor between n and
    4n. *)
Theorem cursor_advances_one_to_four
  (toLowerCase : jsstring -> jsstring) (StringToNumber : jsstring -> float)
  (ToString : value -> jsstring) (lst : list value) :
  (forall raw j picked j',
      pickRecord toLowerCase lst raw j = Returns (picked, j') ->
      j + 1 <= j' <= j + 4)
  /\ (forall wordsInText jend out,
         alignLoop toLowerCase StringToNumber ToString lst wordsInText 0 0
         = Returns (jend, out) ->
         length wordsInText <= jend <= 4 * length wordsInText).
Proof.
  split.
  - intros raw j picked j' H. apply pickRecord_picks in H. lia.
  - intros wordsInText jend out H. apply alignLoop_cursor_bounds in H. lia.
Qed.

Lemma cursor_advances_example : 0 + 1 <= 3 <= 0 + 4.
Proof.
  exact (proj1 (cursor_advances_one_to_four asciiLower decimalToNumber stringOf
                  fiveRecords) (str "cat") 0 (wordRecord "Cat." 40) 3 eq_refl).
Defined.

(** X3: when the score list is not empty and holds fewer elements than
    the text has words, the pass throws a TypeError, whatever the elements
    are: the word that finds the list exhausted picks null, and the timing
    of null is read. *)
Theorem buildWordDisplays_too_few_records
  (toLowerCase : jsstring -> jsstring) (StringToNumber : jsstring -> float)
  (ToString : value -> jsstring) (usedText : jsstring) (speechace : value) :
  getWordScoreList speechace <> [] ->
  length (getWordScoreList speechace) < length (matchAllWords usedText) ->
  buildWordDisplays toLowerCase StringToNumber ToString usedText speechace
  = Throws TypeError.
Proof.
  intros Hne Hlen. unfold buildWordDisplays.
  destruct (trim usedText) as [|c t] eqn:Et.
  { rewrite (blank_no_words usedText (trim_nil_blank usedText Et)) in Hlen.
    simpl in Hlen. lia. }
  destruct (getWordScoreList speechace) as [|r lst] eqn:El; [contradiction|].
  rewrite alignLoop_too_few; [reflexivity| |exact Hlen].
  intros Hw. rewrite Hw in Hlen. simpl in Hlen. lia.
Qed.

Lemma buildWordDisplays_too_few_records_example :
  buildWordDisplays asciiLower decimalToNumber stringOf (str "The cat") oneRecord
  = Throws TypeError.
Proof.
  apply buildWordDisplays_too_few_records.
  - discriminate.
  - vm_compute. lia.
Defined.

Section OneToOne.

Variable toLowerCase : jsstring -> jsstring.
Variable StringToNumber : jsstring -> float.
Variable ToString : value -> jsstring.




End OneToOne.



(** ** More on the tokenizer *)

(** A text that the word pattern matches in full: letters and digits,
    with at most one apostrophe, which has letters or digits on both
    sides. *)
Definition isWordText (m : jsstring) : bool :=
  match span isAlnum m with
  | ([], _) => false
  | (_, []) => true
  | (_, c :: r) => isApos c && match r with [] => false | _ => forallb isAlnum r end
  end.

Definition nonEmpty (m : jsstring) : bool :=
  match m with [] => false | _ => true end.

Definition wellFormedToken (t : Token) : bool :=
  match t with
  | space m => nonEmpty m && forallb isSpace m
  | punct m => nonEmpty m && forallb isOther m
  | word_ m _ => isWordText m
  end.

Definition kindOf (t : Token) : group :=
  match t with
  | space _ => G1
  | word_ _ _ => G2
  | punct _ => G3
  end.

Definition group_eqb (a b : group) : bool :=
  match a, b with
  | G1, G1 | G2, G2 | G3, G3 => true
  | _, _ => false
  end.

(** No two neighbours of the same kind. *)
Fixpoint alternates (tokens : list Token) : bool :=
  match tokens with
  | t1 :: rest =>
      match rest with
      | t2 :: _ => negb (group_eqb (kindOf t1) (kindOf t2))
      | [] => true
      end && alternates rest
  | [] => true
  end.

(** The class of a code unit, as the group that starts with it. *)
Definition classOf (c : code_unit) : group :=
  if isSpace c then G1 else if isAlnum c then G2 else G3.

Lemma span_rest_head p s c r : snd (span p s) = c :: r -> p c = false.
Proof.
  induction s as [|c0 s IH]; simpl; [discriminate|].
  destruct (p c0) eqn:E.
  - destruct (span p s); simpl in *. exact IH.
  - simpl. now intros [= <- _].
Qed.

Lemma span_stop p w rest :
  forallb p w = true ->
  match rest with [] => true | c :: _ => negb (p c) end = true ->
  span p (w ++ rest) = (w, rest).
Proof.
  intros Hw Hr. induction w as [|a w IH]; simpl.
  - destruct rest as [|c r]; [reflexivity|]. simpl.
    now destruct (p c).
  - simpl in Hw. apply andb_prop in Hw. destruct Hw as [Ha Hw].
    rewrite Ha, (IH Hw). reflexivity.
Qed.

Lemma plus_run p s m rest :
  plus p s = Some (m, rest) ->
  nonEmpty m && forallb p m = true
  /\ match rest with [] => true | c :: _ => negb (p c) end = true.
Proof.
  unfold plus. pose proof (span_all p s) as Ha.
  pose proof (span_rest_head p s) as Hr.
  destruct (span p s) as [[|c run] r]; [discriminate|].
  intros [= <- <-]. simpl in *. split; [exact Ha|].
  destruct r as [|c' r']; [reflexivity|]. now rewrite (Hr c' r' eq_refl).
Qed.

Lemma isApos_not_alnum c : isApos c = true -> isAlnum c = false.
Proof.
  unfold isApos. rewrite orb_true_iff, !N.eqb_eq. intros H.
  destruct (isAlnum c) eqn:E; auto. apply isAlnum_range in E. lia.
Qed.

Lemma matchWord_run s m rest :
  matchWord s = Some (m, rest) ->
  isWordText m = true
  /\ match rest with [] => true | c :: _ => negb (isAlnum c) end = true.
Proof.
  unfold matchWord. destruct (plus isAlnum s) as [[w r]|] eqn:E; [|discriminate].
  apply plus_run in E. destruct E as [Hw Hr].
  apply andb_prop in Hw. destruct Hw as [Hne Hw].
  assert (Hplain : isWordText w = true).
  { unfold isWordText. rewrite <- (app_nil_r w) at 1.
    rewrite (span_stop isAlnum w [] Hw eq_refl). now destruct w. }
  destruct r as [|c r'].
  - intros [= <- <-]. now split.
  - destruct (isApos c) eqn:Ea.
    + destruct (plus isAlnum r') as [[w' r'']|] eqn:E'.
      * apply plus_run in E'. destruct E' as [Hw' Hr'].
        apply andb_prop in Hw'. destruct Hw' as [Hne' Hw'].
        intros [= <- <-]. split; [|exact Hr'].
        unfold isWordText. rewrite (span_stop isAlnum w (c :: w') Hw).
        -- destruct w; [discriminate|]. rewrite Ea. simpl.
           destruct w'; [discriminate | exact Hw'].
        -- simpl. now rewrite (isApos_not_alnum c Ea).
      * intros [= <- <-]. now split.
    + intros [= <- <-]. now split.
Qed.

Lemma matchToken_run s g m rest :
  matchToken s = Some ((g, m), rest) ->
  match g with
  | G1 => nonEmpty m && forallb isSpace m
  | G2 => isWordText m
  | G3 => nonEmpty m && forallb isOther m
  end = true
  /\ match rest with [] => true | c :: _ => negb (group_eqb (classOf c) g) end = true.
Proof.
  unfold matchToken.
  destruct (plus isSpace s) as [[m1 r1]|] eqn:E1.
  { intros [= <- <- <-]. apply plus_run in E1. destruct E1 as [Hm Hr].
    split; [exact Hm|]. destruct r1 as [|c r]; [reflexivity|].
    unfold classOf. destruct (isSpace c); [discriminate|]. now destruct (isAlnum c). }
  destruct (matchWord s) as [[m2 r2]|] eqn:E2.
  { intros [= <- <- <-]. apply matchWord_run in E2. destruct E2 as [Hm Hr].
    split; [exact Hm|]. destruct r2 as [|c r]; [reflexivity|].
    unfold classOf. destruct (isSpace c); [reflexivity|].
    now destruct (isAlnum c). }
  destruct (plus isOther s) as [[m3 r3]|] eqn:E3; [|discriminate].
  intros [= <- <- <-]. apply plus_run in E3. destruct E3 as [Hm Hr].
  split; [exact Hm|]. destruct r3 as [|c r]; [reflexivity|].
  unfold classOf, isOther in *. destruct (isSpace c); [reflexivity|].
  now destruct (isAlnum c).
Qed.

(** A group starts with a code unit of its class. *)
Lemma matchToken_class c s g m rest :
  matchToken (c :: s) = Some ((g, m), rest) -> g = classOf c.
Proof.
  unfold matchToken, classOf.
  destruct (isSpace c) eqn:Es.
  { pose proof (plus_head isSpace c s Es).
    destruct (plus isSpace (c :: s)) as [[m1 r1]|]; [|contradiction].
    now intros [= <- _ _]. }
  rewrite (plus_no_head isSpace c s Es).
  destruct (isAlnum c) eqn:Ea.
  { pose proof (matchWord_head c s Ea).
    destruct (matchWord (c :: s)) as [[m1 r1]|]; [|contradiction].
    now intros [= <- _ _]. }
  rewrite (matchWord_no_head c s Ea).
  destruct (plus isOther (c :: s)) as [[m1 r1]|]; [|discriminate].
  now intros [= <- _ _].
Qed.

Lemma tokenLoop_head wordDisplays c s wi :
  exists t ts, tokenLoop wordDisplays (c :: s) wi = t :: ts /\ kindOf t = classOf c.
Proof.
  rewrite tokenLoop_eq. pose proof (matchToken_head c s) as Hh.
  destruct (matchToken (c :: s)) as [[[g m] rest]|] eqn:E; [|contradiction].
  apply matchToken_class in E. rewrite <- E. destruct g; eauto.
Qed.

Lemma tokenLoop_shape wordDisplays n :
  forall s wi, length s <= n ->
               forallb wellFormedToken (tokenLoop wordDisplays s wi) = true
               /\ alternates (tokenLoop wordDisplays s wi) = true.
Proof.
  induction n as [|n IH]; intros s wi Hn; rewrite tokenLoop_eq.
  - destruct s; [split; reflexivity | simpl in Hn; lia].
  - destruct (matchToken s) as [[[g m] rest]|] eqn:E; [|split; reflexivity].
    pose proof (matchToken_consumes _ _ _ E) as Hlt.
    apply matchToken_run in E. destruct E as [Hm Hr].
    assert (Hnext : forall wi' t,
               kindOf t = g ->
               alternates (t :: tokenLoop wordDisplays rest wi') = true).
    { intros wi' t Hk. simpl. rewrite (proj2 (IH rest wi' ltac:(lia))), andb_true_r.
      destruct rest as [|c r].
      - rewrite tokenLoop_eq. reflexivity.
      - destruct (tokenLoop_head wordDisplays c r wi') as (t2 & ts & -> & Hk2).
        rewrite Hk, Hk2. destruct (classOf c), g; simpl in *; congruence. }
    destruct g; (split; [simpl; rewrite Hm; apply IH; lia | now apply Hnext]).
Qed.

(** X5: every token holds a text of its kind, and none is empty: a space
    token is a run of white space, a punctuation token a run of code units
    that are neither letters, digits nor white space, and a word token is
    letters and digits with at most one apostrophe, which has letters or
    digits on both sides. *)
Theorem tokenizeAndAttach_well_formed (text : jsstring) (wordDisplays : list WordDisplay) :
  forallb wellFormedToken (tokenizeAndAttach text wordDisplays) = true.
Proof.
  unfold tokenizeAndAttach. destruct text as [|c text]; [reflexivity|].
  apply (tokenLoop_shape wordDisplays (length (c :: text))). lia.
Qed.

(** X6: the runs are maximal: no two neighbouring tokens are of the same
    kind. *)
Theorem tokenizeAndAttach_alternates (text : jsstring) (wordDisplays : list WordDisplay) :
  alternates (tokenizeAndAttach text wordDisplays) = true.
Proof.
  unfold tokenizeAndAttach. destruct text as [|c text]; [reflexivity|].
  apply (tokenLoop_shape wordDisplays (length (c :: text))). lia.
Qed.

Lemma nth_error_flat_words tokens :
  length (wordTexts tokens) = length (attachments tokens).
Proof.
  induction tokens as [|[] tokens IH]; simpl; auto.
Qed.

(** X7: for any list of displays, the word tokens are, in order, the
    words that the aligner finds in the same text, and the i-th word token
    carries the i-th display, or null when there are fewer displays. *)
Theorem tokenizeAndAttach_attaches_in_order
  (text : jsstring) (wordDisplays : list WordDisplay) :
  let tokens := tokenizeAndAttach text wordDisplays in
  wordTexts tokens = matchAllWords text
  /\ length (attachments tokens) = length (matchAllWords text)
  /\ forall i, i < length (matchAllWords text) ->
               nth_error (attachments tokens) i = Some (nth_error wordDisplays i).
Proof.
  intros tokens. destruct (tokenizeAndAttach_words text wordDisplays) as [Hw Ha].
  fold tokens in Hw, Ha. split; [exact Hw|]. split.
  - now rewrite <- nth_error_flat_words, Hw.
  - intros i Hi. rewrite Ha.
    rewrite nth_error_map, nth_error_seq.
    destruct (Nat.ltb_spec i (length (matchAllWords text))); [reflexivity | lia].
Qed.

(** ** More on the playback scheduler *)

Section Requests.

Variable Math_round : float -> float.


Lemma doSeekPlay_stale r st :
  req_token r <> playTokenRef st -> doSeekPlay Math_round r st = st.
Proof.
  intros H. unfold doSeekPlay.
  destruct (Nat.eqb_spec (req_token r) (playTokenRef st)); [contradiction|reflexivity].
Qed.

Lemma takeRequest_found token st r st' :
  takeRequest token st = (Some r, st') ->
  In r (suspended st) /\ req_token r = token
  /\ st' = with_loop st (nextTimeout st)
             (filter (fun r => negb (req_token r =? token)%nat) (suspended st)).
Proof.
  unfold takeRequest. destruct (find _ (suspended st)) as [r0|] eqn:E; [|discriminate].
  intros [= <- <-]. apply find_some in E. destruct E as [Hin Ht].
  apply Nat.eqb_eq in Ht. auto.
Qed.

Lemma takeRequest_missing token st st' :
  takeRequest token st = (None, st') -> st' = st.
Proof.
  unfold takeRequest. destruct (find _ (suspended st)); [discriminate|].
  now intros [= <-].
Qed.

(** *** Turns that make no seek and no play *)

Definition calm (st st' : State) : Prop :=
  filter seeksOrPlays (audioCalls st') = filter seeksOrPlays (audioCalls st).

Lemma calm_refl st : calm st st.
Proof. reflexivity. Qed.

Lemma calm_trans st1 st2 st3 : calm st1 st2 -> calm st2 st3 -> calm st1 st3.
Proof. unfold calm. congruence. Qed.

Lemma calm_same st st' : audioCalls st' = audioCalls st -> calm st st'.
Proof. unfold calm. now intros ->. Qed.

Lemma calm_call c st : seeksOrPlays c = false -> calm st (call c st).
Proof. intros H. now destruct (silent_call c st H). Qed.

Lemma calm_stopSegmentTimer st : calm st (stopSegmentTimer st).
Proof. now destruct (silent_stopSegmentTimer st). Qed.

Lemma calm_playSegment startSec endSec st : calm st (playSegment startSec endSec st).
Proof.
  unfold playSegment. destruct (negb (audioRef st)); [apply calm_refl|].
  eapply calm_trans; [apply calm_stopSegmentTimer|].
  set (st1 := setSegment None (stopSegmentTimer st)).
  set (st2 := with_player st1 (audioCalls st1) (playTokenRef st1 + 1) (segmentRef st1)
                (segmentTimerRef st1) (timeouts st1)).
  eapply (calm_trans _ (call Pause st2)); [|now apply calm_same].
  eapply (calm_trans _ st2); [now apply calm_same | now apply calm_call].
Qed.

Lemma calm_stopTimer token st : calm st (stopTimer token st).
Proof.
  unfold stopTimer. destruct (segmentRef st); [|apply calm_refl].
  destruct (negb _); [apply calm_refl|].
  eapply calm_trans; [apply (calm_call Pause); reflexivity | now apply calm_same].
Qed.

Lemma calm_onTime currentTime st : calm st (onTime currentTime st).
Proof.
  unfold onTime. destruct (segmentRef st); [|apply calm_refl].
  destruct (negb _); [apply calm_refl|].
  destruct (_ <=? _)%float; [|apply calm_refl].
  eapply calm_trans; [apply (calm_call Pause); reflexivity|].
  eapply calm_trans; [|apply calm_stopSegmentTimer]. now apply calm_same.
Qed.

Lemma calm_resetRunState st : calm st (resetRunState st).
Proof.
  unfold resetRunState.
  set (st1 := with_ui st None None None None (ttsSpeaking st)).
  eapply (calm_trans _ st1); [now apply calm_same|].
  eapply calm_trans; [apply calm_stopSegmentTimer|].
  eapply (calm_trans _ (call Pause (setSegment None (stopSegmentTimer st1)))).
  - eapply calm_trans; [|apply (calm_call Pause); reflexivity]. now apply calm_same.
  - now apply calm_same.
Qed.

Lemma calm_toggleTts st : calm st (toggleTts st).
Proof.
  unfold toggleTts. destruct (ttsSpeaking st); [now apply calm_same|].
  eapply calm_trans; [apply (calm_call Pause); reflexivity|].
  eapply calm_trans; [apply calm_stopSegmentTimer|]. now apply calm_same.
Qed.

Lemma calm_playWordWith url w st : calm st (playWordWith url w st).
Proof.
  unfold playWordWith. destruct url; [|apply calm_refl].
  assert (H : calm st (stopSegmentTimer (stopTts st))).
  { eapply (calm_trans _ (stopTts st)); [now apply calm_same|].
    apply calm_stopSegmentTimer. }
  destruct (timing w).
  - eapply calm_trans; [exact H | apply calm_playSegment].
  - eapply calm_trans; [exact H | now apply calm_same].
Qed.

(** Only [doSeekPlay] of the current request seeks and plays. *)
Lemma step_seeks st e :
  calm st (step Math_round st e)
  \/ exists r, e = Resume (req_token r) /\ In r (suspended st)
               /\ req_token r = playTokenRef st
               /\ audioCalls (step Math_round st e)
                  = Play :: SetCurrentTime (Math_max 0 (req_startSec r)) :: audioCalls st.
Proof.
  destruct e; simpl;
    try (left;
         first [ apply calm_playSegment | apply calm_onTime | apply calm_playWordWith
               | apply calm_resetRunState | apply calm_toggleTts ]).
  - destruct (takeRequest token st) as [[r|] st'] eqn:E.
    + apply takeRequest_found in E. destruct E as (Hin & <- & ->).
      destruct (Nat.eq_dec (req_token r) (playTokenRef st)) as [Hcur|Hstale].
      * assert (Hcalls :
                 audioCalls
                   (doSeekPlay Math_round r
                      (with_loop st (nextTimeout st)
                         (filter (fun r0 => negb (req_token r0 =? req_token r)%nat)
                            (suspended st))))
                 = if audioRef st
                   then Play :: SetCurrentTime (Math_max 0 (req_startSec r))
                          :: audioCalls st
                   else audioCalls st).
        { unfold doSeekPlay. simpl. rewrite Hcur, Nat.eqb_refl. simpl.
          unfold call. simpl. destruct (audioRef st) eqn:Ha; simpl; rewrite ?Ha;
            reflexivity. }
        destruct (audioRef st) eqn:Ha.
        -- right. exists r. repeat split; auto.
        -- left. now apply calm_same.
      * left. rewrite doSeekPlay_stale by exact Hstale. now apply calm_same.
    + apply takeRequest_missing in E. subst st'. left. apply calm_refl.
  - left. unfold takeRequest. destruct (find _ _); simpl; now apply calm_same.
  - left. destruct (takeTimeout id st) as [[t|] st'] eqn:E.
    + destruct (takeTimeout_some id st t st' E) as (_ & _ & Hc & _ & _).
      eapply (calm_trans _ st'); [now apply calm_same | apply calm_stopTimer].
    + apply takeTimeout_none in E. subst st'. apply calm_refl.
  - left. destruct (audioRef st); [apply calm_onTime | apply calm_refl].
  - left. now destruct (silent_ensureFreshAudioUrl world st).
Qed.


(** *** The stop-timers that are pending *)

(** At most one timeout is pending; it is the one that
    [segmentTimerRef] holds and it belongs to the current token; and none
    is pending while the call with the current token is suspended. *)
Definition tidy (st : State) : Prop :=
  length (timeouts st) <= 1
  /\ (forall t, In t (timeouts st) ->
                segmentTimerRef st = Some (timeout_id t)
                /\ timeout_token t = playTokenRef st)
  /\ ((exists r, In r (suspended st) /\ req_token r = playTokenRef st) ->
      timeouts st = []).

Lemma tidy_empty st : timeouts st = [] -> tidy st.
Proof.
  intros H. unfold tidy. rewrite H. simpl. repeat split; auto; contradiction.
Qed.

Lemma tidy_frame st st' :
  timeouts st' = timeouts st -> segmentTimerRef st' = segmentTimerRef st ->
  playTokenRef st' = playTokenRef st -> incl (suspended st') (suspended st) ->
  tidy st -> tidy st'.
Proof.
  unfold tidy. intros Ht Hs Hp Hi (H1 & H2 & H3). rewrite Ht, Hs, Hp.
  repeat split; auto; try (now apply H2).
  intros (r & Hr & Hc). apply H3. exists r. split; auto.
Qed.

Lemma tidy_call c st : tidy st -> tidy (call c st).
Proof.
  unfold call. destruct (audioRef st); auto.
Qed.

Lemma tidy_setSegment seg st : tidy st -> tidy (setSegment seg st).
Proof. exact (fun H => H). Qed.

Lemma tidy_with_ui st key url at_ e tts : tidy st -> tidy (with_ui st key url at_ e tts).
Proof. exact (fun H => H). Qed.

Lemma clearTimeout_all id ts :
  (forall t, In t ts -> timeout_id t = id) -> clearTimeout id ts = [].
Proof.
  intros H. unfold clearTimeout. induction ts as [|t ts IH]; simpl; auto.
  rewrite (H t (or_introl eq_refl)), Pos.eqb_refl. simpl.
  apply IH. intros t' Ht'. apply H. now right.
Qed.

Lemma stopSegmentTimer_clears st :
  tidy st -> timeouts (stopSegmentTimer st) = [].
Proof.
  intros (H1 & H2 & H3). unfold stopSegmentTimer.
  destruct (segmentTimerRef st) as [id|] eqn:E; simpl.
  - apply clearTimeout_all. intros t Ht. destruct (H2 t Ht) as [Hid _]. congruence.
  - destruct (timeouts st) as [|t ts]; auto.
    destruct (H2 t (or_introl eq_refl)) as [Hid _]. discriminate.
Qed.

Lemma tidy_stopSegmentTimer st : tidy st -> tidy (stopSegmentTimer st).
Proof. intros H. apply tidy_empty. now apply stopSegmentTimer_clears. Qed.

Lemma call_timeouts c st : timeouts (call c st) = timeouts st.
Proof. unfold call. now destruct (audioRef st). Qed.

Lemma call_segmentTimerRef c st : segmentTimerRef (call c st) = segmentTimerRef st.
Proof. unfold call. now destruct (audioRef st). Qed.


Lemma stopSegmentTimer_forgets st : segmentTimerRef (stopSegmentTimer st) = None.
Proof. unfold stopSegmentTimer. now destruct (segmentTimerRef st) eqn:E. Qed.

Lemma tidy_playSegment startSec endSec st :
  tidy st -> tidy (playSegment startSec endSec st).
Proof.
  intros H. unfold playSegment. destruct (negb (audioRef st)); auto.
  apply tidy_empty. simpl. rewrite call_timeouts. simpl.
  now apply stopSegmentTimer_clears.
Qed.

Lemma takeTimeout_tidy id st :
  tidy st ->
  tidy (snd (takeTimeout id st))
  /\ (forall t st', takeTimeout id st = (Some t, st') -> timeouts st' = []).
Proof.
  intros H. pose proof H as (H1 & H2 & H3). unfold takeTimeout.
  destruct (find _ (timeouts st)) as [t|] eqn:E; simpl.
  - apply find_some in E. destruct E as [Hin Hid]. apply Pos.eqb_eq in Hid.
    assert (Hnil : clearTimeout id (timeouts st) = []).
    { apply clearTimeout_all. intros t' Ht'.
      destruct (H2 t Hin) as [Ha _]. destruct (H2 t' Ht') as [Hb _]. congruence. }
    split; [now apply tidy_empty|]. now intros t0 st' [= _ <-].
  - split; [exact H | discriminate].
Qed.

Lemma tidy_stopTimer token st : timeouts st = [] -> tidy (stopTimer token st).
Proof.
  intros H. apply tidy_empty. unfold stopTimer.
  destruct (segmentRef st); auto. destruct (negb _); auto.
  simpl. now rewrite call_timeouts.
Qed.

Lemma tidy_takeRequest token st : tidy st -> tidy (snd (takeRequest token st)).
Proof.
  unfold takeRequest. destruct (find _ (suspended st)); simpl; auto.
  apply tidy_frame; simpl; auto. intros r' Hr'. now apply filter_In in Hr'.
Qed.

Lemma doSeekPlay_current r st :
  req_token r = playTokenRef st ->
  timeouts (doSeekPlay Math_round r st)
  = {| timeout_id := nextTimeout st; timeout_token := req_token r;
       timeout_ms :=
         Math_max 80 (Math_round ((req_endSec r - req_startSec r) * 1000) + 60)%float |}
      :: timeouts st
  /\ segmentTimerRef (doSeekPlay Math_round r st) = Some (nextTimeout st)
  /\ playTokenRef (doSeekPlay Math_round r st) = playTokenRef st
  /\ suspended (doSeekPlay Math_round r st) = suspended st.
Proof.
  intros Hcur. unfold doSeekPlay. rewrite Hcur, Nat.eqb_refl. simpl.
  unfold call. simpl.
  destruct (audioRef st) eqn:Ha; simpl; rewrite ?Ha; simpl; repeat split; reflexivity.
Qed.

Lemma tidy_doSeekPlay r st :
  tidy st -> In r (suspended st) ->
  tidy (doSeekPlay Math_round r
          (with_loop st (nextTimeout st)
             (filter (fun r0 => negb (req_token r0 =? req_token r)%nat) (suspended st)))).
Proof.
  intros H Hin. pose proof H as (H1 & H2 & H3).
  destruct (Nat.eq_dec (req_token r) (playTokenRef st)) as [Hcur|Hstale].
  - assert (Hnil : timeouts st = []) by (apply H3; eauto).
    set (st0 := with_loop st _ _).
    destruct (doSeekPlay_current r st0 Hcur) as (Ht & Hs & Hp & Hq).
    unfold tidy. rewrite Ht, Hs, Hp, Hq. simpl. rewrite Hnil.
    split; [auto|split].
    + intros t [<-|[]]. simpl. auto.
    + intros (r' & Hr' & Hc'). exfalso.
      apply filter_In in Hr'. destruct Hr' as [_ Hf].
      rewrite Hc', Hcur, Nat.eqb_refl in Hf. discriminate.
  - rewrite doSeekPlay_stale by (simpl; exact Hstale).
    revert H. apply tidy_frame; simpl; auto. intros r' Hr'. now apply filter_In in Hr'.
Qed.

Lemma tidy_step st e : tidy st -> tidy (step Math_round st e).
Proof.
  intros H. destruct e; simpl.
  - now apply tidy_playSegment.
  - destruct (takeRequest token st) as [[r|] st'] eqn:E.
    + apply takeRequest_found in E. destruct E as (Hin & <- & ->).
      now apply tidy_doSeekPlay.
    + apply takeRequest_missing in E. now subst st'.
  - now apply tidy_takeRequest.
  - destruct (takeTimeout_tidy id st H) as [Ht Hnil].
    destruct (takeTimeout id st) as [[t|] st'] eqn:E; simpl in Ht; auto.
    apply tidy_stopTimer. eapply Hnil. reflexivity.
  - destruct (audioRef st); auto. unfold onTime.
    destruct (segmentRef st); auto. destruct (negb _); auto.
    destruct (_ <=? _)%float; auto.
    now apply tidy_stopSegmentTimer, tidy_setSegment, tidy_call.
  - unfold ensureFreshAudioUrl.
    destruct (negb _); auto. destruct (_ && _); auto.
    destruct (fetched world) as [|got]; auto. simpl.
    destruct (if truthyString got then got else None).
    + now apply tidy_call, tidy_call, tidy_with_ui.
    + now apply tidy_with_ui.
  - unfold playWordWith. destruct url; auto.
    assert (H1 : tidy (stopSegmentTimer (stopTts st))).
    { now apply tidy_stopSegmentTimer, tidy_with_ui. }
    destruct (timing w).
    + now apply tidy_playSegment.
    + now apply tidy_with_ui.
  - unfold resetRunState.
    now apply tidy_with_ui, tidy_call, tidy_setSegment, tidy_stopSegmentTimer,
      tidy_with_ui.
  - unfold toggleTts. destruct (ttsSpeaking st); [now apply tidy_with_ui|].
    now apply tidy_with_ui, tidy_setSegment, tidy_stopSegmentTimer, tidy_call.
Qed.

Lemma tidy_run events : forall st, tidy st -> tidy (run Math_round st events).
Proof.
  induction events as [|e events IH]; intros st H; simpl; auto.
  apply IH, tidy_step, H.
Qed.

End Requests.


(** X9: only the newest request can start playback: a turn of the event
    loop that makes a seek or a play on the audio element is the resumption
    of a suspended call of [playSegment] whose token is the current one, and
    what it does is set the position to the start of its interval, at least
    0, and play. *)
Theorem only_current_request_plays
  (Math_round : float -> float) (st : State) (e : Event) :
  filter seeksOrPlays (audioCalls (step Math_round st e))
  <> filter seeksOrPlays (audioCalls st) ->
  exists r, e = Resume (req_token r) /\ In r (suspended st)
            /\ req_token r = playTokenRef st
            /\ audioCalls (step Math_round st e)
               = Play :: SetCurrentTime (Math_max 0 (req_startSec r)) :: audioCalls st.
Proof.
  intros H. destruct (step_seeks Math_round st e) as [Hc|Hr]; [|exact Hr].
  contradiction.
Qed.

(** After a call for the interval from 0.5 s to 1.5 s, the turn that
    resumes it seeks to 0.5 s and plays. *)
Lemma only_current_request_plays_example :
  let st := run roundWhole (initial true (Some (str "rec"))) [CallPlaySegment 0.5 1.5] in
  exists r, Resume 1 = Resume (req_token r) /\ In r (suspended st)
            /\ req_token r = playTokenRef st
            /\ audioCalls (step roundWhole st (Resume 1))
               = Play :: SetCurrentTime (Math_max 0 (req_startSec r)) :: audioCalls st.
Proof.
  apply (only_current_request_plays roundWhole
           (run roundWhole (initial true (Some (str "rec"))) [CallPlaySegment 0.5 1.5])
           (Resume 1)).
  vm_compute. discriminate.
Defined.


(** X10: whatever happens after the first render, at most one stop-timer
    is pending; the pending one is the one whose id [segmentTimerRef] holds,
    and it was set by the call of [playSegment] with the current token; and
    while the call with the current token is still suspended before its seek,
    no stop-timer is pending at all. *)
Theorem at_most_one_stop_timer
  (Math_round : float -> float) (mounted : bool) (key : option jsstring)
  (events : list Event) :
  let st := run Math_round (initial mounted key) events in
  length (timeouts st) <= 1
  /\ (forall t, In t (timeouts st) ->
                segmentTimerRef st = Some (timeout_id t)
                /\ timeout_token t = playTokenRef st)
  /\ ((exists r, In r (suspended st) /\ req_token r = playTokenRef st) ->
      timeouts st = []).
Proof.
  intros st. apply (tidy_run Math_round events). now apply tidy_empty.
Qed.


(** X12: the [timeupdate] listener ends a segment that has run to its
    end. Whatever happened since the first render with the audio element
    mounted, when a segment is in play and the position reported is at or
    past its end, the listener pauses, drops the segment and leaves no
    stop-timer pending; the token test of the listener never fails. *)
Theorem timeupdate_past_end_stops
  (Math_round : float -> float) (key : option jsstring) (events : list Event)
  (seg : Segment) (currentTime : float) :
  let st := run Math_round (initial true key) events in
  segmentRef st = Some seg ->
  (seg_endSec seg <=? currentTime)%float = true ->
  let st' := step Math_round st (TimeUpdate currentTime) in
  playTokenRef st = seg_token seg
  /\ audioCalls st' = Pause :: audioCalls st
  /\ segmentRef st' = None
  /\ segmentTimerRef st' = None
  /\ timeouts st' = [].
Proof.
  intros st Hseg Hend st'.
  assert (Ha : audioRef st = true) by (unfold st; now rewrite run_audioRef).
  assert (Hcur : segmentCurrent st).
  { apply run_segmentCurrent, initial_segmentCurrent. }
  assert (Ht : tidy st).
  { apply (tidy_run Math_round events). now apply tidy_empty. }
  pose proof (Hcur seg Hseg) as Htok.
  split; [now symmetry|].
  unfold st'. simpl. rewrite Ha. unfold onTime. rewrite Hseg, Htok, Nat.eqb_refl, Hend.
  simpl.
  assert (Hc : call Pause st
               = with_player st (Pause :: audioCalls st) (playTokenRef st) (segmentRef st)
                   (segmentTimerRef st) (timeouts st)).
  { unfold call. now rewrite Ha. }
  split; [|split; [|split]].
  - unfold stopSegmentTimer. simpl. rewrite Hc. simpl.
    now destruct (segmentTimerRef st).
  - unfold stopSegmentTimer. simpl. rewrite call_segmentTimerRef.
    now destruct (segmentTimerRef st).
  - apply stopSegmentTimer_forgets.
  - apply stopSegmentTimer_clears. now apply tidy_setSegment, tidy_call.
Qed.

(** The segment from 0.5 s to 1.5 s is in play and the position 1.5 s is
    reported. *)
Lemma timeupdate_past_end_stops_example :
  let st := run roundWhole (initial true (Some (str "rec")))
              [CallPlaySegment 0.5 1.5; Resume 1] in
  let st' := step roundWhole st (TimeUpdate 1.5) in
  segmentRef st = Some {| seg_endSec := 1.5; seg_token := 1 |}
  /\ audioCalls st' = [Pause; Play; SetCurrentTime 0.5; Pause]
  /\ segmentRef st' = None
  /\ timeouts st' = [].
Proof.
  pose proof (timeupdate_past_end_stops roundWhole (Some (str "rec"))
                [CallPlaySegment 0.5 1.5; Resume 1]
                {| seg_endSec := 1.5; seg_token := 1 |} 1.5 eq_refl eq_refl)
    as (_ & H2 & H3 & _ & H5).
  split; [reflexivity|split; [|split]].
  - rewrite H2. reflexivity.
  - exact H3.
  - exact H5.
Defined.

(** X13: the address that [ensureFreshAudioUrl] answers is never the
    empty string, and it is the address that the state holds afterwards:
    whether it came from the cache, from the fetch, or from the cache after a
    failed fetch. Without a key the answer is null and nothing changes. *)
Theorem ensureFreshAudioUrl_answer (w : World) (st : State) :
  (forall u, snd (ensureFreshAudioUrl w st) = Some u ->
             u <> [] /\ audioUrl (fst (ensureFreshAudioUrl w st)) = Some u
             /\ truthyString (audioKey st) = true)
  /\ (truthyString (audioKey st) = false ->
      ensureFreshAudioUrl w st = (st, None)).
Proof.
  assert (Hne : forall o u, truthyString o = true -> o = Some u -> u <> []).
  { intros o u H ->. now destruct u. }
  assert (Hcall : forall c s, audioUrl (call c s) = audioUrl s).
  { intros c s. unfold call. now destruct (audioRef s). }
  split.
  - intros u. unfold ensureFreshAudioUrl.
    destruct (truthyString (audioKey st)) eqn:Hk; simpl; [|discriminate].
    destruct (truthyString (audioUrl st)) eqn:Hu; simpl.
    + destruct (truthyNumber (audioUrlAt st) && _); simpl.
      * intros H. split; [|split]; auto. eapply Hne; eauto.
      * destruct (fetched w) as [|got]; simpl.
        -- intros H. split; [|split]; auto. eapply Hne; eauto.
        -- destruct (truthyString got) eqn:Hg; [|discriminate].
           intros ->. split; [|split]; auto.
           ++ eapply Hne; eauto.
           ++ now rewrite !Hcall.
    + destruct (fetched w) as [|got]; simpl; [discriminate|].
      destruct (truthyString got) eqn:Hg; [|discriminate].
      intros ->. split; [|split]; auto.
      * eapply Hne; eauto.
      * now rewrite !Hcall.
  - intros Hk. unfold ensureFreshAudioUrl. now rewrite Hk.
Qed.

(** *** The delay of the stop-timer *)

Section Delays.

Variable Math_round : float -> float.

(** A turn that sets no timeout. *)
Definition keeps (st st' : State) : Prop := incl (timeouts st') (timeouts st).

Lemma keeps_refl st : keeps st st.
Proof. apply incl_refl. Qed.

Lemma keeps_trans st1 st2 st3 : keeps st1 st2 -> keeps st2 st3 -> keeps st1 st3.
Proof. unfold keeps. intros H1 H2. eapply incl_tran; eauto. Qed.

Lemma keeps_same st st' : timeouts st' = timeouts st -> keeps st st'.
Proof. unfold keeps. intros ->. apply incl_refl. Qed.

Lemma keeps_call c st : keeps st (call c st).
Proof. apply keeps_same, call_timeouts. Qed.

Lemma keeps_stopSegmentTimer st : keeps st (stopSegmentTimer st).
Proof.
  unfold keeps, stopSegmentTimer. destruct (segmentTimerRef st); [|apply incl_refl].
  simpl. intros t Ht. unfold clearTimeout in Ht. now apply filter_In in Ht.
Qed.

Lemma keeps_playSegment startSec endSec st : keeps st (playSegment startSec endSec st).
Proof.
  unfold playSegment. destruct (negb (audioRef st)); [apply keeps_refl|].
  eapply keeps_trans; [apply keeps_stopSegmentTimer|].
  apply keeps_same. simpl. now rewrite call_timeouts.
Qed.

Lemma keeps_stopTimer token st : keeps st (stopTimer token st).
Proof.
  unfold stopTimer. destruct (segmentRef st); [|apply keeps_refl].
  destruct (negb _); [apply keeps_refl|].
  apply keeps_same. simpl. apply call_timeouts.
Qed.

Lemma keeps_takeTimeout id st : keeps st (snd (takeTimeout id st)).
Proof.
  unfold takeTimeout. destruct (find _ (timeouts st)); simpl; [|apply keeps_refl].
  intros t' Ht. simpl in Ht. unfold clearTimeout in Ht. now apply filter_In in Ht.
Qed.

Lemma keeps_takeRequest token st : keeps st (snd (takeRequest token st)).
Proof.
  unfold takeRequest. destruct (find _ (suspended st)); simpl; now apply keeps_same.
Qed.

(** The timeouts pending wait 80 ms or more, or their delay is NaN. *)
Definition patient (st : State) : Prop :=
  forall t, In t (timeouts st) ->
            is_nan (timeout_ms t) = false -> (80 <=? timeout_ms t)%float = true.

Lemma patient_keeps st st' : keeps st st' -> patient st -> patient st'.
Proof. intros Hk Hp t Ht. apply Hp, Hk, Ht. Qed.

Lemma patient_doSeekPlay r st : patient st -> patient (doSeekPlay Math_round r st).
Proof.
  intros Hp. destruct (Nat.eq_dec (req_token r) (playTokenRef st)) as [Hcur|Hstale].
  - destruct (doSeekPlay_current Math_round r st Hcur) as (Ht & _).
    intros t. rewrite Ht. intros [<-|Hin]; [|now apply Hp].
    simpl. intros Hnan.
    destruct (Math_max_nan _ _ Hnan) as [H80 Hb]. now apply Math_max_ge_l.
  - now rewrite doSeekPlay_stale.
Qed.

Lemma patient_step st e : patient st -> patient (step Math_round st e).
Proof.
  intros Hp. destruct e; simpl.
  - eapply patient_keeps; [apply keeps_playSegment | exact Hp].
  - pose proof (keeps_takeRequest token st) as Hk.
    destruct (takeRequest token st) as [[r|] st']; simpl in Hk.
    + apply patient_doSeekPlay. eapply patient_keeps; eauto.
    + eapply patient_keeps; eauto.
  - eapply patient_keeps; [apply keeps_takeRequest | exact Hp].
  - pose proof (keeps_takeTimeout id st) as Hk.
    destruct (takeTimeout id st) as [[t|] st']; simpl in Hk.
    + eapply patient_keeps; [|exact Hp].
      eapply keeps_trans; [exact Hk | apply keeps_stopTimer].
    + eapply patient_keeps; eauto.
  - destruct (audioRef st); auto. unfold onTime.
    destruct (segmentRef st); auto. destruct (negb _); auto.
    destruct (_ <=? _)%float; auto.
    eapply patient_keeps; [|exact Hp].
    eapply keeps_trans; [|apply keeps_stopSegmentTimer].
    apply keeps_same. simpl. apply call_timeouts.
  - eapply patient_keeps; [|exact Hp]. unfold ensureFreshAudioUrl.
    destruct (negb _); [apply keeps_refl|]. destruct (_ && _); [apply keeps_refl|].
    destruct (fetched world) as [|got]; [apply keeps_refl|]. simpl.
    destruct (if truthyString got then got else None); apply keeps_same;
      rewrite ?call_timeouts; reflexivity.
  - eapply patient_keeps; [|exact Hp]. unfold playWordWith.
    destruct url; [|apply keeps_refl].
    assert (H1 : keeps st (stopSegmentTimer (stopTts st))).
    { eapply keeps_trans; [|apply keeps_stopSegmentTimer]. now apply keeps_same. }
    destruct (timing w).
    + eapply keeps_trans; [exact H1 | apply keeps_playSegment].
    + eapply keeps_trans; [exact H1 | now apply keeps_same].
  - eapply patient_keeps; [|exact Hp]. unfold resetRunState.
    eapply keeps_trans; [|apply keeps_same; simpl; rewrite call_timeouts; reflexivity].
    eapply keeps_trans; [|apply keeps_stopSegmentTimer]. now apply keeps_same.
  - eapply patient_keeps; [|exact Hp]. unfold toggleTts.
    destruct (ttsSpeaking st); [now apply keeps_same|].
    eapply keeps_trans; [apply (keeps_call Pause)|].
    eapply keeps_trans; [apply keeps_stopSegmentTimer|]. now apply keeps_same.
Qed.

Lemma patient_run events : forall st, patient st -> patient (run Math_round st events).
Proof.
  induction events as [|e events IH]; intros st H; simpl; auto.
  apply IH, patient_step, H.
Qed.

End Delays.

(** X20: a stop-timer never waits less than 80 ms: whatever happened
    since the first render, a pending timeout whose delay is a number has a
    delay of 80 ms or more, however short the interval asked for. *)
Theorem stop_timer_delay_floor
  (Math_round : float -> float) (mounted : bool) (key : option jsstring)
  (events : list Event) (t : Timeout) :
  In t (timeouts (run Math_round (initial mounted key) events)) ->
  is_nan (timeout_ms t) = false ->
  (80 <=? timeout_ms t)%float = true.
Proof.
  apply (patient_run Math_round events). intros t' [].
Qed.

(** An interval of 10 ms: the stop-timer waits 80 ms, not 70. *)
Lemma stop_timer_delay_floor_example :
  timeouts (run roundWhole (initial true (Some (str "rec")))
              [CallPlaySegment 0.5 0.51; Resume 1])
  = [{| timeout_id := 1; timeout_token := 1; timeout_ms := 80 |}]
  /\ (80 <=? 80)%float = true.
Proof.
  split; [vm_compute; reflexivity|].
  apply (stop_timer_delay_floor roundWhole true (Some (str "rec"))
           [CallPlaySegment 0.5 0.51; Resume 1]
           {| timeout_id := 1; timeout_token := 1; timeout_ms := 80 |}).
  - vm_compute. left. reflexivity.
  - reflexivity.
Defined.

(** * The helpers of the page: counting words, colouring scores *)

(** ** app/page.tsx: wordsCount and qualityBand *)

Module PageHelpers.

(** [s.split(/\s+/)]: the pieces between the maximal runs of white space;
    a run at either end of the text gives an empty piece there, and the empty
    text gives one empty piece. [piece] is the piece being read and [inRun]
    tells that the last code unit read was white space. *)
Fixpoint splitLoop (piece : jsstring) (inRun : bool) (s : jsstring) : list jsstring :=
  match s with
  | [] => [piece]
  | c :: rest =>
      if isSpace c
      then if inRun then splitLoop [] true rest
           else piece :: splitLoop [] true rest
      else splitLoop (piece ++ [c]) false rest
  end.

Definition splitSpaces (s : jsstring) : list jsstring := splitLoop [] false s.

(** [Boolean] on a string *)
Definition Boolean (s : jsstring) : bool :=
  match s with [] => false | _ => true end.

Definition wordsCount (s : jsstring) : nat :=
  length (filter Boolean (splitSpaces (trim s))).

Inductive Band := none | good | warn | bad.

(** [q] is [None] for null and undefined. *)
Definition qualityBand (q : option float) : Band :=
  match q with
  | None => none
  | Some q =>
      if negb (is_finite q) then none
      else if (85 <=? q)%float then good
      else if (70 <=? q)%float then warn
      else bad
  end.

(** How good a band is: no band, then bad, warn, good. *)
Definition rank (b : Band) : nat :=
  match b with none => 0 | bad => 1 | warn => 2 | good => 3 end.

End PageHelpers.

(** ** lib/speechace.ts: qualityBand *)

Module SpeechaceHelpers.

Inductive Band := na | good | warn | bad.

Definition qualityBand (q : option float) : Band :=
  match q with
  | None => na
  | Some q =>
      if negb (is_finite q) then na
      else if (80 <=? q)%float then good
      else if (60 <=? q)%float then warn
      else bad
  end.

Definition rank (b : Band) : nat :=
  match b with na => 0 | bad => 1 | warn => 2 | good => 3 end.

End SpeechaceHelpers.

(** ** Counting words *)

(** The number of maximal runs of code units that are not white space;
    [inWord] tells that the last code unit read was not white space. *)
Fixpoint countRuns (inWord : bool) (s : jsstring) : nat :=
  match s with
  | [] => if inWord then 1 else 0
  | c :: rest =>
      if isSpace c then (if inWord then 1 else 0) + countRuns false rest
      else countRuns true rest
  end.

Lemma Boolean_snoc piece c : PageHelpers.Boolean (piece ++ [c]) = true.
Proof. now destruct piece. Qed.

Lemma splitLoop_count s : forall piece inRun,
  (inRun = true -> piece = []) ->
  length (filter PageHelpers.Boolean (PageHelpers.splitLoop piece inRun s))
  = countRuns (PageHelpers.Boolean piece) s.
Proof.
  induction s as [|c rest IH]; intros piece inRun H; simpl.
  - now destruct (PageHelpers.Boolean piece).
  - destruct (isSpace c).
    + destruct inRun.
      * rewrite (H eq_refl). simpl. now apply IH.
      * simpl. destruct (PageHelpers.Boolean piece); simpl;
          rewrite (IH [] true) by auto; reflexivity.
    + rewrite IH by discriminate. now rewrite Boolean_snoc.
Qed.

Lemma countRuns_blank t : forall inWord,
  forallb isSpace t = true -> countRuns inWord t = if inWord then 1 else 0.
Proof.
  induction t as [|c t IH]; intros inWord H; simpl in *; auto.
  apply andb_prop in H. destruct H as [Hc Ht]. rewrite Hc, (IH false Ht). simpl.
  now destruct inWord.
Qed.

Lemma countRuns_app_blank s t : forall inWord,
  forallb isSpace t = true -> countRuns inWord (s ++ t) = countRuns inWord s.
Proof.
  induction s as [|c s IH]; intros inWord H; simpl.
  - now apply countRuns_blank.
  - now rewrite !IH.
Qed.

Lemma countRuns_dropWhile s : countRuns false (dropWhile isSpace s) = countRuns false s.
Proof.
  induction s as [|c s IH]; simpl; auto.
  destruct (isSpace c) eqn:E; simpl; [exact IH | now rewrite E].
Qed.

Lemma dropWhile_split (p : code_unit -> bool) s :
  exists t, forallb p t = true /\ s = t ++ dropWhile p s.
Proof.
  induction s as [|c s (t & Ht & IH)]; simpl.
  - now exists [].
  - destruct (p c) eqn:E.
    + exists (c :: t). simpl. rewrite E, Ht. split; auto. now rewrite <- IH.
    + now exists [].
Qed.

Lemma countRuns_trim s : countRuns false (trim s) = countRuns false s.
Proof.
  unfold trim. rewrite <- (countRuns_dropWhile s).
  destruct (dropWhile_split isSpace (rev (dropWhile isSpace s))) as (t & Ht & E).
  apply (f_equal (@rev code_unit)) in E. rewrite rev_involutive, rev_app_distr in E.
  rewrite E at 2. rewrite countRuns_app_blank; auto.
  now rewrite forallb_rev.
Qed.

Lemma wordsCount_runs s : PageHelpers.wordsCount s = countRuns false s.
Proof.
  unfold PageHelpers.wordsCount, PageHelpers.splitSpaces.
  rewrite splitLoop_count by discriminate. apply countRuns_trim.
Qed.

Lemma countRuns_app s c t : forall inWord,
  isSpace c = true ->
  countRuns inWord (s ++ c :: t) = countRuns inWord s + countRuns false t.
Proof.
  induction s as [|d s IH]; intros inWord H; simpl.
  - now rewrite H.
  - destruct (isSpace d); rewrite IH by exact H; lia.
Qed.

Lemma countRuns_word s : forall inWord,
  forallb (fun c => negb (isSpace c)) s = true -> countRuns inWord s = 
  match s with [] => if inWord then 1 else 0 | _ => 1 end.
Proof.
  induction s as [|c s IH]; intros inWord H; simpl in *; auto.
  apply andb_prop in H. destruct H as [Hc Hs].
  apply negb_true_iff in Hc. rewrite Hc, (IH true Hs). now destruct s.
Qed.

Lemma countRuns_pos s : 1 <= countRuns true s.
Proof.
  induction s as [|c s IH]; simpl; auto. destruct (isSpace c); lia.
Qed.

Lemma countRuns_zero s : countRuns false s = 0 <-> forallb isSpace s = true.
Proof.
  induction s as [|c s IH]; simpl.
  - tauto.
  - destruct (isSpace c); simpl; [exact IH|].
    pose proof (countRuns_pos s). split; [lia | discriminate].
Qed.

(** X14: [wordsCount] counts the maximal runs of code units that are not
    white space: a text of white space only counts 0, and no other text
    does; a text without white space that is not empty counts 1; and the
    count of two texts joined by a white space is the sum of their counts,
    so white space at the ends or repeated between words adds nothing. *)
Theorem wordsCount_counts_runs :
  (forall s, PageHelpers.wordsCount s = 0 <-> forallb isSpace s = true)
  /\ (forall s, s <> [] -> forallb (fun c => negb (isSpace c)) s = true ->
                PageHelpers.wordsCount s = 1)
  /\ (forall a c b, isSpace c = true ->
                    PageHelpers.wordsCount (a ++ c :: b)
                    = PageHelpers.wordsCount a + PageHelpers.wordsCount b).
Proof.
  split; [|split].
  - intros s. rewrite wordsCount_runs. apply countRuns_zero.
  - intros s Hne H. rewrite wordsCount_runs, countRuns_word by exact H.
    now destruct s.
  - intros a c b H. rewrite !wordsCount_runs. now apply countRuns_app.
Qed.

(** X15: a text in which the aligner finds a word passes the guard
    [wordsCount(text) < 1] of the page; the converse fails, a text of
    punctuation counts as one word and holds none for the aligner. *)
Theorem words_for_aligner_are_counted (text : jsstring) :
  matchAllWords text <> [] -> 1 <= PageHelpers.wordsCount text.
Proof.
  intros H. destruct (PageHelpers.wordsCount text) eqn:E; [|lia].
  exfalso. apply H, blank_no_words.
  rewrite wordsCount_runs in E. now apply countRuns_zero.
Qed.

Lemma words_for_aligner_are_counted_examples :
  1 <= PageHelpers.wordsCount (str "  the cat ")
  /\ PageHelpers.wordsCount (str "  the cat ") = 2
  /\ PageHelpers.wordsCount (str "?!") = 1
  /\ matchAllWords (str "?!") = [].
Proof.
  split; [|split; [|split]].
  - apply (words_for_aligner_are_counted (str "  the cat ")). vm_compute. discriminate.
  - reflexivity.
  - reflexivity.
  - reflexivity.
Defined.

(** ** Colouring scores *)

(** X16: both [qualityBand]s are monotone on finite scores: a higher
    score never gets a worse band. *)
Theorem qualityBand_monotone (a b : float) :
  is_finite a = true -> is_finite b = true -> (a <=? b)%float = true ->
  PageHelpers.rank (PageHelpers.qualityBand (Some a))
  <= PageHelpers.rank (PageHelpers.qualityBand (Some b))
  /\ SpeechaceHelpers.rank (SpeechaceHelpers.qualityBand (Some a))
     <= SpeechaceHelpers.rank (SpeechaceHelpers.qualityBand (Some b)).
Proof.
  intros Ha Hb Hab. simpl. rewrite Ha, Hb. simpl.
  assert (H : forall t : float, (t <=? a)%float = true -> (t <=? b)%float = true).
  { intros t Ht. eapply leb_trans; eauto. }
  split.
  - destruct (85 <=? a)%float eqn:E1; [now rewrite (H _ E1)|].
    destruct (70 <=? a)%float eqn:E2.
    + rewrite (H _ E2). destruct (85 <=? b)%float; simpl; lia.
    + destruct (85 <=? b)%float, (70 <=? b)%float; simpl; lia.
  - destruct (80 <=? a)%float eqn:E1; [now rewrite (H _ E1)|].
    destruct (60 <=? a)%float eqn:E2.
    + rewrite (H _ E2). destruct (80 <=? b)%float; simpl; lia.
    + destruct (80 <=? b)%float, (60 <=? b)%float; simpl; lia.
Qed.

Lemma qualityBand_monotone_examples :
  PageHelpers.qualityBand (Some 69.5%float) = PageHelpers.bad
  /\ PageHelpers.qualityBand (Some 84.5%float) = PageHelpers.warn
  /\ PageHelpers.rank (PageHelpers.qualityBand (Some 69.5%float))
     <= PageHelpers.rank (PageHelpers.qualityBand (Some 84.5%float))
  /\ SpeechaceHelpers.rank (SpeechaceHelpers.qualityBand (Some 69.5%float))
     <= SpeechaceHelpers.rank (SpeechaceHelpers.qualityBand (Some 84.5%float)).
Proof.
  split; [reflexivity|split; [reflexivity|]].
  exact (qualityBand_monotone 69.5%float 84.5%float eq_refl eq_refl eq_refl).
Defined.

(** X17: the page never colours a score better than the library does
    (its thresholds are 85 and 70 against 80 and 60), and the two give no
    band in the same cases: null, undefined, NaN and the infinities, so an
    infinite score is not good. *)
Theorem page_band_never_above_library (q : option float) :
  PageHelpers.rank (PageHelpers.qualityBand q)
  <= SpeechaceHelpers.rank (SpeechaceHelpers.qualityBand q)
  /\ (PageHelpers.qualityBand q = PageHelpers.none
      <-> SpeechaceHelpers.qualityBand q = SpeechaceHelpers.na)
  /\ (PageHelpers.qualityBand q = PageHelpers.none
      <-> match q with Some x => is_finite x = false | None => True end).
Proof.
  destruct q as [x|]; simpl; [|repeat split; auto].
  destruct (is_finite x) eqn:Hf; simpl; [|repeat split; auto].
  assert (H85 : (85 <=? x)%float = true -> (80 <=? x)%float = true).
  { apply leb_trans. reflexivity. }
  assert (H70 : (70 <=? x)%float = true -> (60 <=? x)%float = true).
  { apply leb_trans. reflexivity. }
  destruct (85 <=? x)%float eqn:E1.
  - rewrite (H85 eq_refl). simpl. repeat split; auto; discriminate.
  - destruct (70 <=? x)%float eqn:E2.
    + rewrite (H70 eq_refl).
      destruct (80 <=? x)%float; simpl; repeat split; auto; discriminate.
    + destruct (80 <=? x)%float, (60 <=? x)%float; simpl;
        repeat split; auto; discriminate.
Qed.

(** * The mean of the scores of a group *)

(** ** app/page.tsx: avg *)

Module PageStats.

(** [typeof x === "number" && Number.isFinite(x)] *)
Definition isFiniteNumber (x : value) : bool :=
  match x with
  | Num n => is_finite n
  | _ => false
  end.

(** [nums.filter(...) as number[]] *)
Fixpoint finiteNumbers (nums : list value) : list float :=
  match nums with
  | [] => []
  | Num n :: rest => if is_finite n then n :: finiteNumbers rest else finiteNumbers rest
  | _ :: rest => finiteNumbers rest
  end.

(** The length of an array as a Number: array lengths are below 2^32 and
    every such integer is a binary64 number. *)
Definition lengthNumber (n : nat) : float :=
  of_uint63 (Uint63.of_Z (Z.of_nat n)).

(** [null] is [None]. *)
Definition avg (nums : list value) : option float :=
  let xs := finiteNumbers nums in
  match xs with
  | [] => None
  | _ => Some (fold_left (fun a b => a + b)%float xs 0%float
               / lengthNumber (length xs))%float
  end.

End PageStats.

(** ** Sums and quotients that are numbers *)

Lemma digits2_pos_iter p k :
  digits2_pos (Pos.iter xO p k) = (digits2_pos p + k)%positive.
Proof.
  induction k as [|k IH] using Pos.peano_ind.
  - simpl. lia.
  - rewrite Pos.iter_succ. simpl. rewrite IH. lia.
Qed.

Lemma digits2_pos_bound p : (2 ^ (Z.pos (digits2_pos p) - 1) <= Z.pos p)%Z.
Proof.
  induction p as [p IH|p IH|]; simpl digits2_pos.
  - rewrite Pos2Z.inj_succ.
    replace (Z.succ (Z.pos (digits2_pos p)) - 1)%Z
      with (Z.succ (Z.pos (digits2_pos p) - 1))%Z by lia.
    rewrite Z.pow_succ_r by lia. lia.
  - rewrite Pos2Z.inj_succ.
    replace (Z.succ (Z.pos (digits2_pos p)) - 1)%Z
      with (Z.succ (Z.pos (digits2_pos p) - 1))%Z by lia.
    rewrite Z.pow_succ_r by lia. lia.
  - simpl. lia.
Qed.

Lemma digits2_pos_small p : (Z.pos p < 2 ^ 53)%Z -> (Z.pos (digits2_pos p) <= 53)%Z.
Proof.
  intros H. destruct (Z_le_gt_dec (Z.pos (digits2_pos p)) 53) as [|Hgt]; auto.
  exfalso. pose proof (digits2_pos_bound p) as Hb.
  assert (2 ^ 53 <= 2 ^ (Z.pos (digits2_pos p) - 1))%Z.
  { apply Z.pow_le_mono_r; lia. }
  lia.
Qed.

Lemma shr_fexp_exact m e :
  (fexp prec emax (Zdigits2 m + e) - e <= 0)%Z ->
  shr_fexp prec emax m e loc_Exact
  = ({| shr_m := m; shr_r := false; shr_s := false |}, e).
Proof.
  intros H. unfold shr_fexp, shr.
  destruct (fexp prec emax (Zdigits2 m + e) - e)%Z; try reflexivity. lia.
Qed.

Lemma binary_round_aux_exact s m e :
  Z.pos (digits2_pos m) = 53%Z -> (-1074 <= e <= 971)%Z ->
  binary_round_aux prec emax s (Z.pos m) e loc_Exact = S754_finite s m e.
Proof.
  intros Hd He.
  assert (Hf : (fexp prec emax (Zdigits2 (Z.pos m) + e) - e <= 0)%Z).
  { unfold fexp, SpecFloat.emin, Zdigits2. rewrite Hd.
    change prec with 53%Z. change emax with 1024%Z. lia. }
  unfold binary_round_aux. rewrite (shr_fexp_exact _ _ Hf). simpl.
  rewrite (shr_fexp_exact _ _ Hf). simpl.
  destruct (Z.leb_spec e 971); [reflexivity | lia].
Qed.

(** An integer from 1 to 2^53 - 1 is a positive finite binary64 number. *)
Lemma binary_normalize_small p :
  (Z.pos p < 2 ^ 53)%Z ->
  SFpos_finite (binary_normalize prec emax (Z.pos p) 0 false) = true.
Proof.
  intros H. pose proof (digits2_pos_small p H) as Hd.
  unfold binary_normalize, binary_round, shl_align.
  assert (Hf : fexp prec emax (Z.pos (digits2_pos p) + 0)
               = (Z.pos (digits2_pos p) - 53)%Z).
  { unfold fexp, SpecFloat.emin. change prec with 53%Z. change emax with 1024%Z. lia. }
  rewrite Hf.
  destruct (Z.pos (digits2_pos p) - 53 - 0)%Z as [|k|k] eqn:E.
  - rewrite binary_round_aux_exact; [reflexivity | lia | lia].
  - lia.
  - rewrite binary_round_aux_exact;
      [reflexivity | rewrite digits2_pos_iter; lia | lia].
Qed.

Lemma lengthNumber_positive n :
  0 < n -> (Z.of_nat n < 2 ^ 32)%Z ->
  SFpos_finite (Prim2SF (PageStats.lengthNumber n)) = true.
Proof.
  intros Hn Hb. unfold PageStats.lengthNumber.
  rewrite of_uint63_spec, Uint63.of_Z_spec.
  rewrite Z.mod_small by (change Uint63.wB with (2 ^ 63)%Z; lia).
  destruct (Z.of_nat n) as [|p|p] eqn:E; try lia.
  apply binary_normalize_small. lia.
Qed.

Lemma signed_not_nan s x : signed s x -> SFnot_nan x = true.
Proof. now destruct x. Qed.

(** A number plus a finite number is a number. *)
Lemma SFadd_not_nan x y :
  SFnot_nan x = true -> SFfinite y = true -> SFnot_nan (SFadd prec emax x y) = true.
Proof.
  destruct x as [s|s| |s m e], y as [s'|s'| |s' m' e']; simpl; try discriminate; auto.
  - now destruct s, s'.
  - intros _ _.
    destruct (shl_align m e (Z.min e e')) as [m1 e1].
    destruct (shl_align m' e' (Z.min e e')) as [m2 e2]. simpl.
    unfold binary_normalize.
    destruct (cond_Zopp s (Z.pos m1) + cond_Zopp s' (Z.pos m2))%Z; auto;
      eapply signed_not_nan, binary_round_signed.
Qed.

(** A number divided by a positive finite number is a number, and it is
    zero or more when the number is. *)
Lemma SFdiv_positive x y :
  SFnot_nan x = true -> SFpos_finite y = true ->
  SFnot_nan (SFdiv prec emax x y) = true
  /\ (SFnonneg x = true -> SFnonneg (SFdiv prec emax x y) = true).
Proof.
  destruct y as [s'|s'| |[] m' e']; simpl; try discriminate. intros Hx _.
  destruct x as [s|s| |s m e]; simpl in *; try discriminate.
  - split; auto.
  - rewrite xorb_false_r. split; auto.
  - rewrite xorb_false_r.
    pose proof (SFdiv_core_nonneg prec emax m e m' e') as H.
    destruct (SFdiv_core_binary _ _ _ _ _ _) as [[mz ez] lz]. simpl in H.
    pose proof (binary_round_aux_signed prec emax s mz ez lz H) as Hs.
    split; [eapply signed_not_nan; eauto|].
    destruct s; [discriminate|]. intros _. now apply signed_nonneg.
Qed.

Lemma add_not_nan a b :
  is_nan a = false -> is_finite b = true -> is_nan (a + b)%float = false.
Proof.
  rewrite !is_nan_spec, is_finite_spec, add_spec. intros Ha Hb.
  apply negb_false_iff in Ha. apply negb_false_iff. now apply SFadd_not_nan.
Qed.

Lemma sum_not_nan xs : forall acc,
  is_nan acc = false -> forallb is_finite xs = true ->
  is_nan (fold_left (fun a b => a + b)%float xs acc) = false.
Proof.
  induction xs as [|x xs IH]; intros acc Ha H; simpl in *; auto.
  apply andb_prop in H. destruct H as [Hx Hxs].
  apply IH; auto. now apply add_not_nan.
Qed.

Lemma sum_nonneg xs : forall acc,
  (0 <=? acc)%float = true -> forallb (fun x => 0 <=? x)%float xs = true ->
  (0 <=? fold_left (fun a b => a + b)%float xs acc)%float = true.
Proof.
  induction xs as [|x xs IH]; intros acc Ha H; simpl in *; auto.
  apply andb_prop in H. destruct H as [Hx Hxs].
  apply IH; auto. now apply add_nonneg.
Qed.

Lemma finiteNumbers_finite nums : forallb is_finite (PageStats.finiteNumbers nums) = true.
Proof.
  induction nums as [|[] nums IH]; simpl; auto.
  destruct (is_finite n) eqn:E; simpl; auto. now rewrite E.
Qed.

Lemma finiteNumbers_length nums :
  length (PageStats.finiteNumbers nums) <= length nums.
Proof.
  induction nums as [|[] nums IH]; simpl; try lia.
  destruct (is_finite n); simpl; lia.
Qed.

Lemma finiteNumbers_nil nums :
  PageStats.finiteNumbers nums = []
  <-> forallb (fun x => negb (PageStats.isFiniteNumber x)) nums = true.
Proof.
  induction nums as [|[] nums IH]; simpl; try tauto.
  destruct (is_finite n); simpl; [|exact IH].
  split; discriminate.
Qed.

Lemma finiteNumbers_In nums x :
  In x (PageStats.finiteNumbers nums) -> In (Num x) nums.
Proof.
  induction nums as [|[] nums IH]; simpl; auto.
  destruct (is_finite n); simpl; intuition congruence.
Qed.

(** X18: [avg] answers null exactly when no entry is a finite number;
    otherwise its answer is a number, never NaN, whatever else the array
    holds; and when the finite numbers of the array are zero or more, so is
    the answer. *)
Theorem avg_is_a_number (nums : list value) :
  (Z.of_nat (length nums) < 2 ^ 32)%Z ->
  (PageStats.avg nums = None
   <-> forallb (fun x => negb (PageStats.isFiniteNumber x)) nums = true)
  /\ (forall v, PageStats.avg nums = Some v -> is_nan v = false)
  /\ ((forall x, In (Num x) nums -> is_finite x = true -> (0 <=? x)%float = true) ->
      forall v, PageStats.avg nums = Some v -> (0 <=? v)%float = true).
Proof.
  intros Hlen. unfold PageStats.avg.
  pose proof (finiteNumbers_finite nums) as Hfin.
  pose proof (finiteNumbers_length nums) as Hle.
  pose proof (finiteNumbers_nil nums) as Hnil.
  pose proof (finiteNumbers_In nums) as Hin.
  destruct (PageStats.finiteNumbers nums) as [|x xs] eqn:E.
  - split; [|split]; try discriminate.
    split; [intros _; now apply Hnil | reflexivity].
  - set (sum := fold_left _ _ _). set (n := length (x :: xs)).
    assert (Hn : SFpos_finite (Prim2SF (PageStats.lengthNumber n)) = true).
    { apply lengthNumber_positive; unfold n; simpl in *; lia. }
    assert (Hsum : is_nan sum = false).
    { apply sum_not_nan; auto. }
    rewrite is_nan_spec in Hsum. apply negb_false_iff in Hsum.
    destruct (SFdiv_positive _ _ Hsum Hn) as [Hq Hpos].
    split; [|split].
    + split; [discriminate|]. intros H. apply Hnil in H. discriminate.
    + intros v [= <-]. rewrite is_nan_spec, div_spec. unfold SF64div. now rewrite Hq.
    + intros Hall v [= <-]. rewrite zero_leb, div_spec. unfold SF64div. apply Hpos.
      rewrite <- zero_leb. apply sum_nonneg; [reflexivity|].
      apply forallb_forall. intros y Hy.
      apply Hall; [now apply Hin|].
      rewrite forallb_forall in Hfin. now apply Hfin.
Qed.

(** The scores 80, NaN, null and 90 of a group: the mean is 85, of the two
    finite numbers. *)
Lemma avg_is_a_number_example :
  PageStats.avg [Num 80; Num nan; Null; Num 90] = Some 85%float
  /\ (forall v, PageStats.avg [Num 80; Num nan; Null; Num 90] = Some v ->
                is_nan v = false).
Proof.
  split; [reflexivity|].
  exact (proj1 (proj2 (avg_is_a_number [Num 80; Num nan; Null; Num 90] eq_refl))).
Defined.

(** * The history chart: one point per day or week *)

From Stdlib Require Import Sorting.Mergesort Sorting.Sorted Sorting.Permutation.

(** ** app/page.tsx: groupHistory *)

Module PageHistory.

Inductive Task := reading | open_ended | relevance.

Inductive TaskFilter := all | only (t : Task).

Inductive Bucket := day | week.

(** The keys that [metric] ranges over. *)
Inductive Metric :=
| key_overall | key_pronunciation | key_fluency | key_grammar
| key_coherence | key_vocab | key_relevanceScore.

(** The fields of a [HistoryEntry] that [groupHistory] reads. The scores
    are read back from storage and go to [avg] as they are. *)
Record HistoryEntry := {
  ts : float;
  task : Task;
  overall : value;
  pronunciation : value;
  fluency : value;
  grammar : value;
  coherence : value;
  vocab : value;
  relevanceScore : value
}.

(** [(g as any)[metric]] *)
Definition field (metric : Metric) (g : HistoryEntry) : value :=
  match metric with
  | key_overall => overall g
  | key_pronunciation => pronunciation g
  | key_fluency => fluency g
  | key_grammar => grammar g
  | key_coherence => coherence g
  | key_vocab => vocab g
  | key_relevanceScore => relevanceScore g
  end.

Definition Task_eqb (a b : Task) : bool :=
  match a, b with
  | reading, reading | open_ended, open_ended | relevance, relevance => true
  | _, _ => false
  end.

(** A [Map<string, HistoryEntry[]>]: its entries in the order in which
    their keys were first set. *)
Definition Map := list (jsstring * list HistoryEntry).

Definition Map_has (m : Map) (k : jsstring) : bool :=
  existsb (fun e => jsstring_eqb (fst e) k) m.

Definition Map_get (m : Map) (k : jsstring) : option (list HistoryEntry) :=
  option_map snd (find (fun e => jsstring_eqb (fst e) k) m).

(** [set] keeps the place of a key that the map has and puts a new key
    last. *)
Fixpoint Map_set (m : Map) (k : jsstring) (v : list HistoryEntry) : Map :=
  match m with
  | [] => [(k, v)]
  | (k', g) :: m' =>
      if jsstring_eqb k' k then (k', v) :: m' else (k', g) :: Map_set m' k v
  end.

Definition Map_keys (m : Map) : list jsstring := map fst m.

(** The order of [sort()] without a comparator on strings: by code
    units. *)
Fixpoint jsstring_compare (a b : jsstring) : comparison :=
  match a, b with
  | [], [] => Eq
  | [], _ :: _ => Lt
  | _ :: _, [] => Gt
  | x :: a', y :: b' =>
      match (x ?= y)%N with
      | Eq => jsstring_compare a' b'
      | c => c
      end
  end.

Definition jsstring_leb (a b : jsstring) : bool :=
  match jsstring_compare a b with
  | Gt => false
  | _ => true
  end.

Lemma jsstring_compare_antisym a : forall b,
  jsstring_compare b a = CompOpp (jsstring_compare a b).
Proof.
  induction a as [|x a IH]; intros [|y b]; simpl; auto.
  rewrite (N.compare_antisym x y). destruct (x ?= y)%N; simpl; auto.
Qed.

Module CodeUnitOrder <: Orders.TotalLeBool.

Definition t := jsstring.

Definition leb := jsstring_leb.

Lemma leb_total : forall a b, leb a b = true \/ leb b a = true.
Proof.
  intros a b. unfold leb, jsstring_leb. rewrite (jsstring_compare_antisym a b).
  destruct (jsstring_compare a b); simpl; auto.
Qed.

End CodeUnitOrder.

Module CodeUnitSort := Mergesort.Sort CodeUnitOrder.

(** [Array.prototype.sort] on strings that are all different: the
    ascending list is the same for every sorting algorithm. *)
Definition sort (keys : list jsstring) : list jsstring := CodeUnitSort.sort keys.

Record Point := { label : jsstring; value_ : option float }.

Section Grouping.

(** [dayKey] and [isoWeekKey] read the local calendar of the browser
    through [Date]; the grouping is the same for every such labelling. *)
Variables dayKey isoWeekKey : float -> jsstring.

(** One turn of the loop over the filtered items. [map.get(k)!.push(it)]
    extends the array that the map holds. *)
Definition addItem (keyer : float -> jsstring) (m : Map) (it : HistoryEntry) : outcome Map :=
  let k := keyer (ts it) in
  let m := if negb (Map_has m k) then Map_set m k [] else m in
  match Map_get m k with
  | Some g => Returns (Map_set m k (g ++ [it]))
  | None => Throws TypeError
  end.

Fixpoint forOf (keyer : float -> jsstring) (items : list HistoryEntry) (m : Map) : outcome Map :=
  match items with
  | [] => Returns m
  | it :: rest => bind (addItem keyer m it) (forOf keyer rest)
  end.

Definition point (metric : Metric) (m : Map) (k : jsstring) : outcome Point :=
  match Map_get m k with
  | Some group_ =>
      Returns {| label := k; value_ := PageStats.avg (map (field metric) group_) |}
  | None => Throws TypeError
  end.

Fixpoint points (metric : Metric) (m : Map) (labels : list jsstring) : outcome (list Point) :=
  match labels with
  | [] => Returns []
  | k :: rest =>
      bind (point metric m k) (fun p =>
      bind (points metric m rest) (fun ps => Returns (p :: ps)))
  end.

Definition filtered (items : list HistoryEntry) (taskFilter : TaskFilter) : list HistoryEntry :=
  match taskFilter with
  | all => items
  | only t => filter (fun x => Task_eqb (task x) t) items
  end.

Definition groupHistory (items : list HistoryEntry) (bucket : Bucket)
  (taskFilter : TaskFilter) (metric : Metric) : outcome (list Point) :=
  let keyer := match bucket with day => dayKey | week => isoWeekKey end in
  bind (forOf keyer (filtered items taskFilter) []) (fun m =>
  let labels := sort (Map_keys m) in
  points metric m labels).

End Grouping.

End PageHistory.

Import PageHistory.

(** ** The order by code units *)

Lemma jsstring_compare_eq a : forall b, jsstring_compare a b = Eq -> a = b.
Proof.
  induction a as [|x a IH]; intros [|y b]; simpl; try discriminate; auto.
  destruct (x ?= y)%N eqn:E; try discriminate.
  apply N.compare_eq_iff in E. intros H. now rewrite E, (IH b H).
Qed.

Lemma jsstring_compare_refl a : jsstring_compare a a = Eq.
Proof. induction a as [|x a IH]; simpl; auto. now rewrite N.compare_refl. Qed.

Lemma jsstring_compare_lt_trans a : forall b c,
  jsstring_compare a b = Lt -> jsstring_compare b c = Lt -> jsstring_compare a c = Lt.
Proof.
  induction a as [|x a IH]; intros [|y b] [|z c]; simpl; try discriminate; auto.
  destruct (x ?= y)%N eqn:E1; try discriminate;
    destruct (y ?= z)%N eqn:E2; try discriminate; intros H1 H2.
  - apply N.compare_eq_iff in E1, E2. subst. rewrite N.compare_refl. eauto.
  - apply N.compare_eq_iff in E1. subst. now rewrite E2.
  - apply N.compare_eq_iff in E2. subst. now rewrite E1.
  - rewrite N.compare_lt_iff in E1, E2.
    assert (E : (x ?= z)%N = Lt) by (apply N.compare_lt_iff; lia).
    now rewrite E.
Qed.

Lemma jsstring_leb_trans a b c :
  jsstring_leb a b = true -> jsstring_leb b c = true -> jsstring_leb a c = true.
Proof.
  unfold jsstring_leb.
  destruct (jsstring_compare a b) eqn:E1; try discriminate;
    destruct (jsstring_compare b c) eqn:E2; try discriminate; intros _ _.
  - apply jsstring_compare_eq in E1, E2. subst. now rewrite jsstring_compare_refl.
  - apply jsstring_compare_eq in E1. subst. now rewrite E2.
  - apply jsstring_compare_eq in E2. subst. now rewrite E1.
  - now rewrite (jsstring_compare_lt_trans a b c E1 E2).
Qed.

Lemma sort_sorted keys : StronglySorted (fun a b => jsstring_leb a b = true) (sort keys).
Proof.
  unfold sort.
  assert (T : Relations_1.Transitive (fun a b : jsstring => is_true (CodeUnitOrder.leb a b))).
  { intros a b c. apply jsstring_leb_trans. }
  exact (CodeUnitSort.StronglySorted_sort keys T).
Qed.

Lemma sort_permutation keys : Permutation keys (sort keys).
Proof. apply CodeUnitSort.Permuted_sort. Qed.

Lemma sorted_strict keys :
  NoDup keys -> StronglySorted (fun a b => jsstring_leb a b = true) keys ->
  StronglySorted (fun a b => jsstring_compare a b = Lt) keys.
Proof.
  induction keys as [|k keys IH]; intros Hnd Hs; constructor;
    inversion Hnd as [|? ? Hk Hnd']; inversion Hs as [|? ? Hs' Hall]; subst; auto.
  rewrite Forall_forall in *. intros k' Hk'. specialize (Hall k' Hk').
  unfold jsstring_leb in Hall.
  destruct (jsstring_compare k k') eqn:E; auto; try discriminate.
  apply jsstring_compare_eq in E. subst. contradiction.
Qed.

(** ** The map of the groups *)

Lemma Map_has_in m k : Map_has m k = true <-> In k (Map_keys m).
Proof.
  unfold Map_has, Map_keys. rewrite existsb_exists, in_map_iff. split.
  - intros (e & He & Hk). apply jsstring_eqb_eq in Hk. eauto.
  - intros (e & Hk & He). exists e. split; auto. now apply jsstring_eqb_eq.
Qed.

Lemma Map_get_in m k : Map_get m k <> None <-> In k (Map_keys m).
Proof.
  rewrite <- Map_has_in. unfold Map_get, Map_has.
  induction m as [|[k' g] m IH]; simpl.
  - split; [congruence | discriminate].
  - destruct (jsstring_eqb k' k); simpl; [|exact IH]. split; auto. discriminate.
Qed.

Lemma Map_get_set_same m k v : Map_get (Map_set m k v) k = Some v.
Proof.
  unfold Map_get. induction m as [|[k' g] m IH]; simpl.
  - now rewrite (proj2 (jsstring_eqb_eq k k) eq_refl).
  - destruct (jsstring_eqb k' k) eqn:E; simpl; rewrite E; auto.
Qed.

Lemma Map_get_set_other m k k' v :
  k' <> k -> Map_get (Map_set m k v) k' = Map_get m k'.
Proof.
  intros Hne. unfold Map_get. induction m as [|[k0 g] m IH]; simpl.
  - assert (E : jsstring_eqb k k' = false) by (apply jsstring_eqb_neq; congruence).
    now rewrite E.
  - destruct (jsstring_eqb k0 k) eqn:E; simpl.
    + apply jsstring_eqb_eq in E. subst k0.
      assert (E : jsstring_eqb k k' = false) by (apply jsstring_eqb_neq; congruence).
      now rewrite E.
    + destruct (jsstring_eqb k0 k'); auto.
Qed.

Lemma Map_keys_set m k v :
  Map_keys (Map_set m k v) = if Map_has m k then Map_keys m else Map_keys m ++ [k].
Proof.
  unfold Map_keys, Map_has. induction m as [|[k' g] m IH]; simpl; auto.
  destruct (jsstring_eqb k' k) eqn:E; simpl; auto.
  rewrite IH. now destruct (existsb _ m).
Qed.

Section Groups.

Variable keyer : float -> jsstring.

(** The items of [l] that [keyer] labels [k], in the order of [l]. *)
Definition bucketOf (k : jsstring) (l : list HistoryEntry) : list HistoryEntry :=
  filter (fun it => jsstring_eqb (keyer (ts it)) k) l.

Definition grouped (m : Map) (l : list HistoryEntry) : Prop :=
  NoDup (Map_keys m)
  /\ (forall k, In k (Map_keys m) <-> exists it, In it l /\ keyer (ts it) = k)
  /\ (forall k g, Map_get m k = Some g -> g = bucketOf k l).

Lemma bucketOf_snoc k l it :
  bucketOf k (l ++ [it])
  = bucketOf k l ++ (if jsstring_eqb (keyer (ts it)) k then [it] else []).
Proof. unfold bucketOf. now rewrite filter_app. Qed.

Lemma bucketOf_none k l :
  (~ exists it, In it l /\ keyer (ts it) = k) -> bucketOf k l = [].
Proof.
  intros H. unfold bucketOf. induction l as [|it l IH]; simpl; auto.
  destruct (jsstring_eqb (keyer (ts it)) k) eqn:E.
  - exfalso. apply H. exists it. split; [now left | now apply jsstring_eqb_eq].
  - apply IH. intros (it' & Hin & Hk). apply H. exists it'. split; auto. now right.
Qed.

Lemma grouped_nil : grouped [] [].
Proof.
  split; [constructor|split].
  - intros k. simpl. split; [contradiction | now intros (it & [] & _)].
  - discriminate.
Qed.

Lemma addItem_grouped m l it :
  grouped m l ->
  exists m', addItem keyer m it = Returns m' /\ grouped m' (l ++ [it]).
Proof.
  intros (Hnd & Hkeys & Hget). unfold addItem.
  set (k := keyer (ts it)).
  set (m1 := if negb (Map_has m k) then Map_set m k [] else m).
  assert (H1 : Map_get m1 k = Some (bucketOf k l)
               /\ NoDup (Map_keys m1)
               /\ (forall k', In k' (Map_keys m1) <-> In k' (Map_keys m) \/ k' = k)
               /\ (forall k', k' <> k -> Map_get m1 k' = Map_get m k')).
  { unfold m1. destruct (Map_has m k) eqn:Hhas; simpl.
    - apply Map_has_in in Hhas. pose proof Hhas as Hin.
      apply Map_get_in in Hhas. destruct (Map_get m k) as [g|] eqn:Eg; [|congruence].
      rewrite (Hget k g Eg). repeat split; auto.
      intros [H| ->]; auto.
    - assert (Hnot : ~ In k (Map_keys m)).
      { intros Hin. apply Map_has_in in Hin. congruence. }
      rewrite Map_get_set_same, Map_keys_set, Hhas.
      rewrite bucketOf_none by (intros Hex; apply Hnot, Hkeys, Hex).
      split; [reflexivity|]. split; [|split].
      + apply NoDup_app; [exact Hnd | constructor; [intros []|constructor] |].
        intros a Ha [<-|[]]. contradiction.
      + intros k'. rewrite in_app_iff. simpl. intuition.
      + intros k' Hne. now apply Map_get_set_other. }
  destruct H1 as (Hg1 & Hnd1 & Hk1 & Ho1). rewrite Hg1.
  eexists. split; [reflexivity|].
  assert (Hhas1 : Map_has m1 k = true).
  { apply Map_has_in, Hk1. now right. }
  split; [|split].
  - now rewrite Map_keys_set, Hhas1.
  - intros k'. rewrite Map_keys_set, Hhas1, Hk1, Hkeys. split.
    + intros [(it' & Hin & Hk')| ->].
      * exists it'. split; auto. apply in_or_app. now left.
      * exists it. split; auto. apply in_or_app. right. now left.
    + intros (it' & Hin & Hk'). apply in_app_or in Hin. destruct Hin as [Hin|[<-|[]]].
      * left. eauto.
      * right. now symmetry.
  - intros k' g. destruct (jsstring_eqb k k') eqn:E.
    + apply jsstring_eqb_eq in E. subst k'. rewrite Map_get_set_same. intros [= <-].
      rewrite bucketOf_snoc. fold k. now rewrite (proj2 (jsstring_eqb_eq k k) eq_refl).
    + apply jsstring_eqb_neq in E.
      rewrite Map_get_set_other, Ho1 by congruence. intros Hg.
      rewrite bucketOf_snoc. fold k. rewrite (proj2 (jsstring_eqb_neq k k') E).
      rewrite app_nil_r. now apply Hget.
Qed.

Lemma forOf_grouped rest : forall m l,
  grouped m l ->
  exists m', forOf keyer rest m = Returns m' /\ grouped m' (l ++ rest).
Proof.
  induction rest as [|it rest IH]; intros m l H; simpl.
  - exists m. now rewrite app_nil_r.
  - destruct (addItem_grouped m l it H) as (m1 & -> & H1). simpl.
    destruct (IH m1 (l ++ [it]) H1) as (m' & Hm' & H').
    exists m'. split; auto. now rewrite <- app_assoc in H'.
Qed.

Lemma points_grouped metric m l labels :
  grouped m l -> (forall k, In k labels -> In k (Map_keys m)) ->
  points metric m labels
  = Returns (map (fun k => {| label := k;
                              value_ := PageStats.avg (map (field metric) (bucketOf k l)) |})
               labels).
Proof.
  intros (Hnd & Hkeys & Hget) Hin. induction labels as [|k labels IH]; simpl; auto.
  unfold point.
  destruct (Map_get m k) as [g|] eqn:E.
  - simpl. rewrite IH by (intros k' Hk'; apply Hin; now right). simpl.
    now rewrite (Hget k g E).
  - exfalso. apply (proj2 (Map_get_in m k)); auto. apply Hin. now left.
Qed.

End Groups.

(** X19: [groupHistory] returns, for every list of entries, one point
    per label that the entries shown have: the labels are strictly ascending
    by code units, so none comes twice; a label is there exactly when an
    entry shown has it; and the value of a point is [avg] of the chosen score
    over the entries shown with that label, in the order of the history. *)
Theorem groupHistory_points
  (dayKey isoWeekKey : float -> jsstring) (items : list HistoryEntry)
  (bucket : Bucket) (taskFilter : TaskFilter) (metric : Metric) :
  let keyer := match bucket with day => dayKey | week => isoWeekKey end in
  let shown := filtered items taskFilter in
  exists out,
    groupHistory dayKey isoWeekKey items bucket taskFilter metric = Returns out
    /\ StronglySorted (fun a b => jsstring_compare a b = Lt) (map label out)
    /\ (forall k, In k (map label out) <-> exists it, In it shown /\ keyer (ts it) = k)
    /\ (forall p, In p out ->
          value_ p
          = PageStats.avg
              (map (field metric)
                 (filter (fun it => jsstring_eqb (keyer (ts it)) (label p)) shown))).
Proof.
  intros keyer shown. unfold groupHistory. fold keyer. fold shown.
  destruct (forOf_grouped keyer shown [] [] (grouped_nil keyer)) as (m & -> & Hm).
  simpl in Hm. simpl.
  pose proof (sort_permutation (Map_keys m)) as Hperm.
  rewrite (points_grouped keyer metric m shown (sort (Map_keys m)) Hm).
  2:{ intros k Hk. eapply Permutation_in; [apply Permutation_sym, Hperm | exact Hk]. }
  eexists. split; [reflexivity|].
  rewrite map_map. simpl. rewrite map_id.
  destruct Hm as (Hnd & Hkeys & Hget).
  split; [|split].
  - apply sorted_strict; [|apply sort_sorted].
    eapply Permutation_NoDup; eauto.
  - intros k. rewrite <- Hkeys. split; intros H.
    + eapply Permutation_in; [apply Permutation_sym, Hperm | exact H].
    + eapply Permutation_in; [exact Hperm | exact H].
  - intros p Hp. apply in_map_iff in Hp. destruct Hp as (k & <- & _). reflexivity.
Qed.

(** * The words of the exercises *)

(** ** lib/exercises.ts: normalizeWord, wordTokens and uniqByNorm *)

Module Exercises.

(** A [Set<string>]: its elements in the order in which they were
    added. *)
Definition Set_has (seen : list jsstring) (k : jsstring) : bool :=
  existsb (jsstring_eqb k) seen.

Definition Set_add (seen : list jsstring) (k : jsstring) : list jsstring :=
  if Set_has seen k then seen else seen ++ [k].

(** The matches of the word expression, which is the one of the
    aligner, or the empty array; then [trim] on every match and
    [filter(Boolean)]. *)
Definition wordTokens (s : jsstring) : list jsstring :=
  filter PageHelpers.Boolean (map trim (matchAllWords s)).

Section Words.

Variable toLowerCase : jsstring -> jsstring.

(** The text of the function is that of the page; its argument here is
    a string, and [s || ""] is [s]. *)
Definition normalizeWord (s : jsstring) : jsstring :=
  let s := if PageHelpers.Boolean s then s else [] in
  trim (removeAll isNotAlnumI (removeAll isQuote (toLowerCase s))).

(** The loop of [uniqByNorm] over the words left. *)
Fixpoint uniqLoop (words seen out : list jsstring) : list jsstring :=
  match words with
  | [] => out
  | w :: rest =>
      let k := normalizeWord w in
      if negb (PageHelpers.Boolean k) then uniqLoop rest seen out
      else if Set_has seen k then uniqLoop rest seen out
      else uniqLoop rest (Set_add seen k) (out ++ [w])
  end.

Definition uniqByNorm (words : list jsstring) : list jsstring :=
  uniqLoop words [] [].

End Words.

End Exercises.

(** [r] is [l] with some elements left out. *)
Inductive subseq {A : Type} : list A -> list A -> Prop :=
| subseq_nil : subseq [] []
| subseq_skip a r l : subseq r l -> subseq r (a :: l)
| subseq_keep a r l : subseq r l -> subseq (a :: r) (a :: l).

Lemma Set_has_in seen k : Exercises.Set_has seen k = true <-> In k seen.
Proof.
  unfold Exercises.Set_has. rewrite existsb_exists. split.
  - intros (x & Hx & E). apply jsstring_eqb_eq in E. now subst.
  - intros H. exists k. split; auto. now apply jsstring_eqb_eq.
Qed.

(** The words that the expression matches have a letter or a digit at
    both ends. *)
Lemma matchAllWords_wordText s w : In w (matchAllWords s) -> isWordText w = true.
Proof.
  intros H.
  destruct (tokenizeAndAttach_words s []) as [Hw _]. rewrite <- Hw in H.
  assert (Hshape : forallb wellFormedToken (tokenizeAndAttach s []) = true).
  { unfold tokenizeAndAttach. destruct s as [|c s]; [reflexivity|].
    apply (tokenLoop_shape [] (length (c :: s))). lia. }
  unfold wordTexts in H. apply in_flat_map in H. destruct H as (t & Ht & Hin).
  rewrite forallb_forall in Hshape. specialize (Hshape t Ht).
  destruct t; simpl in Hin; try contradiction.
  destruct Hin as [<-|[]]. exact Hshape.
Qed.

Lemma dropWhile_keep p c s : p c = false -> dropWhile p (c :: s) = c :: s.
Proof. intros H. simpl. now rewrite H. Qed.

Lemma alnum_not_space c : isAlnum c = true -> isSpace c = false.
Proof.
  intros H. destruct (isSpace c) eqn:E; auto.
  apply isSpace_not_alnum in E. rewrite H in E. discriminate.
Qed.

Lemma trim_ends s :
  match s with [] => True | c :: _ => isSpace c = false end ->
  match rev s with [] => True | c :: _ => isSpace c = false end ->
  trim s = s.
Proof.
  intros H1 H2. unfold trim.
  assert (E1 : dropWhile isSpace s = s).
  { destruct s; auto. now apply dropWhile_keep. }
  rewrite E1.
  assert (E2 : dropWhile isSpace (rev s) = rev s).
  { destruct (rev s); auto. now apply dropWhile_keep. }
  rewrite E2. apply rev_involutive.
Qed.

Lemma forallb_head {A} (p : A -> bool) l :
  forallb p l = true -> match l with [] => True | c :: _ => p c = true end.
Proof. destruct l; simpl; auto. intros H. now apply andb_prop in H. Qed.

Lemma forallb_last {A} (p : A -> bool) l :
  forallb p l = true -> match rev l with [] => True | c :: _ => p c = true end.
Proof. intros H. apply forallb_head. now rewrite forallb_rev. Qed.

Lemma wordText_trim w : isWordText w = true -> trim w = w /\ w <> [].
Proof.
  unfold isWordText. intros H.
  pose proof (span_app isAlnum w) as Happ.
  pose proof (span_all isAlnum w) as Hall.
  destruct (span isAlnum w) as [a r]. simpl in *.
  destruct a as [|c a]; [discriminate|].
  split; [|intros ->; discriminate].
  apply trim_ends.
  - rewrite <- Happ. simpl. apply alnum_not_space.
    simpl in Hall. now apply andb_prop in Hall.
  - destruct r as [|q r].
    + rewrite app_nil_r in Happ. subst w.
      pose proof (forallb_last isAlnum _ Hall) as Hl.
      destruct (rev (c :: a)); auto. now apply alnum_not_space.
    + apply andb_prop in H. destruct H as [_ H].
      destruct r as [|d r]; [discriminate|].
      rewrite <- Happ.
      replace ((c :: a) ++ q :: d :: r) with (((c :: a) ++ [q]) ++ d :: r)
        by (now rewrite <- app_assoc).
      rewrite rev_app_distr.
      pose proof (forallb_last isAlnum _ H) as Hl.
      destruct (rev (d :: r)) as [|z zs] eqn:E.
      * apply (f_equal (@length code_unit)) in E. rewrite length_rev in E. discriminate.
      * simpl. now apply alnum_not_space.
Qed.

(** X21: the words that the exercises read in a sentence are the words
    that the aligner finds in it, in order: every match has a letter or a
    digit at both ends, so the [trim] and the [filter] of [wordTokens] change
    nothing. *)
Theorem wordTokens_are_aligner_words (s : jsstring) :
  Exercises.wordTokens s = matchAllWords s.
Proof.
  unfold Exercises.wordTokens.
  pose proof (matchAllWords_wordText s) as H.
  induction (matchAllWords s) as [|w ws IH]; simpl; auto.
  destruct (wordText_trim w (H w (or_introl eq_refl))) as [Ht Hne].
  rewrite Ht. destruct w; [contradiction|]. simpl.
  f_equal. apply IH. intros w' Hw'. apply H. now right.
Qed.

Section Uniq.

Variable toLowerCase : jsstring -> jsstring.

Lemma uniqLoop_out words : forall seen out,
  Exercises.uniqLoop toLowerCase words seen out
  = out ++ Exercises.uniqLoop toLowerCase words seen [].
Proof.
  induction words as [|w rest IH]; intros seen out; simpl.
  - now rewrite app_nil_r.
  - destruct (negb _); [apply IH|].
    destruct (Exercises.Set_has seen _); [apply IH|].
    rewrite IH, (IH _ [w]). now rewrite <- app_assoc.
Qed.

Lemma uniqLoop_spec words : forall seen,
  let out := Exercises.uniqLoop toLowerCase words seen [] in
  subseq out words
  /\ NoDup (map (Exercises.normalizeWord toLowerCase) out)
  /\ (forall w, In w out ->
                Exercises.normalizeWord toLowerCase w <> []
                /\ ~ In (Exercises.normalizeWord toLowerCase w) seen)
  /\ (forall w, In w words -> Exercises.normalizeWord toLowerCase w <> [] ->
                In (Exercises.normalizeWord toLowerCase w) seen
                \/ In (Exercises.normalizeWord toLowerCase w)
                     (map (Exercises.normalizeWord toLowerCase) out)).
Proof.
  induction words as [|w rest IH]; intros seen; simpl.
  - repeat split; try constructor; contradiction.
  - set (k := Exercises.normalizeWord toLowerCase w).
    destruct (PageHelpers.Boolean k) eqn:Hk; simpl.
    + destruct (Exercises.Set_has seen k) eqn:Hs.
      * destruct (IH seen) as (H1 & H2 & H3 & H4).
        split; [now constructor|]. split; [exact H2|]. split; [exact H3|].
        intros w' [<-|Hw'] Hne; [|now apply H4].
        left. now apply Set_has_in.
      * unfold Exercises.Set_add. rewrite Hs.
        rewrite uniqLoop_out. simpl.
        destruct (IH (seen ++ [k])) as (H1 & H2 & H3 & H4).
        assert (Hnot : ~ In k seen).
        { intros Hin. apply Set_has_in in Hin. congruence. }
        split; [now constructor|]. split; [|split].
        -- constructor; [|exact H2]. fold k. intros Hin.
           apply in_map_iff in Hin. destruct Hin as (w' & Hk' & Hw').
           destruct (H3 w' Hw') as [_ Hno]. apply Hno. rewrite Hk'.
           apply in_or_app. right. now left.
        -- intros w' [<-|Hw'].
           ++ fold k. split; [|exact Hnot]. intros E. rewrite E in Hk. discriminate.
           ++ destruct (H3 w' Hw') as [Hne Hno]. split; [exact Hne|].
              intros Hin. apply Hno, in_or_app. now left.
        -- intros w' [<-|Hw'] Hne.
           ++ right. left. reflexivity.
           ++ destruct (H4 w' Hw' Hne) as [Hin|Hin].
              ** apply in_app_or in Hin. destruct Hin as [Hin|[<-|[]]]; [now left|].
                 right. left. reflexivity.
              ** right. now right.
    + destruct (IH seen) as (H1 & H2 & H3 & H4).
      split; [now constructor|]. split; [exact H2|]. split; [exact H3|].
      intros w' [<-|Hw'] Hne; [|now apply H4].
      fold k in Hne. destruct k; [contradiction | discriminate].
Qed.

End Uniq.

(** X22: [uniqByNorm] keeps, in their order, words of its argument
    whose normalized forms are not empty and all different, and it loses no
    normalized form: every word of the argument whose normalized form is not
    empty has that form among those of the words kept. *)
Theorem uniqByNorm_keeps_one_of_each
  (toLowerCase : jsstring -> jsstring) (words : list jsstring) :
  let norm := Exercises.normalizeWord toLowerCase in
  let out := Exercises.uniqByNorm toLowerCase words in
  subseq out words
  /\ NoDup (map norm out)
  /\ (forall w, In w out -> norm w <> [])
  /\ (forall w, In w words -> norm w <> [] -> In (norm w) (map norm out)).
Proof.
  intros norm out.
  destruct (uniqLoop_spec toLowerCase words []) as (H1 & H2 & H3 & H4).
  split; [exact H1|]. split; [exact H2|]. split.
  - intros w Hw. now apply H3.
  - intros w Hw Hne. destruct (H4 w Hw Hne) as [[]|H]. exact H.
Qed.
